(** * KeyValueDB: the collection store and its query language

    A shallow embedding of [src/server.py] (class [Server]): the named
    collections, the request handlers [_read], [_add], [_delete],
    [_create_collection], [_delete_collection] and [_query], the query
    grammar built from pyparsing elements, the value casts, and the two
    query executors; then the start-up of the server, [_read_config] and
    [_init_db], and the snapshot [_create_snapshot], over a file system
    given by its operations.

    Conventions.
    - Python text is [string]; a character is a code point below 256.
    - A Python exception is a constructor of [PyExc]; a computation that can
      raise returns [result]; a method of the server is a function of the
      database [self.collections] that returns its outcome together with the
      database it leaves behind (mutations made before an exception stay).
    - A Python [dict] is an association list in insertion order.
    - Stored values are the integers, floats, complex numbers and texts of
      the data model; the keys of a collection are integers and texts.
      (Float and complex keys, where [1], [1.0] and [1+0j] share one slot
      and a NaN is found only by object identity, are outside the model.)
      The key of a request is such a key or an object that cannot be
      hashed. *)

From Stdlib Require Import ZArith List String Ascii Bool Lia SpecFloat.
From Stdlib Require Import DecimalString DecimalPos.
Import ListNotations.
Local Open Scope string_scope.
Local Open Scope list_scope.

Set Implicit Arguments.

(* ================================================================= *)
(** ** Exceptions *)

Inductive PyExc : Type :=
| TypeError | KeyError | AttributeError | ValueError | ParseException.

Inductive result (A : Type) : Type :=
| Ok (a : A)
| Raise (e : PyExc).
Arguments Ok {A} a.
Arguments Raise {A} e.

Definition rbind {A B} (r : result A) (f : A -> result B) : result B :=
  match r with
  | Ok a => f a
  | Raise e => Raise e
  end.

(* ================================================================= *)
(** ** Python objects *)

Module Py.

(** A float is an IEEE-754 binary64 datum; [spec_float] gives its sign,
    mantissa and exponent, [S754_finite s m e] standing for (-1)^s * m * 2^e. *)
Inductive PyVal : Type :=
| VInt (z : Z)
| VFloat (f : spec_float)
| VComplex (re im : spec_float)
| VStr (s : string).

Inductive Key : Type :=
| KInt (z : Z)
| KStr (s : string).

Definition key_val (k : Key) : PyVal :=
  match k with
  | KInt z => VInt z
  | KStr s => VStr s
  end.

(** An object received as the key of a request: one of the keys above, or
    an object that cannot be hashed (a list, a dict, a set). *)
Inductive Object : Type :=
| Hashable (k : Key)
| Unhashable.

(** [hash(o)], as a dictionary calls it before it looks a key up. *)
Definition hash (o : Object) : result Key :=
  match o with
  | Hashable k => Ok k
  | Unhashable => Raise TypeError
  end.

Definition key_eqb (a b : Key) : bool :=
  match a, b with
  | KInt x, KInt y => Z.eqb x y
  | KStr s, KStr t => String.eqb s t
  | _, _ => false
  end.

(** *** Numbers *)

Definition float_of_Z (z : Z) : spec_float :=
  match z with
  | Z0 => S754_zero false
  | Zpos p => S754_finite false p 0
  | Zneg p => S754_finite true p 0
  end.

(** Signed mantissa and exponent of a finite float. *)
Definition scaled (f : spec_float) : Z * Z :=
  match f with
  | S754_finite s m e => ((if s then Zneg m else Zpos m), e)
  | _ => (0%Z, 0%Z)
  end.

(** Exact comparison of two numbers; [None] when one of them is a NaN.
    Python compares an [int] with a [float] exactly, so [float_of_Z] need not
    be representable in binary64. *)
Definition fcompare (x y : spec_float) : option comparison :=
  match x, y with
  | S754_nan, _ | _, S754_nan => None
  | S754_infinity s1, S754_infinity s2 =>
      Some (if s1 then (if s2 then Eq else Lt) else (if s2 then Gt else Eq))
  | S754_infinity s, _ => Some (if s then Lt else Gt)
  | _, S754_infinity s => Some (if s then Gt else Lt)
  | _, _ =>
      let '(m1, e1) := scaled x in
      let '(m2, e2) := scaled y in
      let e := Z.min e1 e2 in
      Some (Z.compare (m1 * 2 ^ (e1 - e)) (m2 * 2 ^ (e2 - e)))%Z
  end.

Definition feqb (x y : spec_float) : bool :=
  match fcompare x y with
  | Some Eq => true
  | _ => false
  end.

(** The real number behind an [int] or a [float]; other objects have none. *)
Definition real_of (v : PyVal) : option spec_float :=
  match v with
  | VInt z => Some (float_of_Z z)
  | VFloat f => Some f
  | _ => None
  end.

(** Real and imaginary part of a number. *)
Definition complex_of (v : PyVal) : option (spec_float * spec_float) :=
  match v with
  | VInt z => Some (float_of_Z z, S754_zero false)
  | VFloat f => Some (f, S754_zero false)
  | VComplex re im => Some (re, im)
  | VStr _ => None
  end.

(** *** The functions of module [operator] *)

(** Ordering: texts compare by code points, [int] and [float] numerically;
    every other pairing raises [TypeError] (complex numbers are unordered). *)
Definition order (a b : PyVal) : result (option comparison) :=
  match a, b with
  | VStr s, VStr t => Ok (Some (String.compare s t))
  | _, _ =>
      match real_of a, real_of b with
      | Some x, Some y => Ok (fcompare x y)
      | _, _ => Raise TypeError
      end
  end.

Definition operator_gt (a b : PyVal) : result bool :=
  rbind (order a b) (fun c =>
    Ok match c with Some Gt => true | _ => false end).

Definition operator_lt (a b : PyVal) : result bool :=
  rbind (order a b) (fun c =>
    Ok match c with Some Lt => true | _ => false end).

Definition operator_le (a b : PyVal) : result bool :=
  rbind (order a b) (fun c =>
    Ok match c with Some Lt | Some Eq => true | _ => false end).

Definition operator_ge (a b : PyVal) : result bool :=
  rbind (order a b) (fun c =>
    Ok match c with Some Gt | Some Eq => true | _ => false end).

(** [==] never raises on these objects: a text equals only an equal text,
    numbers are equal when both parts are. *)
Definition operator_eq (a b : PyVal) : result bool :=
  match a, b with
  | VStr s, VStr t => Ok (String.eqb s t)
  | _, _ =>
      match complex_of a, complex_of b with
      | Some (x, y), Some (x', y') => Ok (feqb x x' && feqb y y')
      | _, _ => Ok false
      end
  end.

(** [t in s] on texts: [t] occurs in [s] as a substring. *)
Fixpoint is_substring (t s : string) : bool :=
  String.prefix t s ||
  match s with
  | EmptyString => false
  | String _ s' => is_substring t s'
  end.

(** [operator.contains(a, b)] is [b in a], on the objects above: numbers
    are not containers, and a text only admits a text on the left of [in].
    (Lists, tuples, sets and dictionaries, which do contain texts, are not
    among the stored values of this development.) *)
Definition operator_contains (a b : PyVal) : result bool :=
  match a, b with
  | VStr s, VStr t => Ok (is_substring t s)
  | _, _ => Raise TypeError
  end.

(** *** The constructors [int], [float], [complex] and [str] applied to text *)

Local Open Scope char_scope.

Definition is_digit (c : ascii) : bool := ("0" <=? c) && (c <=? "9").

Definition digit_val (c : ascii) : Z := (Z.of_N (N_of_ascii c) - 48)%Z.

(** The whitespace that [int], [float] and [complex] strip, among the code
    points below 256: the ASCII whitespace 9 to 13 and 32, and 133 and 160,
    which the constructors turn into a space before they read the text.
    (The separators 28 to 31 are whitespace to [str.isspace], but the
    constructors leave them in place and then refuse the text.) *)
Definition is_space (c : ascii) : bool :=
  let n := N_of_ascii c in
  ((9 <=? n) && (n <=? 13) || (n =? 32) || (n =? 133) || (n =? 160))%N.

Fixpoint skip_spaces (cs : list ascii) : list ascii :=
  match cs with
  | c :: cs' => if is_space c then skip_spaces cs' else cs
  | [] => []
  end.

Definition strip (cs : list ascii) : list ascii :=
  rev (skip_spaces (rev (skip_spaces cs))).

Definition take_sign (cs : list ascii) : bool * list ascii :=
  match cs with
  | "-" :: r => (true, r)
  | "+" :: r => (false, r)
  | _ => (false, cs)
  end.

Inductive DigitState : Type := AtStart | AfterDigit | AfterUnderscore.

(** Decimal digits, with single underscores allowed between two digits. *)
Fixpoint int_digits (st : DigitState) (acc : Z) (cs : list ascii) : option Z :=
  match cs with
  | [] => match st with AfterDigit => Some acc | _ => None end
  | c :: cs' =>
      if is_digit c then int_digits AfterDigit (acc * 10 + digit_val c)%Z cs'
      else if c =? "_" then
        match st with
        | AfterDigit => int_digits AfterUnderscore acc cs'
        | _ => None
        end
      else None
  end.

(** [int(text)]: optional sign and decimal digits, [ValueError] otherwise.
    (The limit of 4300 digits that recent interpreters put on the text is
    not modelled: a theorem that needs a conversion to succeed bounds the
    length of the text.) *)
Definition py_int (text : string) : result PyVal :=
  let '(neg, ds) := take_sign (strip (list_ascii_of_string text)) in
  match int_digits AtStart 0 ds with
  | Some n => Ok (VInt (if neg then - n else n)%Z)
  | None => Raise ValueError
  end.

(** Underscores in a float or complex literal: each must stand between two
    digits; they are removed before the number is read. *)
Fixpoint drop_underscores (prev : ascii) (cs : list ascii)
  : option (list ascii) :=
  match cs with
  | [] => if prev =? "_" then None else Some []
  | c :: cs' =>
      if c =? "_" then
        if is_digit prev then drop_underscores c cs' else None
      else if (prev =? "_") && negb (is_digit c) then None
      else option_map (cons c) (drop_underscores c cs')
  end.

Fixpoint span_digits (cs : list ascii) : list ascii * list ascii :=
  match cs with
  | c :: cs' =>
      if is_digit c
      then let '(ds, r) := span_digits cs' in (c :: ds, r)
      else ([], cs)
  | [] => ([], [])
  end.

Definition digits_val (ds : list ascii) : Z :=
  fold_left (fun acc c => acc * 10 + digit_val c)%Z ds 0%Z.

(** The binary64 number nearest to [num / den] (both positive), ties to the
    even mantissa; magnitudes from 2^1024 on become an infinity. *)
Definition round_binary64 (neg : bool) (num den : Z) : spec_float :=
  let k0 := (Z.log2 num - Z.log2 den)%Z in
  let reaches k :=
    if (0 <=? k)%Z then (den * 2 ^ k <=? num)%Z
    else (den <=? num * 2 ^ (- k))%Z in
  let k := if reaches k0 then k0 else (k0 - 1)%Z in
  let e := Z.max (k - 52) (-1074) in
  let '(n, d) :=
    if (0 <=? e)%Z then (num, den * 2 ^ e)%Z else (num * 2 ^ (- e), den)%Z in
  let q := (n / d)%Z in
  let r := (n mod d)%Z in
  let m :=
    if (d <? 2 * r)%Z then (q + 1)%Z
    else if (2 * r =? d)%Z then (if Z.even q then q else q + 1)%Z
    else q in
  let '(m, e) :=
    if (m =? 2 ^ 53)%Z then (2 ^ 52, e + 1)%Z else (m, e) in
  if (m =? 0)%Z then S754_zero neg
  else if (971 <? e)%Z then S754_infinity neg
  else S754_finite neg (Z.to_pos m) e.

Definition lower (c : ascii) : ascii :=
  if ("A" <=? c) && (c <=? "Z")
  then ascii_of_N (N_of_ascii c + 32)
  else c.

(** Case-insensitive match of a lower-case pattern; the text left over. *)
Fixpoint imatch (pat cs : list ascii) : option (list ascii) :=
  match pat, cs with
  | [], _ => Some cs
  | p :: pat', c :: cs' => if lower c =? p then imatch pat' cs' else None
  | _ :: _, [] => None
  end.

Definition parse_inf_or_nan (cs : list ascii)
  : option (spec_float * list ascii) :=
  let '(neg, r) := take_sign cs in
  match imatch (list_ascii_of_string "inf") r with
  | Some r1 =>
      match imatch (list_ascii_of_string "inity") r1 with
      | Some r2 => Some (S754_infinity neg, r2)
      | None => Some (S754_infinity neg, r1)
      end
  | None =>
      match imatch (list_ascii_of_string "nan") r with
      | Some r1 => Some (S754_nan, r1)
      | None => None
      end
  end.

(** The longest prefix that reads as a decimal number
    [sign digits . digits e sign digits] with at least one mantissa digit,
    and its value. *)
Definition parse_decimal (cs : list ascii)
  : option (spec_float * list ascii) :=
  let '(neg, r) := take_sign cs in
  let '(ip, r1) := span_digits r in
  let '(fp, r2) :=
    match r1 with
    | "." :: r1' => span_digits r1'
    | _ => ([], r1)
    end in
  match ip ++ fp with
  | [] => None
  | mant =>
      let '(ex, r3) :=
        match r2 with
        | c :: r2' =>
            if lower c =? "e" then
              let '(eneg, r4) := take_sign r2' in
              let '(ed, r5) := span_digits r4 in
              match ed with
              | [] => (0%Z, r2)
              | _ => ((if eneg then - digits_val ed else digits_val ed)%Z, r5)
              end
            else (0%Z, r2)
        | [] => (0%Z, r2)
        end in
      let n := digits_val mant in
      let e10 := (ex - Z.of_nat (List.length fp))%Z in
      let f :=
        if (n =? 0)%Z then S754_zero neg
        else if (0 <=? e10)%Z then round_binary64 neg (n * 10 ^ e10) 1
        else round_binary64 neg n (10 ^ (- e10)) in
      Some (f, r3)
  end.

Definition strtod (cs : list ascii) : option (spec_float * list ascii) :=
  match parse_inf_or_nan cs with
  | Some r => Some r
  | None => parse_decimal cs
  end.

(** [float(text)], [ValueError] unless the whole text is one number. *)
Definition py_float (text : string) : result PyVal :=
  match drop_underscores zero (strip (list_ascii_of_string text)) with
  | Some cs =>
      match strtod cs with
      | Some (f, []) => Ok (VFloat f)
      | _ => Raise ValueError
      end
  | None => Raise ValueError
  end.

Definition float_one (neg : bool) : spec_float :=
  S754_finite neg 4503599627370496 (-52).

Definition expect_j (cs : list ascii) (v : spec_float * spec_float)
  : option ((spec_float * spec_float) * list ascii) :=
  match cs with
  | c :: r => if lower c =? "j" then Some (v, r) else None
  | [] => None
  end.

(** The body of a complex literal: [x], [yj], [x+yj], [x+j], [+j], [j]. *)
Definition complex_body (cs : list ascii)
  : option ((spec_float * spec_float) * list ascii) :=
  let zero := S754_zero false in
  match strtod cs with
  | Some (z, r) =>
      match r with
      | c :: r' =>
          if (c =? "+") || (c =? "-") then
            match strtod r with
            | Some (y, r2) => expect_j r2 (z, y)
            | None => expect_j r' (z, float_one (c =? "-"))
            end
          else if lower c =? "j" then Some ((zero, z), r')
          else Some ((z, zero), r)
      | [] => Some ((z, zero), [])
      end
  | None =>
      match cs with
      | c :: r =>
          if (c =? "+") || (c =? "-")
          then expect_j r (zero, float_one (c =? "-"))
          else expect_j cs (zero, float_one false)
      | [] => None
      end
  end.

(** [complex(text)]: a complex literal, optionally in parentheses. *)
Definition py_complex (text : string) : result PyVal :=
  match drop_underscores zero (list_ascii_of_string text) with
  | Some cs =>
      let s := skip_spaces cs in
      let '(bracket, s) :=
        match s with
        | "(" :: r => (true, skip_spaces r)
        | _ => (false, s)
        end in
      match complex_body s with
      | Some ((re, im), r) =>
          let r := skip_spaces r in
          if bracket then
            match r with
            | ")" :: r' =>
                match skip_spaces r' with
                | [] => Ok (VComplex re im)
                | _ => Raise ValueError
                end
            | _ => Raise ValueError
            end
          else
            match r with
            | [] => Ok (VComplex re im)
            | _ => Raise ValueError
            end
      | None => Raise ValueError
      end
  | None => Raise ValueError
  end.

(** [str(text)] is the text itself. *)
Definition py_str (text : string) : result PyVal := Ok (VStr text).

Local Close Scope char_scope.

End Py.
Import Py.

(* ================================================================= *)
(** ** Python dictionaries *)

(** A [dict] keeps its entries in insertion order and holds a key once.
    [setitem] on a key already present replaces the value in place;
    [getitem] and [delitem] raise [KeyError] on a missing key. *)
Section Dict.
Variables K V : Type.
Variable eqb : K -> K -> bool.

Definition dict : Type := list (K * V).

Fixpoint getitem (d : dict) (k : K) : result V :=
  match d with
  | [] => Raise KeyError
  | (k', v) :: d' => if eqb k' k then Ok v else getitem d' k
  end.

Fixpoint setitem (d : dict) (k : K) (v : V) : dict :=
  match d with
  | [] => [(k, v)]
  | (k', v') :: d' =>
      if eqb k' k then (k', v) :: d' else (k', v') :: setitem d' k v
  end.

Fixpoint delitem (d : dict) (k : K) : result dict :=
  match d with
  | [] => Raise KeyError
  | (k', v') :: d' =>
      if eqb k' k then Ok d'
      else rbind (delitem d' k) (fun r => Ok ((k', v') :: r))
  end.

Definition has_key (d : dict) (k : K) : bool :=
  match getitem d k with
  | Ok _ => true
  | Raise _ => false
  end.

(** [d.items()] and [d.copy()]: the entries, as they stand now. *)
Definition items (d : dict) : list (K * V) := d.
Definition copy (d : dict) : dict := d.

Definition keys (d : dict) : list K := map fst d.
End Dict.

Arguments getitem {K V} eqb d k.
Arguments setitem {K V} eqb d k v.
Arguments delitem {K V} eqb d k.
Arguments has_key {K V} eqb d k.
Arguments items {K V} d.
Arguments copy {K V} d.
Arguments keys {K V} d.

(* ================================================================= *)
(** ** The pyparsing elements the grammar is built from *)

Module Pyparsing.

Local Open Scope char_scope.

Definition in_range (lo hi c : ascii) : bool := (lo <=? c) && (c <=? hi).

Definition alphas (c : ascii) : bool := in_range "A" "Z" c || in_range "a" "z" c.
Definition nums (c : ascii) : bool := in_range "0" "9" c.
Definition alphanums (c : ascii) : bool := alphas c || nums c.

(** [printables]: the ASCII characters that are not whitespace, codes 33
    to 126. *)
Definition printables (c : ascii) : bool := in_range "!" "~" c.

(** [Keyword.DEFAULT_KEYWORD_CHARS]. *)
Definition identChars (c : ascii) : bool :=
  alphanums c || (c =? "_") || (c =? "$").

(** [ParserElement.DEFAULT_WHITE_CHARS]: space, newline, tab, return. *)
Definition whiteChars (c : ascii) : bool :=
  (c =? " ") || (c =? "010") || (c =? "009") || (c =? "013").

Inductive ParserElement : Type :=
| Keyword (m : string)
| Literal (m : string)
| Word (initChars : ascii -> bool)
| And (a b : ParserElement)
| MatchFirst (a b : ParserElement)
| Named (e : ParserElement) (name : string).

(** The tokens matched and the tokens that carry a results name. *)
Record ParseResults : Type := mkResults {
  toklist : list string;
  tokdict : dict string string
}.

Definition token (t : string) : ParseResults := mkResults [t] [].

Definition merge (r1 r2 : ParseResults) : ParseResults :=
  mkResults (toklist r1 ++ toklist r2)
            (fold_left (fun d '(n, t) => setitem String.eqb d n t)
                       (tokdict r2) (tokdict r1)).

Definition set_name (name : string) (r : ParseResults) : ParseResults :=
  match toklist r with
  | t :: _ => mkResults (toklist r) (setitem String.eqb (tokdict r) name t)
  | [] => r
  end.

(** A position [loc] in the input: the character at [loc - 1], if any, and
    the text from [loc] on. *)
Definition Loc : Type := option ascii * list ascii.

Fixpoint skip_white (prev : option ascii) (cs : list ascii) : Loc :=
  match cs with
  | c :: cs' => if whiteChars c then skip_white (Some c) cs' else (prev, cs)
  | [] => (prev, [])
  end.

Fixpoint starts_with (m cs : list ascii) : option (list ascii) :=
  match m, cs with
  | [], _ => Some cs
  | a :: m', c :: cs' => if a =? c then starts_with m' cs' else None
  | _ :: _, [] => None
  end.

Fixpoint span (chars : ascii -> bool) (cs : list ascii)
  : list ascii * list ascii :=
  match cs with
  | c :: cs' =>
      if chars c
      then let '(w, r) := span chars cs' in (c :: w, r)
      else ([], cs)
  | [] => ([], [])
  end.

(** The character before the position reached after matching [w]. *)
Definition after (prev : option ascii) (w : list ascii) : option ascii :=
  last (map Some w) prev.

Definition not_ident (c : option ascii) : bool :=
  match c with
  | Some c => negb (identChars c)
  | None => true
  end.

(** [_parse]: skip leading whitespace, then match the element at the position
    reached.  A [Keyword] must not touch an identifier character on either
    side; a [Literal] matches its text wherever it stands; a [Word] takes the
    longest non-empty run of its characters; [And] matches in sequence;
    [MatchFirst] takes the first alternative that matches. *)
Fixpoint parse (e : ParserElement) (prev : option ascii) (cs : list ascii)
  : result (ParseResults * Loc) :=
  let '(prev, cs) := skip_white prev cs in
  match e with
  | Keyword m =>
      let w := list_ascii_of_string m in
      match starts_with w cs with
      | Some r =>
          if not_ident (hd_error r) && not_ident prev
          then Ok (token m, (after prev w, r))
          else Raise ParseException
      | None => Raise ParseException
      end
  | Literal m =>
      let w := list_ascii_of_string m in
      match starts_with w cs with
      | Some r => Ok (token m, (after prev w, r))
      | None => Raise ParseException
      end
  | Word chars =>
      match span chars cs with
      | ([], _) => Raise ParseException
      | (w, r) => Ok (token (string_of_list_ascii w), (after prev w, r))
      end
  | And a b =>
      match parse a prev cs with
      | Ok (r1, (prev1, cs1)) =>
          match parse b prev1 cs1 with
          | Ok (r2, loc) => Ok (merge r1 r2, loc)
          | Raise x => Raise x
          end
      | Raise x => Raise x
      end
  | MatchFirst a b =>
      match parse a prev cs with
      | Ok r => Ok r
      | Raise _ => parse b prev cs
      end
  | Named e name =>
      match parse e prev cs with
      | Ok (r, loc) => Ok (set_name name r, loc)
      | Raise x => Raise x
      end
  end.

(** [expr.parseString(instring)]: parse from the start of the text; what
    follows the match is not looked at ([parseAll] is off).  (The tabs of
    the input are first expanded to spaces; both are whitespace to every
    element, and no token contains either.) *)
Definition parseString (e : ParserElement) (instring : string)
  : result ParseResults :=
  match parse e None (list_ascii_of_string instring) with
  | Ok (r, _) => Ok r
  | Raise x => Raise x
  end.

Local Close Scope char_scope.

Declare Scope pyparsing_scope.
Delimit Scope pyparsing_scope with pyparsing.
Infix "+" := And : pyparsing_scope.
Infix "<|>" := MatchFirst (at level 60, right associativity) : pyparsing_scope.
Notation "e @ name" := (Named e name) (at level 30, no associativity)
  : pyparsing_scope.

End Pyparsing.
Import Pyparsing.

(* ================================================================= *)
(** ** The server *)

Module Server.

Definition Collection : Type := dict Key PyVal.

(** [self.collections]: collection name to collection. *)
Definition Database : Type := dict string Collection.

(** *** Methods: state and exceptions *)

Definition M (A : Type) : Type := Database -> result A * Database.

Definition ret {A} (a : A) : M A := fun db => (Ok a, db).

Definition raise {A} (e : PyExc) : M A := fun db => (Raise e, db).

Definition bind {A B} (m : M A) (f : A -> M B) : M B :=
  fun db =>
    match m db with
    | (Ok a, db') => f a db'
    | (Raise e, db') => (Raise e, db')
    end.

Definition lift {A} (r : result A) : M A := fun db => (r, db).

(** [try: body / except: handler]. *)
Definition try_except {A} (body : M A) (handler : PyExc -> M A) : M A :=
  fun db =>
    match body db with
    | (Ok a, db') => (Ok a, db')
    | (Raise e, db') => handler e db'
    end.

(** [try: body / except: handler / else: orelse]. *)
Definition try_except_else {A B}
  (body : M A) (handler : PyExc -> M B) (orelse : A -> M B) : M B :=
  fun db =>
    match body db with
    | (Ok a, db') => orelse a db'
    | (Raise e, db') => handler e db'
    end.

(** [for x in xs: acc = step(acc, x)]. *)
Fixpoint for_each {A X} (xs : list X) (acc : A) (step : A -> X -> M A) : M A :=
  match xs with
  | [] => ret acc
  | x :: xs' => bind (step acc x) (fun acc' => for_each xs' acc' step)
  end.

Notation "x <- m ;; k" := (bind m (fun x => k))
  (at level 61, m at next level, right associativity).
Notation "m ;; k" := (bind m (fun _ => k))
  (at level 61, right associativity).

(** [self.collections[name]]. *)
Definition collections_getitem (name : string) : M Collection :=
  fun db => (getitem String.eqb db name, db).

(** [self.collections[name] = c]. *)
Definition collections_setitem (name : string) (c : Collection) : M unit :=
  fun db => (Ok tt, setitem String.eqb db name c).

(** [del self.collections[name]]. *)
Definition collections_delitem (name : string) : M unit :=
  fun db =>
    match delitem String.eqb db name with
    | Ok db' => (Ok tt, db')
    | Raise e => (Raise e, db)
    end.

(** [self.collections[name][key] = value]: the collection object is updated
    in place, so the database sees the new entry. *)
Definition entry_setitem (name : string) (key : Object) (value : PyVal)
  : M unit :=
  c <- collections_getitem name ;;
  k <- lift (hash key) ;;
  collections_setitem name (setitem key_eqb c k value).

(** [del self.collections[name][key]]. *)
Definition entry_delitem (name : string) (key : Object) : M unit :=
  c <- collections_getitem name ;;
  k <- lift (hash key) ;;
  c' <- lift (delitem key_eqb c k) ;;
  collections_setitem name c'.

(** *** Requests and responses *)

(** Modelled from the spec: [Models/request.py] is not among the sources; the
    fields are the five that the server reads from a request and the client
    passes to [Request(request_type, collection_name, key, value, query)].
    The record is a request as the client builds it: all five fields are
    there, the collection name and the query are texts, the value is a
    number or a text.  The server checks none of this on what it decodes;
    a request of another shape is not a [Request]. *)
Record Request : Type := mkRequest {
  request_type : Z;
  req_collection_name : string;
  req_key : Object;
  req_value : PyVal;
  req_query : string
}.

Inductive CollectionName : Type :=
| Name (s : string)
| Names (l : list string).

Inductive Data : Type :=
| Entries (l : list (PyVal * PyVal))
| Groups (d : dict Key (list PyVal)).

(** [Models/response.py]; [None] is [None]. *)
Record Response : Type := mkResponse {
  success : bool;
  message : option string;
  collection_name : option CollectionName;
  data : option Data
}.

Definition _send_error (description : string) : M Response :=
  ret (mkResponse false (Some description) None None).

(** *** Collections and entries *)

(** The alphabetic code points below 256. *)
Definition is_alpha (c : ascii) : bool :=
  let n := N_of_ascii c in
  ((65 <=? n) && (n <=? 90) || (97 <=? n) && (n <=? 122)
   || (n =? 170) || (n =? 181) || (n =? 186)
   || (192 <=? n) && (n <=? 214) || (216 <=? n) && (n <=? 246)
   || (248 <=? n))%N.

(** [text.isalpha()]: at least one character, all alphabetic. *)
Definition isalpha (text : string) : bool :=
  match list_ascii_of_string text with
  | [] => false
  | cs => forallb is_alpha cs
  end.

Definition _collection_exists (collection_name : string) : M bool :=
  try_except_else (collections_getitem collection_name)
    (fun _ => ret false)
    (fun _ => ret true).

Definition _create_collection (collection_name : string) : M Response :=
  if isalpha collection_name then
    try_except_else (collections_getitem collection_name)
      (fun _ =>
         collections_setitem collection_name [] ;;
         ret (mkResponse true None (Some (Name collection_name)) None))
      (fun _ => _send_error "Collection already exists.")
  else _send_error "Invalid collection name.".

Definition _delete_collection (collection_name : string) : M Response :=
  try_except
    (collections_delitem collection_name ;;
     ret (mkResponse true None None None))
    (fun e =>
       match e with
       | KeyError => _send_error "Collection does not exist."
       | _ => raise e
       end).

(** In [_read] and [_add], [collection[key]] hashes the key before it looks
    it up; the entry of the answer carries the key of the request. *)
Definition _read (key : Object) (collection_name : string) : M Response :=
  e <- _collection_exists collection_name ;;
  if e then
    try_except
      (c <- collections_getitem collection_name ;;
       k <- lift (hash key) ;;
       v <- lift (getitem key_eqb c k) ;;
       ret (mkResponse true None (Some (Name collection_name))
              (Some (Entries [(key_val k, v)]))))
      (fun _ => _send_error "Entry does not exist.")
  else _send_error "Collection does not exist.".

Definition _add (key : Object) (value : PyVal) (collection_name : string)
  : M Response :=
  e <- _collection_exists collection_name ;;
  if e then
    try_except
      (entry_setitem collection_name key value ;;
       c <- collections_getitem collection_name ;;
       k <- lift (hash key) ;;
       v <- lift (getitem key_eqb c k) ;;
       ret (mkResponse true None (Some (Name collection_name))
              (Some (Entries [(key_val k, v)]))))
      (fun _ => _send_error "Entry could not be added.")
  else _send_error "Collection does not exist.".

Definition _delete (key : Object) (collection_name : string) : M Response :=
  e <- _collection_exists collection_name ;;
  if e then
    try_except
      (entry_delitem collection_name key ;;
       ret (mkResponse true None (Some (Name collection_name)) None))
      (fun _ => _send_error "Entry could not be deleted.")
  else _send_error "Collection does not exist.".

(** *** The query grammar *)

Local Open Scope pyparsing_scope.

Definition ACTION_QUERY : ParserElement :=
  Keyword "read" @ "action" <|> Keyword "delete" @ "action".

Definition ELEMENT : ParserElement :=
  Keyword "key" @ "element" <|> Keyword "value" @ "element".

Definition OPERATOR : ParserElement :=
  Keyword "<=" @ "operator" <|> Keyword ">=" @ "operator"
  <|> Keyword "<" @ "operator" <|> Keyword ">" @ "operator"
  <|> Keyword "=" @ "operator" <|> Keyword "contains" @ "operator".

Definition VALUE : ParserElement :=
  (Word printables @ "value_type" + Literal "("
   + Word printables @ "value" + Literal ")")
  <|> Word printables @ "value".

Definition SYNTAX_QUERY : ParserElement :=
  ACTION_QUERY + ELEMENT + OPERATOR + VALUE
  + Literal "from" + Word alphas @ "collection1".

Definition SYNTAX_JOIN : ParserElement :=
  Keyword "join" @ "action" + Word alphas @ "collection1"
  + Literal "with" + Word alphas @ "collection2".

Definition SYNTAX : ParserElement := SYNTAX_JOIN <|> SYNTAX_QUERY.

Local Close Scope pyparsing_scope.

(** The parsed query: the tokens with a results name, and the object that
    [query["value"]] holds once the cast has replaced the token. *)
Record Query : Type := mkQuery {
  tokens : dict string string;
  cast_value : option PyVal
}.

(** [query[name]] for a name that holds a token. *)
Definition query_item (query : Query) (name : string) : result string :=
  getitem String.eqb (tokens query) name.

(** [query["value"]]. *)
Definition query_value (query : Query) : result PyVal :=
  match cast_value query with
  | Some v => Ok v
  | None => rbind (query_item query "value") (fun t => Ok (VStr t))
  end.

Definition _parse_value_to_type (value value_type : string) : result PyVal :=
  let types :=
    [("int", py_int); ("float", py_float);
     ("complex", py_complex); ("str", py_str)] in
  rbind (getitem String.eqb types value_type) (fun cast => cast value).

Definition _parse_query_string (query : string) : result Query :=
  rbind (parseString SYNTAX query) (fun r =>
    let query := mkQuery (tokdict r) None in
    if has_key String.eqb (tokens query) "value_type" then
      rbind (query_item query "value") (fun value =>
      rbind (query_item query "value_type") (fun value_type =>
      rbind (_parse_value_to_type value value_type) (fun v =>
      Ok (mkQuery (tokens query) (Some v)))))
    else Ok query).

(** *** Executing a query *)

(** What [query_action] can be bound to. *)
Inductive QueryAction : Type :=
| PyNone
| delete_from_query.

Definition _delete_from_query (key : Key) (collection_name : string) : M unit :=
  entry_delitem collection_name (Hashable key).

(** [query_action(key, collection_name)]: [None] is not callable. *)
Definition call2 (query_action : QueryAction) (key : Key)
  (collection_name : string) : M unit :=
  match query_action with
  | PyNone => raise TypeError
  | delete_from_query => _delete_from_query key collection_name
  end.

(** [query_action(key)]: [None] is not callable, and [_delete_from_query]
    called with a key alone misses its argument [collection_name]. *)
Definition call1 (query_action : QueryAction) (key : PyVal) : M unit :=
  match query_action with
  | PyNone => raise TypeError
  | delete_from_query => raise TypeError
  end.

Definition Operators : Type := dict string (PyVal -> PyVal -> result bool).

Definition Match : Type := (PyVal * PyVal)%type.

(** [operators[query["operator"]](element, query["value"])]. *)
Definition apply_operator (operators : Operators) (query : Query)
  (element : PyVal) : result bool :=
  rbind (query_item query "operator") (fun name =>
  rbind (getitem String.eqb operators name) (fun op =>
  rbind (query_value query) (fun operand =>
  op element operand))).

(** One turn of the loop of [_execute_query_by_value]: the entry is appended
    before [query_action] is called, and [except: pass] ends the turn
    whatever was raised. *)
Definition by_value_step (query_action : QueryAction) (query : Query)
  (operators : Operators) (collection_name : string)
  (matches : list Match) (entry : Key * PyVal) : M (list Match) :=
  let '(key, value) := entry in
  fun db =>
    match apply_operator operators query value with
    | Ok true =>
        (Ok (matches ++ [(key_val key, value)]),
         snd (call2 query_action key collection_name db))
    | Ok false => (Ok matches, db)
    | Raise _ => (Ok matches, db)
    end.

Definition _execute_query_by_value (query_action : QueryAction)
  (query : Query) (operators : Operators) (collection_name : string)
  : M (list Match) :=
  c <- collections_getitem collection_name ;;
  for_each (items (copy c)) []
    (by_value_step query_action query operators collection_name).

(** [self.data]: no method of [Server] assigns an attribute [data]. *)
Definition self_data : result (dict PyVal PyVal) := Raise AttributeError.

Definition py_eqb (a b : PyVal) : bool :=
  match operator_eq a b with
  | Ok b => b
  | Raise _ => false
  end.

(** One turn of the loop of [_execute_query_by_key]. *)
Definition by_key_step (query_action : QueryAction) (query : Query)
  (operators : Operators)
  (matches : list Match) (entry : Key * PyVal) : M (list Match) :=
  let '(key, value) := entry in
  fun db =>
    match apply_operator operators query (key_val key) with
    | Ok true =>
        (Ok (matches ++ [(key_val key, value)]),
         snd (call1 query_action (key_val key) db))
    | Ok false => (Ok matches, db)
    | Raise _ => (Ok matches, db)
    end.

Definition _execute_query_by_key (query_action : QueryAction)
  (query : Query) (operators : Operators) (collection_name : string)
  : M (list Match) :=
  operator <- lift (query_item query "operator") ;;
  if String.eqb operator "=" then
    fun db =>
      match
        rbind (query_value query) (fun operand =>
        rbind self_data (fun data =>
        rbind (getitem py_eqb data operand) (fun v =>
        Ok (operand, v))))
      with
      | Ok (operand, v) =>
          (Ok [(operand, v)], snd (call1 query_action operand db))
      | Raise _ => (Ok [], db)
      end
  else
    c <- collections_getitem collection_name ;;
    for_each (items (copy c)) [] (by_key_step query_action query operators).

(** [matches[key].append(value)] on a [defaultdict(list)]. *)
Definition append_to (matches : dict Key (list PyVal)) (entry : Key * PyVal)
  : dict Key (list PyVal) :=
  let '(key, value) := entry in
  match getitem key_eqb matches key with
  | Ok l => setitem key_eqb matches key (l ++ [value])
  | Raise _ => setitem key_eqb matches key [value]
  end.

(** The three tables that [_query] builds before it dispatches. *)
Definition operators : Operators :=
  [(">", operator_gt); ("<", operator_lt); ("=", operator_eq);
   ("<=", operator_le); (">=", operator_ge);
   ("contains", operator_contains)].

Definition query_elements
  : dict string (QueryAction -> Query -> Operators -> string -> M (list Match)) :=
  [("key", _execute_query_by_key); ("value", _execute_query_by_value)].

Definition query_actions : dict string QueryAction :=
  [("read", PyNone); ("delete", delete_from_query)].

(** The [try] block of [_query]. *)
Definition _query_try (query : string) : M Response :=
  query <- lift (_parse_query_string query) ;;
  collection1 <- lift (query_item query "collection1") ;;
  e1 <- _collection_exists collection1 ;;
  if negb e1 then _send_error (collection1 ++ " does not exist.")
  else
    action <- lift (query_item query "action") ;;
    if String.eqb action "join" then
      collection2 <- lift (query_item query "collection2") ;;
      e2 <- _collection_exists collection2 ;;
      if negb e2 then _send_error (collection2 ++ " does not exist.")
      else
        c1 <- collections_getitem collection1 ;;
        c2 <- collections_getitem collection2 ;;
        let matches := fold_left append_to (items c1 ++ items c2) [] in
        ret (mkResponse true None (Some (Names [collection1; collection2]))
               (Some (Groups matches)))
    else
      query_action <- lift (getitem String.eqb query_actions action) ;;
      element <- lift (query_item query "element") ;;
      execute <- lift (getitem String.eqb query_elements element) ;;
      matches <- execute query_action query operators collection1 ;;
      ret (mkResponse true None (Some (Name collection1))
             (Some (Entries matches))).

Definition _query (query : string) : M Response :=
  try_except (_query_try query)
    (fun _ => _send_error "Invalid query syntax.").

(** *** The request loop *)

(** What [request_types.get(request.request_type, 6)] can return: one of the
    lambdas of the table, or the default, the integer 6. *)
Inductive Handler : Type :=
| Lambda (f : M Response)
| IntObj (z : Z).

(** [handler()]: an [int] is not callable. *)
Definition call (handler : Handler) : M Response :=
  match handler with
  | Lambda f => f
  | IntObj _ => raise TypeError
  end.

Definition dict_get {K V} (eqb : K -> K -> bool) (d : dict K V) (k : K)
  (default : V) : V :=
  match getitem eqb d k with
  | Ok v => v
  | Raise _ => default
  end.

(** The body of [_listen] for one decoded request: the response sent back,
    or the exception that leaves the loop. *)
Definition handle_request (request : Request) : M Response :=
  let request_types :=
    [(0, Lambda (_read (req_key request) (req_collection_name request)));
     (1, Lambda (_add (req_key request) (req_value request)
                   (req_collection_name request)));
     (2, Lambda (_delete (req_key request) (req_collection_name request)));
     (3, Lambda (_query (req_query request)));
     (4, Lambda (_create_collection (req_collection_name request)));
     (5, Lambda (_delete_collection (req_collection_name request)));
     (6, Lambda (_send_error "Request type does not exist."))]%Z in
  call (dict_get Z.eqb request_types (request_type request) (IntObj 6)).

End Server.
Import Server.

(* ================================================================= *)
(** ** Start-up and snapshots *)

Module Startup.

(** *** The configuration *)

(** The parser after [config.read('config.ini')], as [config.get(section,
    option)] answers: the text of the option, or [None] where [get] raises
    (no file or a file that cannot be parsed, no such section, no such
    option). *)
Definition ConfigParser : Type := string -> string -> option string.

(** The four attributes that [_read_config] sets. *)
Record Settings : Type := mkSettings {
  host : string;
  port : Z;
  collection_names : list string;
  snapshot_interval : Z
}.

(** [text.split(sep)] for a separator of one character: the pieces between
    the separators, one more than there are separators. *)
Fixpoint split_chars (sep : ascii) (cs : list ascii) : list (list ascii) :=
  match cs with
  | [] => [[]]
  | c :: cs' =>
      if Ascii.eqb c sep then [] :: split_chars sep cs'
      else
        match split_chars sep cs' with
        | w :: ws => (c :: w) :: ws
        | [] => [[c]]
        end
  end.

Definition split (text : string) (sep : ascii) : list string :=
  map string_of_list_ascii (split_chars sep (list_ascii_of_string text)).

(** One step of the [try] block: [None] once something has raised. *)
Definition attempt {A B} (x : option A) (k : A -> option B) : option B :=
  match x with
  | Some a => k a
  | None => None
  end.

(** [int(text)] inside the [try] block. *)
Definition int_of (text : string) : option Z :=
  match py_int text with
  | Ok (VInt z) => Some z
  | _ => None
  end.

Definition _read_config (config : ConfigParser) : Settings :=
  match
    attempt (config "database" "host") (fun host =>
    attempt (config "database" "port") (fun port_text =>
    attempt (int_of port_text) (fun port =>
    attempt (config "database" "collections") (fun collections_text =>
    attempt (config "snapshot" "interval") (fun interval_text =>
    attempt (int_of interval_text) (fun interval =>
    Some (mkSettings host port (split collections_text ",") interval)))))))
  with
  | Some settings => settings
  | None => mkSettings "127.0.0.1" 65535 [] 60
  end.

(** *** The files of the collections *)

(** An exception raised by the file system or by [pickle]: the name of its
    class, and whether it is an instance of [IOError] (the class [OSError],
    to which [FileNotFoundError], [PermissionError] and the like belong;
    [ValueError] and the errors of [pickle.loads] do not). *)
Record Exc : Type := mkExc {
  exc_class : string;
  is_IOError : bool
}.

Definition PermissionError : Exc := mkExc "PermissionError" true.

Inductive outcome (A : Type) : Type :=
| Done (a : A)
| Failed (e : Exc).
Arguments Done {A} a.
Arguments Failed {A} e.

(** What [pickle.loads] returns: a collection, or some other object. *)
Inductive Unpickled : Type :=
| Loaded (c : Collection)
| OtherObject.

(** The file system, as the two methods use it, on the states [Disk] it
    can be in.  Nothing is assumed of it here: which paths name the same
    file, which can be opened, what a file holds after a write that
    raised, all of it is in the three functions. *)
Record FileSystem (Disk : Type) : Type := mkFileSystem {
  (** [with open(path, 'rb') as handle: pickle.loads(handle.read())] *)
  load : Disk -> string -> outcome Unpickled;
  (** [with open(path, 'wb') as handle: pickle.dump(data, handle)], and the
      disk it leaves behind, also when it raises *)
  dump : Disk -> string -> Collection -> outcome unit * Disk;
  (** [os.makedirs(name, exist_ok=True)] *)
  makedirs : Disk -> string -> outcome unit * Disk
}.
Arguments load {Disk} f disk path.
Arguments dump {Disk} f disk path data.
Arguments makedirs {Disk} f disk name.

(** [f"Data/{collection_name}.pickle"]. *)
Definition path (collection_name : string) : string :=
  "Data/" ++ collection_name ++ ".pickle".

(** The loop of [_init_db]: [except IOError] gives the collection an empty
    dictionary, any other exception leaves the method. *)
Fixpoint init_loop {Disk} (fs : FileSystem Disk) (disk : Disk)
  (names : list string) (collections : dict string Unpickled)
  : outcome (dict string Unpickled) :=
  match names with
  | [] => Done collections
  | collection_name :: rest =>
      match load fs disk (path collection_name) with
      | Done object =>
          init_loop fs disk rest
            (setitem String.eqb collections collection_name object)
      | Failed e =>
          if is_IOError e then
            init_loop fs disk rest
              (setitem String.eqb collections collection_name (Loaded []))
          else Failed e
      end
  end.

(** [self.collections] after [_init_db], or the exception that leaves it. *)
Definition _init_db {Disk} (fs : FileSystem Disk) (disk : Disk)
  (collection_names : list string) : outcome (dict string Unpickled) :=
  init_loop fs disk collection_names [].

(** The loop of [_create_snapshot]: what a dump has written before an
    exception stays; whatever was raised is replaced by
    [PermissionError]. *)
Fixpoint snapshot_loop {Disk} (fs : FileSystem Disk)
  (entries : list (string * Collection)) (disk : Disk)
  : outcome unit * Disk :=
  match entries with
  | [] => (Done tt, disk)
  | (collection_name, collection_data) :: rest =>
      match dump fs disk (path collection_name) collection_data with
      | (Done _, disk') => snapshot_loop fs rest disk'
      | (Failed _, disk') => (Failed PermissionError, disk')
      end
  end.

Definition _create_snapshot {Disk} (fs : FileSystem Disk)
  (collections : Database) (disk : Disk) : outcome unit * Disk :=
  match makedirs fs disk "Data" with
  | (Done _, disk') => snapshot_loop fs (items (copy collections)) disk'
  | (Failed e, disk') => (Failed e, disk')
  end.

(** A file system in memory, for the examples: a path holds what loading
    it gives, a path it does not hold is a file that does not exist, and a
    path whose loading raises an [IOError] cannot be written either. *)
Definition memory : FileSystem (dict string (outcome Unpickled)) :=
  mkFileSystem
    (fun disk p =>
       match getitem String.eqb disk p with
       | Ok o => o
       | Raise _ => Failed (mkExc "FileNotFoundError" true)
       end)
    (fun disk p data =>
       match getitem String.eqb disk p with
       | Ok (Failed (mkExc name true)) => (Failed (mkExc name true), disk)
       | _ => (Done tt, setitem String.eqb disk p (Done (Loaded data)))
       end)
    (fun disk name => (Done tt, disk)).

End Startup.
Import Startup.

(* ================================================================= *)
(** ** Notions the theorems are stated with *)

(** [accepts e x r]: the text [x] is made of the tokens of [e] in order,
    each after optional whitespace, and [r] are the results.  This is what
    every match looks like; where a match is found depends moreover on
    what stands around the tokens, which [matches_at] below says. *)
Inductive accepts : ParserElement -> list ascii -> ParseResults -> Prop :=
| acc_Keyword m ws :
    forallb whiteChars ws = true ->
    accepts (Keyword m) (ws ++ list_ascii_of_string m) (token m)
| acc_Literal m ws :
    forallb whiteChars ws = true ->
    accepts (Literal m) (ws ++ list_ascii_of_string m) (token m)
| acc_Word chars ws w :
    forallb whiteChars ws = true ->
    w <> [] ->
    forallb chars w = true ->
    accepts (Word chars) (ws ++ w) (token (string_of_list_ascii w))
| acc_And a b x y r1 r2 :
    accepts a x r1 ->
    accepts b y r2 ->
    accepts (And a b) (x ++ y) (merge r1 r2)
| acc_First a b x r :
    accepts a x r ->
    accepts (MatchFirst a b) x r
| acc_Second a b x r :
    accepts b x r ->
    accepts (MatchFirst a b) x r
| acc_Named e name x r :
    accepts e x r ->
    accepts (Named e name) x (set_name name r).

(** The text [r] does not go on with a character of the class. *)
Definition stops (chars : ascii -> bool) (r : list ascii) : Prop :=
  match r with
  | [] => True
  | c :: _ => chars c = false
  end.






(** The answers to a sequence of requests, each served on the database the
    one before has left. *)
Fixpoint serve (requests : list Request) (db : Database)
  : list (result Response) * Database :=
  match requests with
  | [] => ([], db)
  | request :: rest =>
      let '(answer, db1) := handle_request request db in
      let '(answers, db2) := serve rest db1 in
      (answer :: answers, db2)
  end.

(** A dictionary holds each key once. *)
Definition unique_keys {K V} (d : dict K V) : Prop := NoDup (keys d).

Definition wf_db (db : Database) : Prop :=
  unique_keys db /\ Forall (fun e => unique_keys (snd e)) db.

Definition error_response (description : string) : Response :=
  mkResponse false (Some description) None None.

(** The test of a scan counts as passed only when it returns [True]. *)
Definition holds (r : result bool) : bool :=
  match r with
  | Ok b => b
  | Raise _ => false
  end.

Definition as_match (entry : Key * PyVal) : Match :=
  (key_val (fst entry), snd entry).

(** The values a join gathers for a key from the two collections. *)
Definition joined (a b : Collection) (k : Key) : result (list PyVal) :=
  match getitem key_eqb a k, getitem key_eqb b k with
  | Ok x, Ok y => Ok [x; y]
  | Ok x, Raise _ => Ok [x]
  | Raise _, Ok y => Ok [y]
  | Raise _, Raise _ => Raise KeyError
  end.

Definition read_or_delete : list string := ["read"; "delete"].
Definition key_or_value : list string := ["key"; "value"].
Definition operator_names : list string :=
  ["<="; ">="; "<"; ">"; "="; "contains"].

(** What [_parse_query_string] can return. *)
Inductive parsed : Query -> Prop :=
| parsed_join c1 c2 :
    parsed (mkQuery [("action", "join"); ("collection1", c1);
                     ("collection2", c2)] None)
| parsed_plain a e o v c :
    In a read_or_delete -> In e key_or_value -> In o operator_names ->
    parsed (mkQuery [("action", a); ("element", e); ("operator", o);
                     ("value", v); ("collection1", c)] None)
| parsed_cast a e o t v c cv :
    In a read_or_delete -> In e key_or_value -> In o operator_names ->
    _parse_value_to_type v t = Ok cv ->
    parsed (mkQuery [("action", a); ("element", e); ("operator", o);
                     ("value_type", t); ("value", v); ("collection1", c)]
              (Some cv)).

(** An [int], a [float] or a [complex]. *)
Definition number (v : PyVal) : Prop :=
  match v with
  | VStr _ => False
  | _ => True
  end.

(** The part of an entry that the query tests. *)
Definition scanned (query : Query) (entry : Key * PyVal) : PyVal :=
  match query_item query "element" with
  | Ok e => if String.eqb e "key" then key_val (fst entry) else snd entry
  | Raise _ => snd entry
  end.

Definition satisfies (query : Query) (entry : Key * PyVal) : bool :=
  holds (apply_operator operators query (scanned query entry)).

Definition values_of (k : Key) (l : list (Key * PyVal)) : list PyVal :=
  map snd (filter (fun e => key_eqb (fst e) k) l).

(** The [try] block of a query leaves the database as it was, unless it
    returns a success after the by-value executor has run. *)
Definition keeps_or_succeeds (db : Database)
  (out : result Response * Database) : Prop :=
  snd out = db
  \/ exists r,
       fst out = Ok r /\ success r = true
       /\ exists query_action query name,
            snd out =
            snd (_execute_query_by_value query_action query operators name db).

(** *** Proof steps *)

Ltac run :=
  unfold _send_error in *;
  unfold bind, lift, ret, raise, try_except, try_except_else,
    collections_getitem, collections_setitem in *;
  cbv beta iota in *.

Ltac invert_accepts :=
  repeat match goal with
  | H : accepts (And _ _) _ _ |- _ => inversion H; clear H; subst
  | H : accepts (MatchFirst _ _) _ _ |- _ => inversion H; clear H; subst
  | H : accepts (Named _ _) _ _ |- _ => inversion H; clear H; subst
  | H : accepts (Keyword _) _ _ |- _ => inversion H; clear H; subst
  | H : accepts (Literal _) _ _ |- _ => inversion H; clear H; subst
  | H : accepts (Word _) _ _ |- _ => inversion H; clear H; subst
  end.

(* ================================================================= *)
(** ** Dictionaries *)

Section DictFacts.
Variables K V : Type.
Variable eqb : K -> K -> bool.
Hypothesis eqb_spec : forall a b, reflect (a = b) (eqb a b).

Lemma eqb_refl_true k : eqb k k = true.
Proof. destruct (eqb_spec k k); congruence. Qed.

Lemma eqb_neq_false a b : a <> b -> eqb a b = false.
Proof. intros H. destruct (eqb_spec a b); congruence. Qed.

Lemma getitem_setitem_eq (d : dict K V) k v :
  getitem eqb (setitem eqb d k v) k = Ok v.
Proof.
  induction d as [|[k' v'] d IH]; simpl.
  - now rewrite eqb_refl_true.
  - destruct (eqb k' k) eqn:E; simpl; rewrite E; auto.
Qed.

Lemma getitem_setitem_neq (d : dict K V) k k' v :
  k <> k' -> getitem eqb (setitem eqb d k v) k' = getitem eqb d k'.
Proof.
  intros N. induction d as [|[k0 v0] d IH]; simpl.
  - now rewrite (eqb_neq_false N).
  - destruct (eqb_spec k0 k) as [->|N0]; simpl.
    + now rewrite (eqb_neq_false N).
    + now rewrite IH.
Qed.

Lemma getitem_raise (d : dict K V) k e :
  getitem eqb d k = Raise e -> e = KeyError /\ ~ In k (keys d).
Proof.
  induction d as [|[k' v'] d IH]; simpl.
  - intros [= <-]. auto.
  - destruct (eqb_spec k' k) as [->|N]; [discriminate|].
    intros H. destruct (IH H) as [-> NI]. split; [reflexivity|].
    intros [E|I]; auto.
Qed.

Lemma getitem_not_in (d : dict K V) k :
  ~ In k (keys d) -> getitem eqb d k = Raise KeyError.
Proof.
  induction d as [|[k' v'] d IH]; simpl; [reflexivity|].
  intros NI. destruct (eqb_spec k' k) as [->|N]; [tauto|].
  apply IH. tauto.
Qed.

Lemma getitem_in (d : dict K V) k v :
  getitem eqb d k = Ok v -> In (k, v) d.
Proof.
  induction d as [|[k' v'] d IH]; simpl; [discriminate|].
  destruct (eqb_spec k' k) as [->|N].
  - intros [= ->]. now left.
  - intros H. right. auto.
Qed.

Lemma in_getitem (d : dict K V) k v :
  unique_keys d -> In (k, v) d -> getitem eqb d k = Ok v.
Proof.
  unfold unique_keys, keys.
  induction d as [|[k' v'] d IH]; simpl; [tauto|].
  intros U [E|I].
  - injection E as -> ->. now rewrite eqb_refl_true.
  - inversion U as [|? ? NI U']; subst.
    destruct (eqb_spec k' k) as [->|N].
    + exfalso. apply NI. change k with (fst (k, v)). now apply in_map.
    + auto.
Qed.

Lemma keys_setitem_in (d : dict K V) k v :
  In k (keys d) -> keys (setitem eqb d k v) = keys d.
Proof.
  unfold keys. induction d as [|[k' v'] d IH]; simpl; [tauto|].
  intros I. destruct (eqb_spec k' k) as [->|N]; simpl; [reflexivity|].
  f_equal. apply IH. destruct I; congruence.
Qed.

Lemma keys_setitem_not_in (d : dict K V) k v :
  ~ In k (keys d) -> keys (setitem eqb d k v) = keys d ++ [k].
Proof.
  unfold keys. induction d as [|[k' v'] d IH]; simpl; [reflexivity|].
  intros NI. destruct (eqb_spec k' k) as [->|N]; simpl; [tauto|].
  f_equal. apply IH. tauto.
Qed.

Lemma unique_keys_setitem (d : dict K V) k v :
  unique_keys d -> unique_keys (setitem eqb d k v).
Proof.
  unfold unique_keys. intros U.
  destruct (in_dec (fun a b => reflect_dec _ _ (eqb_spec a b)) k (keys d))
    as [I|NI].
  - now rewrite keys_setitem_in.
  - rewrite keys_setitem_not_in by assumption.
    apply NoDup_app; [assumption | repeat constructor; tauto |].
    intros a Ia [<-|[]]. tauto.
Qed.

Lemma delitem_raise (d : dict K V) k e :
  delitem eqb d k = Raise e -> getitem eqb d k = Raise e.
Proof.
  induction d as [|[k' v'] d IH]; simpl.
  - now intros [= <-].
  - destruct (eqb k' k); [discriminate|].
    destruct (delitem eqb d k); simpl; [discriminate|].
    intros [= <-]. auto.
Qed.

Lemma getitem_delitem (d : dict K V) k v :
  getitem eqb d k = Ok v -> exists d', delitem eqb d k = Ok d'.
Proof.
  induction d as [|[k' v'] d IH]; simpl; [discriminate|].
  destruct (eqb k' k); [eauto|].
  intros H. destruct (IH H) as [d' ->]. simpl. eauto.
Qed.

Lemma keys_delitem (d d' : dict K V) k :
  delitem eqb d k = Ok d' ->
  forall k', In k' (keys d') -> In k' (keys d).
Proof.
  unfold keys. revert d'. induction d as [|[k0 v0] d IH]; simpl;
    [discriminate|].
  intros d'. destruct (eqb k0 k).
  - intros [= <-] k' I. now right.
  - destruct (delitem eqb d k) as [r|]; simpl; [|discriminate].
    intros [= <-] k' [E|I]; [now left | right; eauto].
Qed.

Lemma unique_keys_delitem (d d' : dict K V) k :
  delitem eqb d k = Ok d' -> unique_keys d -> unique_keys d'.
Proof.
  unfold unique_keys, keys. revert d'.
  induction d as [|[k0 v0] d IH]; simpl; [discriminate|].
  intros d'. destruct (eqb k0 k).
  - intros [= <-] U. now inversion U.
  - destruct (delitem eqb d k) as [r|] eqn:D; simpl; [|discriminate].
    intros [= <-] U. inversion U as [|? ? NI U']; subst. simpl.
    constructor; [|eauto].
    intros I. apply NI. eapply keys_delitem; eauto.
Qed.

Lemma getitem_delitem_eq (d d' : dict K V) k :
  delitem eqb d k = Ok d' -> unique_keys d ->
  getitem eqb d' k = Raise KeyError.
Proof.
  unfold unique_keys, keys. revert d'.
  induction d as [|[k0 v0] d IH]; simpl; [discriminate|].
  intros d'. destruct (eqb_spec k0 k) as [->|N].
  - intros [= <-] U. inversion U; subst. now apply getitem_not_in.
  - destruct (delitem eqb d k) as [r|] eqn:D; simpl; [|discriminate].
    intros [= <-] U. inversion U; subst. simpl.
    rewrite (eqb_neq_false N). auto.
Qed.

Lemma getitem_delitem_neq (d d' : dict K V) k k' :
  delitem eqb d k = Ok d' -> k <> k' ->
  getitem eqb d' k' = getitem eqb d k'.
Proof.
  revert d'. induction d as [|[k0 v0] d IH]; simpl; [discriminate|].
  intros d'. destruct (eqb_spec k0 k) as [->|N].
  - intros [= <-] N. now rewrite (eqb_neq_false N).
  - destruct (delitem eqb d k) as [r|] eqn:D; simpl; [|discriminate].
    intros [= <-] N'. simpl. destruct (eqb k0 k'); auto.
Qed.
End DictFacts.

Lemma key_eqb_spec a b : reflect (a = b) (key_eqb a b).
Proof.
  destruct a as [x|s], b as [y|t]; simpl; try (constructor; discriminate).
  - destruct (Z.eqb_spec x y); constructor; congruence.
  - destruct (String.eqb_spec s t); constructor; congruence.
Qed.

Lemma string_eqb_spec a b : reflect (a = b) (String.eqb a b).
Proof. apply String.eqb_spec. Qed.

Lemma key_val_inj a b : key_val a = key_val b -> a = b.
Proof. destruct a, b; simpl; congruence. Qed.

(* ================================================================= *)
(** ** The parser matches only the tokens of the grammar *)

Lemma skip_white_spec prev cs :
  exists ws,
    cs = ws ++ snd (skip_white prev cs) /\ forallb whiteChars ws = true.
Proof.
  revert prev. induction cs as [|c cs IH]; intros prev; simpl.
  - now exists [].
  - destruct (whiteChars c) eqn:W.
    + destruct (IH (Some c)) as (ws & E & F).
      exists (c :: ws). simpl. rewrite W, F. now rewrite <- E.
    + now exists [].
Qed.

Lemma starts_with_spec m cs r : starts_with m cs = Some r -> cs = m ++ r.
Proof.
  revert cs. induction m as [|a m IH]; intros [|c cs]; simpl;
    try congruence.
  destruct (Ascii.eqb_spec a c) as [->|]; [|discriminate].
  intros H. now rewrite (IH _ H).
Qed.

Lemma span_spec chars cs :
  cs = fst (span chars cs) ++ snd (span chars cs)
  /\ forallb chars (fst (span chars cs)) = true.
Proof.
  induction cs as [|c cs [E F]]; simpl; [auto|].
  destruct (chars c) eqn:C; [|auto].
  destruct (span chars cs) as [w r]; simpl in *.
  rewrite C, F. now rewrite <- E.
Qed.

Lemma accepts_white e ws x r :
  forallb whiteChars ws = true -> accepts e x r -> accepts e (ws ++ x) r.
Proof.
  intros W A. induction A.
  - rewrite app_assoc. constructor. rewrite forallb_app. now rewrite W.
  - rewrite app_assoc. constructor. rewrite forallb_app. now rewrite W.
  - rewrite app_assoc. constructor; auto. rewrite forallb_app. now rewrite W.
  - rewrite app_assoc. now constructor.
  - now apply acc_First.
  - now apply acc_Second.
  - now constructor.
Qed.

Lemma parse_sound e : forall prev cs r loc,
  parse e prev cs = Ok (r, loc) ->
  exists x, cs = x ++ snd loc /\ accepts e x r.
Proof.
  induction e as [m|m|chars|a IHa b IHb|a IHa b IHb|e IH name];
    intros prev cs r loc; simpl;
    destruct (skip_white_spec prev cs) as (ws & E & W);
    destruct (skip_white prev cs) as [p c]; simpl in E.
  - destruct (starts_with _ c) as [t|] eqn:S; [|discriminate].
    destruct (_ && _); [|discriminate].
    intros [= <- <-]. apply starts_with_spec in S. subst c.
    exists (ws ++ list_ascii_of_string m). simpl.
    split; [now rewrite <- app_assoc | now constructor].
  - destruct (starts_with _ c) as [t|] eqn:S; [|discriminate].
    intros [= <- <-]. apply starts_with_spec in S. subst c.
    exists (ws ++ list_ascii_of_string m). simpl.
    split; [now rewrite <- app_assoc | now constructor].
  - destruct (span_spec chars c) as [Ec F].
    destruct (span chars c) as [[|a w] t]; [discriminate|].
    intros [= <- <-]. simpl in Ec, F |- *.
    exists (ws ++ a :: w). split.
    + rewrite <- app_assoc. simpl. now rewrite <- Ec.
    + constructor; auto. discriminate.
  - destruct (parse a p c) as [[r1 [p1 c1]]|] eqn:Pa; [|discriminate].
    destruct (parse b p1 c1) as [[r2 loc2]|] eqn:Pb; [|discriminate].
    intros [= <- <-].
    destruct (IHa _ _ _ _ Pa) as (x & Ex & Ax).
    destruct (IHb _ _ _ _ Pb) as (y & Ey & Ay). simpl in Ex, Ey.
    exists (ws ++ x ++ y). split.
    + rewrite E, Ex, Ey. now rewrite <- !app_assoc.
    + apply accepts_white; [assumption | now constructor].
  - destruct (parse a p c) as [[r1 loc1]|] eqn:Pa.
    + intros [= <- <-]. destruct (IHa _ _ _ _ Pa) as (x & Ex & Ax).
      exists (ws ++ x). split.
      * rewrite E, Ex. now rewrite <- app_assoc.
      * apply accepts_white; [assumption | now apply acc_First].
    + intros Pb. destruct (IHb _ _ _ _ Pb) as (x & Ex & Ax).
      exists (ws ++ x). split.
      * rewrite E, Ex. now rewrite <- app_assoc.
      * apply accepts_white; [assumption | now apply acc_Second].
  - destruct (parse e p c) as [[r1 loc1]|] eqn:Pe; [|discriminate].
    intros [= <- <-]. destruct (IH _ _ _ _ Pe) as (x & Ex & Ax).
    exists (ws ++ x). split.
    + rewrite E, Ex. now rewrite <- app_assoc.
    + apply accepts_white; [assumption | now constructor].
Qed.

(* ================================================================= *)
(** ** The two executors *)

Lemma call1_keeps_db query_action key db :
  call1 query_action key db = (Raise TypeError, db).
Proof. now destruct query_action. Qed.

Lemma by_key_scan query_action query ops entries : forall acc db,
  for_each entries acc (by_key_step query_action query ops) db =
  (Ok (acc ++ map as_match
         (filter (fun e => holds (apply_operator ops query (key_val (fst e))))
            entries)),
   db).
Proof.
  induction entries as [|[k v] entries IH]; intros acc db; simpl.
  - run. now rewrite app_nil_r.
  - unfold bind at 1. unfold by_key_step at 1.
    destruct (apply_operator ops query (key_val k)) as [[|]|]; simpl.
    + rewrite call1_keeps_db. simpl. rewrite IH.
      now rewrite <- app_assoc.
    + apply IH.
    + apply IH.
Qed.

Lemma by_value_step_run query_action query ops name acc k v db :
  by_value_step query_action query ops name acc (k, v) db =
  if holds (apply_operator ops query v)
  then (Ok (acc ++ [as_match (k, v)]), snd (call2 query_action k name db))
  else (Ok acc, db).
Proof.
  unfold by_value_step.
  now destruct (apply_operator ops query v) as [[|]|].
Qed.

Lemma by_value_scan query_action query ops name entries : forall acc db,
  exists db',
    for_each entries acc (by_value_step query_action query ops name) db =
    (Ok (acc ++ map as_match
           (filter (fun e => holds (apply_operator ops query (snd e)))
              entries)),
     db').
Proof.
  induction entries as [|[k v] entries IH]; intros acc db; cbn [for_each].
  - exists db. run. simpl. now rewrite app_nil_r.
  - unfold bind. rewrite by_value_step_run. cbn [filter map snd].
    destruct (holds (apply_operator ops query v)).
    + destruct (IH (acc ++ [as_match (k, v)])
                  (snd (call2 query_action k name db))) as (db' & ->).
      exists db'. cbn [map]. now rewrite <- app_assoc.
    + apply IH.
Qed.

(** A query by key leaves the database as it found it. *)
Lemma execute_query_by_key_keeps_db query_action query ops name db :
  snd (_execute_query_by_key query_action query ops name db) = db.
Proof.
  unfold _execute_query_by_key. run.
  destruct (query_item query "operator") as [o|]; [|reflexivity].
  destruct (String.eqb o "=").
  - destruct (query_value query); reflexivity.
  - destruct (getitem String.eqb db name) as [c|]; [|reflexivity].
    unfold items, copy. now rewrite by_key_scan.
Qed.

Lemma execute_query_by_key_scan query_action query ops name db o entries :
  query_item query "operator" = Ok o ->
  String.eqb o "=" = false ->
  getitem String.eqb db name = Ok entries ->
  _execute_query_by_key query_action query ops name db =
  (Ok (map as_match
         (filter (fun e => holds (apply_operator ops query (key_val (fst e))))
            entries)),
   db).
Proof.
  intros O N G. unfold _execute_query_by_key. run.
  rewrite O, N, G. unfold items, copy. now rewrite by_key_scan.
Qed.

(** The operator [=] on keys reads [self.data] and finds nothing. *)
Lemma execute_query_by_key_eq query_action query ops name db :
  query_item query "operator" = Ok "=" ->
  _execute_query_by_key query_action query ops name db = (Ok [], db).
Proof.
  intros O. unfold _execute_query_by_key. run. rewrite O. simpl.
  destruct (query_value query); reflexivity.
Qed.

Lemma execute_query_by_value_scan query_action query ops name db entries :
  getitem String.eqb db name = Ok entries ->
  exists db',
    _execute_query_by_value query_action query ops name db =
    (Ok (map as_match
           (filter (fun e => holds (apply_operator ops query (snd e)))
              entries)),
     db').
Proof.
  intros G. unfold _execute_query_by_value. run. rewrite G.
  unfold items, copy.
  destruct (by_value_scan query_action query ops name entries [] db)
    as (db' & E).
  exists db'. exact E.
Qed.

Lemma execute_query_by_value_missing query_action query ops name db e :
  getitem String.eqb db name = Raise e ->
  _execute_query_by_value query_action query ops name db = (Raise e, db).
Proof.
  intros G. unfold _execute_query_by_value. run. now rewrite G.
Qed.

(* ================================================================= *)
(** ** The store operations, in closed form *)

Lemma collection_exists_run name db :
  _collection_exists name db = (Ok (has_key String.eqb db name), db).
Proof.
  unfold _collection_exists, has_key. run.
  destruct (getitem String.eqb db name); reflexivity.
Qed.

Lemma read_run k name db :
  _read (Hashable k) name db =
  (match getitem String.eqb db name with
   | Ok c =>
       match getitem key_eqb c k with
       | Ok v => Ok (mkResponse true None (Some (Name name))
                       (Some (Entries [(key_val k, v)])))
       | Raise _ => Ok (error_response "Entry does not exist.")
       end
   | Raise _ => Ok (error_response "Collection does not exist.")
   end, db).
Proof.
  unfold _read, bind at 1. rewrite collection_exists_run. unfold has_key.
  destruct (getitem String.eqb db name) as [c|] eqn:G; [|reflexivity].
  run. rewrite G. cbn [hash]. destruct (getitem key_eqb c k); reflexivity.
Qed.

Lemma read_keeps_db key name db : snd (_read key name db) = db.
Proof.
  destruct key as [k|]; [now rewrite read_run|].
  unfold _read, bind at 1. rewrite collection_exists_run. unfold has_key.
  destruct (getitem String.eqb db name) as [c|] eqn:G; [|reflexivity].
  run. now rewrite G.
Qed.

Lemma add_run k value name db :
  _add (Hashable k) value name db =
  match getitem String.eqb db name with
  | Ok c =>
      (Ok (mkResponse true None (Some (Name name))
             (Some (Entries [(key_val k, value)]))),
       setitem String.eqb db name (setitem key_eqb c k value))
  | Raise _ => (Ok (error_response "Collection does not exist."), db)
  end.
Proof.
  unfold _add, bind at 1. rewrite collection_exists_run. unfold has_key.
  destruct (getitem String.eqb db name) as [c|] eqn:G; [|reflexivity].
  unfold entry_setitem. run. rewrite G. cbn [hash].
  rewrite (getitem_setitem_eq _ string_eqb_spec).
  now rewrite (getitem_setitem_eq _ key_eqb_spec).
Qed.

(** A key that cannot be hashed is refused before anything is stored. *)
Lemma add_unhashable value name db :
  _add Unhashable value name db =
  (Ok (error_response
         (if has_key String.eqb db name then "Entry could not be added."
          else "Collection does not exist.")), db).
Proof.
  unfold _add, bind at 1. rewrite collection_exists_run. unfold has_key.
  destruct (getitem String.eqb db name) as [c|] eqn:G; [|reflexivity].
  unfold entry_setitem. run. now rewrite G.
Qed.

Lemma delete_run k name db :
  _delete (Hashable k) name db =
  match getitem String.eqb db name with
  | Ok c =>
      match delitem key_eqb c k with
      | Ok c' =>
          (Ok (mkResponse true None (Some (Name name)) None),
           setitem String.eqb db name c')
      | Raise _ => (Ok (error_response "Entry could not be deleted."), db)
      end
  | Raise _ => (Ok (error_response "Collection does not exist."), db)
  end.
Proof.
  unfold _delete, bind at 1. rewrite collection_exists_run. unfold has_key.
  destruct (getitem String.eqb db name) as [c|] eqn:G; [|reflexivity].
  unfold entry_delitem. run. rewrite G. cbn [hash].
  destruct (delitem key_eqb c k); reflexivity.
Qed.

Lemma delete_unhashable name db :
  _delete Unhashable name db =
  (Ok (error_response
         (if has_key String.eqb db name then "Entry could not be deleted."
          else "Collection does not exist.")), db).
Proof.
  unfold _delete, bind at 1. rewrite collection_exists_run. unfold has_key.
  destruct (getitem String.eqb db name) as [c|] eqn:G; [|reflexivity].
  unfold entry_delitem. run. now rewrite G.
Qed.

Lemma create_collection_run name db :
  _create_collection name db =
  if isalpha name then
    match getitem String.eqb db name with
    | Ok _ => (Ok (error_response "Collection already exists."), db)
    | Raise _ =>
        (Ok (mkResponse true None (Some (Name name)) None),
         setitem String.eqb db name [])
    end
  else (Ok (error_response "Invalid collection name."), db).
Proof.
  unfold _create_collection. destruct (isalpha name); [|reflexivity].
  run. now destruct (getitem String.eqb db name).
Qed.

Lemma delete_collection_run name db :
  _delete_collection name db =
  match delitem String.eqb db name with
  | Ok db' => (Ok (mkResponse true None None None), db')
  | Raise _ => (Ok (error_response "Collection does not exist."), db)
  end.
Proof.
  unfold _delete_collection, collections_delitem. run.
  destruct (delitem String.eqb db name) as [db'|e] eqn:D; [reflexivity|].
  apply delitem_raise in D.
  now destruct (getitem_raise _ string_eqb_spec _ _ D) as [-> _].
Qed.

(* ================================================================= *)
(** ** The query operation *)

Lemma query_try_cases q db : keeps_or_succeeds db (_query_try q db).
Proof.
  assert (L : forall out, snd out = db -> keeps_or_succeeds db out)
    by (intros out H; now left).
  unfold _query_try. unfold bind at 1, lift at 1.
  destruct (_parse_query_string q) as [query|e]; [|now apply L].
  unfold bind at 1, lift at 1.
  destruct (query_item query "collection1") as [c1|e]; [|now apply L].
  unfold bind at 1. rewrite collection_exists_run.
  destruct (has_key String.eqb db c1); cbn [negb]; [|now apply L].
  unfold bind at 1, lift at 1.
  destruct (query_item query "action") as [action|e]; [|now apply L].
  destruct (String.eqb action "join").
  - unfold bind at 1, lift at 1.
    destruct (query_item query "collection2") as [c2|e]; [|now apply L].
    unfold bind at 1. rewrite collection_exists_run.
    destruct (has_key String.eqb db c2); cbn [negb]; [|now apply L].
    run. apply L.
    destruct (getitem String.eqb db c1); [|reflexivity].
    destruct (getitem String.eqb db c2); reflexivity.
  - unfold bind at 1, lift at 1.
    destruct (getitem String.eqb query_actions action) as [qa|e];
      [|now apply L].
    unfold bind at 1, lift at 1.
    destruct (query_item query "element") as [element|e]; [|now apply L].
    unfold bind at 1, lift at 1. cbn [getitem query_elements].
    destruct (String.eqb "key" element).
    + unfold bind, ret. apply L.
      pose proof (execute_query_by_key_keeps_db qa query operators c1 db) as K.
      destruct (_execute_query_by_key qa query operators c1 db) as [[ms|e] db'];
        exact K.
    + destruct (String.eqb "value" element); [|now apply L].
      unfold bind, ret.
      destruct (getitem String.eqb db c1) as [entries|e] eqn:G.
      * destruct (execute_query_by_value_scan qa query operators _ _ G)
          as (db' & E).
        rewrite E. right. eexists. split; [reflexivity|].
        split; [reflexivity|]. exists qa, query, c1. now rewrite E.
      * rewrite (execute_query_by_value_missing _ _ _ _ _ G). now apply L.
Qed.

Lemma query_run q db :
  _query q db =
  match _query_try q db with
  | (Ok r, db') => (Ok r, db')
  | (Raise _, db') => (Ok (error_response "Invalid query syntax."), db')
  end.
Proof. reflexivity. Qed.

(* ================================================================= *)
(** ** Claims about the store *)

(** C7.  In an existing collection, [put] of a key and a value followed by
    [get] of the key returns exactly that pair; [remove] of an existing entry
    followed by [get] fails with the entry-not-found response. *)
Theorem put_get_and_remove_get (db : Database) name (c : Collection)
  key value :
  getitem String.eqb db name = Ok c ->
  unique_keys c ->
  (let db1 := snd (_add (Hashable key) value name db) in
   _read (Hashable key) name db1 =
   (Ok (mkResponse true None (Some (Name name))
          (Some (Entries [(key_val key, value)]))), db1))
  /\
  (forall v0, getitem key_eqb c key = Ok v0 ->
   let db2 := snd (_delete (Hashable key) name db) in
   fst (_delete (Hashable key) name db) =
     Ok (mkResponse true None (Some (Name name)) None)
   /\ _read (Hashable key) name db2 =
      (Ok (error_response "Entry does not exist."), db2)).
Proof.
  intros G U. split.
  - rewrite add_run, G. cbn [snd]. rewrite read_run.
    rewrite (getitem_setitem_eq _ string_eqb_spec).
    now rewrite (getitem_setitem_eq _ key_eqb_spec).
  - intros v0 Gk. rewrite delete_run, G.
    destruct (getitem_delitem _ _ _ Gk) as (c' & D). rewrite D. cbn [fst snd].
    split; [reflexivity|].
    rewrite read_run, (getitem_setitem_eq _ string_eqb_spec).
    now rewrite (getitem_delitem_eq _ key_eqb_spec _ D U).
Qed.

Lemma put_get_and_remove_get_witness :
  let db : Database :=
    [("firstName", [(KInt 1, VStr "Radu"); (KInt 2, VStr "John")])] in
  _read (Hashable (KInt 2)) "firstName"
    (snd (_add (Hashable (KInt 2)) (VStr "Jane") "firstName" db))
  = (Ok (mkResponse true None (Some (Name "firstName"))
           (Some (Entries [(VInt 2, VStr "Jane")]))),
     [("firstName", [(KInt 1, VStr "Radu"); (KInt 2, VStr "Jane")])])
  /\ _read (Hashable (KInt 2)) "firstName"
       (snd (_delete (Hashable (KInt 2)) "firstName" db))
     = (Ok (error_response "Entry does not exist."),
        [("firstName", [(KInt 1, VStr "Radu")])]).
Proof.
  intros db.
  pose (c := [(KInt 1, VStr "Radu"); (KInt 2, VStr "John")] : Collection).
  assert (G : getitem String.eqb db "firstName" = Ok c) by reflexivity.
  assert (U : unique_keys c).
  { unfold unique_keys. simpl.
    repeat constructor; simpl; intuition discriminate. }
  destruct (@put_get_and_remove_get db "firstName" c (KInt 2) (VStr "Jane")
              G U) as [P R].
  split.
  - exact P.
  - exact (proj2 (R (VStr "John") eq_refl)).
Defined.

(** C10.  Whenever a request is answered by a failure response, the database
    is exactly the one the request found. *)
Theorem failure_leaves_database_unchanged request (db : Database)
  response db' :
  handle_request request db = (Ok response, db') ->
  success response = false ->
  db' = db.
Proof.
  unfold handle_request, dict_get. cbn [getitem].
  repeat match goal with
  | |- context [Z.eqb ?a ?b] => destruct (Z.eqb a b)
  end; cbn [call].
  - intros H _. rewrite <- (read_keeps_db (req_key request)
                              (req_collection_name request) db).
    now rewrite H.
  - destruct (req_key request) as [k|].
    + rewrite add_run.
      destruct (getitem String.eqb db _); intros [= <- <-];
        [discriminate|auto].
    + rewrite add_unhashable. now intros [= _ <-].
  - destruct (req_key request) as [k|].
    + rewrite delete_run.
      destruct (getitem String.eqb db _) as [c|];
        [destruct (delitem key_eqb c _)|]; intros [= <- <-];
        [discriminate|auto|auto].
    + rewrite delete_unhashable. now intros [= _ <-].
  - rewrite query_run.
    destruct (query_try_cases (req_query request) db) as [K|(r & F & S & _)];
      destruct (_query_try (req_query request) db) as [[r0|e] db0];
      cbn [fst snd] in *.
    + now intros [= _ <-].
    + now intros [= _ <-].
    + injection F as <-. intros [= <- <-]. congruence.
    + discriminate.
  - rewrite create_collection_run.
    destruct (isalpha _); [destruct (getitem String.eqb db _)|];
      intros [= <- <-]; [auto|discriminate|auto].
  - rewrite delete_collection_run.
    destruct (delitem String.eqb db _); intros [= <- <-]; [discriminate|auto].
  - now intros [= _ <-].
  - discriminate.
Qed.

Lemma failure_leaves_database_unchanged_witness :
  let db : Database := [("age", [(KInt 2, VInt 25); (KInt 1, VInt 20)])] in
  let request :=
    mkRequest 3 "" (Hashable (KInt 0)) (VInt 0) "delete value >= int ( 20 from age" in
  fst (handle_request request db)
  = Ok (error_response "Invalid query syntax.")
  /\ snd (handle_request request db) = db.
Proof.
  intros db request. split; [reflexivity|].
  apply failure_leaves_database_unchanged
    with (request := request)
         (response := error_response "Invalid query syntax.");
    reflexivity.
Defined.

(** C4.  A request whose type is none of the keys 0 to 6 of the dispatch
    table is not answered: the default of the table lookup is the integer 6,
    not the entry stored under 6, and calling it raises [TypeError] out of
    the request loop. *)
Theorem unknown_request_type_raises request (db : Database) :
  (request_type request < 0 \/ 6 < request_type request)%Z ->
  handle_request request db = (Raise TypeError, db).
Proof.
  intros H. unfold handle_request, dict_get. cbn [getitem].
  repeat match goal with
  | |- context [Z.eqb ?a ?b] => destruct (Z.eqb_spec a b); [lia|]
  end.
  reflexivity.
Qed.

Lemma unknown_request_type_raises_witness :
  handle_request (mkRequest 7 "cars" (Hashable (KInt 1)) (VStr "a") "") []
  = (Raise TypeError, []).
Proof. apply unknown_request_type_raises. right. simpl. lia. Defined.

(** Only the type 6 itself reaches the entry that answers with the error. *)
Lemma request_type_six request (db : Database) :
  request_type request = 6%Z ->
  handle_request request db =
  (Ok (error_response "Request type does not exist."), db).
Proof. intros H. unfold handle_request, dict_get. now rewrite H. Qed.

(* ================================================================= *)
(** ** Claims about the query operation *)

Lemma query_parse_error q (db : Database) e :
  _parse_query_string q = Raise e ->
  _query q db = (Ok (error_response "Invalid query syntax."), db).
Proof.
  intros P. unfold _query, _query_try. run. now rewrite P.
Qed.

Lemma query_returns q (db : Database) :
  exists response db', _query q db = (Ok response, db').
Proof.
  rewrite query_run.
  destruct (_query_try q db) as [[r|e] db']; eauto.
Qed.


(** C1.  A delete by key reports the matching entries and removes none of
    them: [query_action(key)] lacks the collection name, and the [TypeError]
    is swallowed after the entry has been appended. *)
Theorem delete_by_key_removes_nothing :
  let db : Database :=
    [("cars", [(KInt 1000, VStr "a"); (KInt 2000, VStr "b");
               (KInt 1234, VStr "c")])] in
  _query "delete key > int ( 1234 ) from cars" db =
  (Ok (mkResponse true None (Some (Name "cars"))
         (Some (Entries [(VInt 2000, VStr "b")]))), db).
Proof. reflexivity. Qed.

(** The by-value executor, given the same query on values, does delete. *)
Example delete_by_value_removes :
  let db : Database := [("age", [(KInt 2, VInt 25); (KInt 1, VInt 20)])] in
  _query "delete value > int ( 20 ) from age" db =
  (Ok (mkResponse true None (Some (Name "age"))
         (Some (Entries [(VInt 2, VInt 25)]))),
   [("age", [(KInt 1, VInt 20)])]).
Proof. reflexivity. Qed.

(** C2.  A query by key with the operator [=] never finds the entry: the
    lookup goes to [self.data], which the server does not have. *)
Theorem key_equality_finds_nothing :
  let db : Database :=
    [("cars", [(KInt 1000, VStr "a"); (KInt 2000, VStr "b");
               (KInt 1234, VStr "c")])] in
  _query "read key = int ( 1000 ) from cars" db =
    (Ok (mkResponse true None (Some (Name "cars")) (Some (Entries []))), db)
  /\ _query "delete key = int ( 1000 ) from cars" db =
    (Ok (mkResponse true None (Some (Name "cars")) (Some (Entries []))), db).
Proof. split; reflexivity. Qed.

(** C3, as stated, fails: the untyped literal [1234] is a text, comparing
    an integer key with it raises, and no entry matches. *)
Lemma untyped_literal_on_integer_keys :
  let db : Database :=
    [("cars", [(KInt 1000, VStr "a"); (KInt 2000, VStr "b");
               (KInt 1234, VStr "c")])] in
  _query "read key > 1234 from cars" db =
    (Ok (mkResponse true None (Some (Name "cars")) (Some (Entries []))), db)
  /\ fst (_query "read key > 1234 from cars" db) <>
     Ok (mkResponse true None (Some (Name "cars"))
           (Some (Entries [(VInt 2000, VStr "b")]))).
Proof. split; [reflexivity | discriminate]. Qed.

(** C3, as the code has it.  With the literal cast to an integer the query
    returns [(2000, "b")]; the untyped query returns the corresponding entry
    when the keys are the texts "1000", "2000" and "1234". *)
Theorem read_key_greater_than_1234 :
  let cars : Collection :=
    [(KInt 1000, VStr "a"); (KInt 2000, VStr "b"); (KInt 1234, VStr "c")] in
  let texts : Collection :=
    [(KStr "1000", VStr "a"); (KStr "2000", VStr "b");
     (KStr "1234", VStr "c")] in
  fst (_query "read key > int ( 1234 ) from cars" [("cars", cars)]) =
    Ok (mkResponse true None (Some (Name "cars"))
          (Some (Entries [(VInt 2000, VStr "b")])))
  /\ fst (_query "read key > 1234 from cars" [("cars", texts)]) =
    Ok (mkResponse true None (Some (Name "cars"))
          (Some (Entries [(VStr "2000", VStr "b")]))).
Proof. split; reflexivity. Qed.

(* ================================================================= *)
(** ** The shape of a parsed query *)

Lemma parse_query_string_parsed q query :
  _parse_query_string q = Ok query -> parsed query.
Proof.
  unfold _parse_query_string, parseString.
  destruct (parse SYNTAX None (list_ascii_of_string q)) as [[r loc]|] eqn:P;
    [|discriminate].
  apply parse_sound in P. destruct P as (x & _ & A).
  unfold SYNTAX, SYNTAX_JOIN, SYNTAX_QUERY, ACTION_QUERY, ELEMENT, OPERATOR,
    VALUE in A.
  invert_accepts; cbn -[_parse_value_to_type];
    try (intros [= <-]; constructor; simpl; tauto);
    match goal with
    | |- context [_parse_value_to_type ?v ?t] =>
        destruct (_parse_value_to_type v t) eqn:C; cbn [rbind];
          [intros [= <-]; constructor; simpl; tauto | discriminate]
    end.
Qed.

(* ================================================================= *)
(** ** Scans *)

Lemma scan_query_run q query name (entries : Collection) (db : Database)
  a e o :
  _parse_query_string q = Ok query ->
  query_item query "collection1" = Ok name ->
  getitem String.eqb db name = Ok entries ->
  query_item query "action" = Ok a -> In a read_or_delete ->
  query_item query "element" = Ok e -> In e key_or_value ->
  query_item query "operator" = Ok o ->
  (e = "key" -> o <> "=") ->
  fst (_query q db) =
  Ok (mkResponse true None (Some (Name name))
        (Some (Entries (map as_match (filter (satisfies query) entries))))).
Proof.
  intros P C G A Ia E Ie O N.
  rewrite query_run. unfold _query_try.
  unfold bind at 1, lift at 1. rewrite P.
  unfold bind at 1, lift at 1. rewrite C.
  unfold bind at 1. rewrite collection_exists_run. unfold has_key.
  rewrite G. cbn [negb].
  unfold bind at 1, lift at 1. rewrite A.
  assert (J : String.eqb a "join" = false)
    by (destruct Ia as [<-|[<-|[]]]; reflexivity).
  rewrite J.
  unfold bind at 1, lift at 1.
  assert (exists qa, getitem String.eqb query_actions a = Ok qa) as (qa & Q)
    by (destruct Ia as [<-|[<-|[]]]; simpl; eauto).
  rewrite Q.
  unfold bind at 1, lift at 1. rewrite E.
  unfold bind at 1, lift at 1.
  assert (S : forall entry,
             satisfies query entry =
             holds (apply_operator operators query
                      (if String.eqb e "key" then key_val (fst entry)
                       else snd entry)))
    by (intros entry; unfold satisfies, scanned; now rewrite E).
  destruct Ie as [<-|[<-|[]]]; cbn [getitem query_elements String.eqb
    Ascii.eqb Bool.eqb andb]; unfold bind, ret.
  - rewrite (@execute_query_by_key_scan qa query operators name db o entries)
      by (auto; apply String.eqb_neq; auto).
    cbn [fst].
    rewrite (@filter_ext _ (satisfies query)
               (fun e => holds (apply_operator operators query
                                  (key_val (fst e)))));
      [reflexivity | intros entry; now rewrite S].
  - destruct (execute_query_by_value_scan qa query operators _ _ G)
      as (db' & ->).
    cbn [fst].
    rewrite (@filter_ext _ (satisfies query)
               (fun e => holds (apply_operator operators query (snd e))));
      [reflexivity | intros entry; now rewrite S].
Qed.

(** C8.  In a scan (a read or a delete, by key with an operator other than
    [=], or by value), an entry on which the operator raises is left out of
    the result, the other entries are still tested, and the query
    succeeds. *)
Theorem scan_skips_entries_that_raise q query name (entries : Collection)
  (db : Database) :
  _parse_query_string q = Ok query ->
  query_item query "action" <> Ok "join" ->
  query_item query "collection1" = Ok name ->
  getitem String.eqb db name = Ok entries ->
  ~ (query_item query "element" = Ok "key"
     /\ query_item query "operator" = Ok "=") ->
  let matches := map as_match (filter (satisfies query) entries) in
  fst (_query q db) =
    Ok (mkResponse true None (Some (Name name)) (Some (Entries matches)))
  /\ forall entry e,
       In entry entries ->
       apply_operator operators query (scanned query entry) = Raise e ->
       ~ In (as_match entry) matches.
Proof.
  intros P J C G N matches. split.
  - pose proof (parse_query_string_parsed _ P) as S.
    destruct S as [c1 c2|a e o v c Ia Ie Io|a e o t v c cv Ia Ie Io Cv].
    + now destruct J.
    + apply scan_query_run with (a := a) (e := e) (o := o); auto.
      intros -> ->. apply N. split; reflexivity.
    + apply scan_query_run with (a := a) (e := e) (o := o); auto.
      intros -> ->. apply N. split; reflexivity.
  - intros entry e I R M. unfold matches in M.
    apply in_map_iff in M. destruct M as (entry' & Eq & F).
    apply filter_In in F. destruct F as [_ S].
    assert (entry' = entry) as ->.
    { destruct entry, entry'. unfold as_match in Eq. simpl in Eq.
      injection Eq as Ek ->. now rewrite (key_val_inj _ _ Ek). }
    unfold satisfies in S. rewrite R in S. discriminate.
Qed.

Lemma scan_skips_entries_that_raise_witness :
  let db : Database :=
    [("mixed", [(KInt 5, VInt 30); (KStr "x", VStr "old");
                (KInt 7, VComplex (S754_zero false) (S754_zero false));
                (KInt 9, VInt 10)])] in
  operator_lt (VStr "old") (VInt 20) = Raise TypeError
  /\ fst (_query "read value < int ( 20 ) from mixed" db) =
     Ok (mkResponse true None (Some (Name "mixed"))
           (Some (Entries [(VInt 9, VInt 10)]))).
Proof.
  intros db. split; [reflexivity|].
  pose (query := mkQuery
          [("action", "read"); ("element", "value"); ("operator", "<");
           ("value_type", "int"); ("value", "20"); ("collection1", "mixed")]
          (Some (VInt 20))).
  refine (proj1 (@scan_skips_entries_that_raise
           "read value < int ( 20 ) from mixed" query "mixed"
           [(KInt 5, VInt 30); (KStr "x", VStr "old");
            (KInt 7, VComplex (S754_zero false) (S754_zero false));
            (KInt 9, VInt 10)] db eq_refl _ eq_refl eq_refl _)).
  - discriminate.
  - intros [E _]. discriminate E.
Defined.

(* ================================================================= *)
(** ** Join *)

Lemma getitem_append_to (m : dict Key (list PyVal)) k0 v0 k :
  getitem key_eqb (append_to m (k0, v0)) k =
  if key_eqb k0 k then
    match getitem key_eqb m k with
    | Ok vs => Ok (vs ++ [v0])
    | Raise _ => Ok [v0]
    end
  else getitem key_eqb m k.
Proof.
  unfold append_to. destruct (key_eqb_spec k0 k) as [->|N].
  - destruct (getitem key_eqb m k);
      now rewrite (getitem_setitem_eq _ key_eqb_spec).
  - destruct (getitem key_eqb m k0);
      now rewrite (getitem_setitem_neq _ key_eqb_spec _ _ N).
Qed.

Lemma getitem_fold_append_to l : forall (m : dict Key (list PyVal)) k,
  getitem key_eqb (fold_left append_to l m) k =
  match getitem key_eqb m k with
  | Ok vs => Ok (vs ++ values_of k l)
  | Raise _ =>
      match values_of k l with
      | [] => Raise KeyError
      | vs => Ok vs
      end
  end.
Proof.
  induction l as [|[k0 v0] l IH]; intros m k; cbn [fold_left].
  - unfold values_of. simpl.
    destruct (getitem key_eqb m k) as [vs|e] eqn:G.
    + now rewrite app_nil_r.
    + now destruct (getitem_raise _ key_eqb_spec _ _ G) as [-> _].
  - rewrite IH, getitem_append_to. unfold values_of. cbn [filter fst].
    destruct (key_eqb k0 k); cbn [map snd].
    + destruct (getitem key_eqb m k); [now rewrite <- app_assoc | reflexivity].
    + reflexivity.
Qed.

Lemma values_of_absent k (d : Collection) :
  ~ In k (keys d) -> values_of k d = [].
Proof.
  unfold values_of, keys. induction d as [|[k0 v0] d IH]; simpl; [auto|].
  intros NI. destruct (key_eqb_spec k0 k) as [->|N]; [tauto|].
  apply IH. tauto.
Qed.

Lemma values_of_unique k (d : Collection) :
  unique_keys d ->
  values_of k d =
  match getitem key_eqb d k with
  | Ok v => [v]
  | Raise _ => []
  end.
Proof.
  unfold unique_keys, keys. induction d as [|[k0 v0] d IH]; [reflexivity|].
  intros U. inversion U as [|? ? NI U']; subst.
  cbn [getitem]. unfold values_of. cbn [filter fst].
  destruct (key_eqb_spec k0 k) as [->|N].
  - cbn [map snd]. f_equal. now apply values_of_absent.
  - now apply IH.
Qed.

Lemma values_of_app k l1 l2 :
  values_of k (l1 ++ l2) = values_of k l1 ++ values_of k l2.
Proof. unfold values_of. now rewrite filter_app, map_app. Qed.

Lemma unique_keys_append_to (m : dict Key (list PyVal)) entry :
  unique_keys m -> unique_keys (append_to m entry).
Proof.
  destruct entry as [k v]. unfold append_to. intros U.
  destruct (getitem key_eqb m k);
    now apply (unique_keys_setitem _ key_eqb_spec).
Qed.

Lemma unique_keys_fold_append_to l : forall (m : dict Key (list PyVal)),
  unique_keys m -> unique_keys (fold_left append_to l m).
Proof.
  induction l as [|entry l IH]; intros m U; cbn [fold_left]; [assumption|].
  apply IH. now apply unique_keys_append_to.
Qed.

Lemma join_lookup (a b : Collection) k :
  unique_keys a -> unique_keys b ->
  getitem key_eqb (fold_left append_to (items a ++ items b) []) k =
  joined a b k.
Proof.
  intros Ua Ub. rewrite getitem_fold_append_to. cbn [getitem].
  unfold items. rewrite values_of_app.
  rewrite (values_of_unique k Ua), (values_of_unique k Ub). unfold joined.
  destruct (getitem key_eqb a k), (getitem key_eqb b k); reflexivity.
Qed.

Lemma join_run q query c1 c2 (a b : Collection) (db : Database) :
  _parse_query_string q = Ok query ->
  query_item query "action" = Ok "join" ->
  query_item query "collection1" = Ok c1 ->
  query_item query "collection2" = Ok c2 ->
  getitem String.eqb db c1 = Ok a ->
  getitem String.eqb db c2 = Ok b ->
  _query q db =
  (Ok (mkResponse true None (Some (Names [c1; c2]))
         (Some (Groups (fold_left append_to (items a ++ items b) [])))), db).
Proof.
  intros P A C1 C2 Ga Gb.
  rewrite query_run. unfold _query_try.
  unfold bind at 1, lift at 1. rewrite P.
  unfold bind at 1, lift at 1. rewrite C1.
  unfold bind at 1. rewrite collection_exists_run. unfold has_key.
  rewrite Ga. cbn [negb].
  unfold bind at 1, lift at 1. rewrite A. cbn [String.eqb Ascii.eqb
    Bool.eqb].
  unfold bind at 1, lift at 1. rewrite C2.
  unfold bind at 1. rewrite collection_exists_run. unfold has_key.
  rewrite Gb. cbn [negb]. run. now rewrite Ga, Gb.
Qed.

(** C6.  A join of two collections of the store returns, for every key of
    either collection, the values the key has in the first and in the second
    collection, in this order; a key of neither has no entry; the database
    is left as it was. *)
Theorem join_groups_values_by_key q query c1 c2 (a b : Collection)
  (db : Database) :
  _parse_query_string q = Ok query ->
  query_item query "action" = Ok "join" ->
  query_item query "collection1" = Ok c1 ->
  query_item query "collection2" = Ok c2 ->
  getitem String.eqb db c1 = Ok a ->
  getitem String.eqb db c2 = Ok b ->
  unique_keys a -> unique_keys b ->
  exists groups,
    _query q db =
      (Ok (mkResponse true None (Some (Names [c1; c2]))
             (Some (Groups groups))), db)
    /\ unique_keys groups
    /\ forall k, getitem key_eqb groups k = joined a b k.
Proof.
  intros P A C1 C2 Ga Gb Ua Ub.
  exists (fold_left append_to (items a ++ items b) []).
  split; [|split].
  - now apply join_run with query.
  - apply unique_keys_fold_append_to. constructor.
  - intros k. now apply join_lookup.
Qed.

Lemma join_groups_values_by_key_witness :
  let db : Database :=
    [("firstName", [(KInt 1, VStr "Radu"); (KInt 2, VStr "John")]);
     ("lastName", [(KInt 1, VStr "Onescu"); (KInt 3, VStr "Doe")])] in
  exists groups,
    _query "join firstName with lastName" db =
      (Ok (mkResponse true None (Some (Names ["firstName"; "lastName"]))
             (Some (Groups groups))), db)
    /\ getitem key_eqb groups (KInt 1) = Ok [VStr "Radu"; VStr "Onescu"]
    /\ getitem key_eqb groups (KInt 2) = Ok [VStr "John"]
    /\ getitem key_eqb groups (KInt 3) = Ok [VStr "Doe"]
    /\ getitem key_eqb groups (KInt 4) = Raise KeyError.
Proof.
  intros db.
  pose (a := [(KInt 1, VStr "Radu"); (KInt 2, VStr "John")] : Collection).
  pose (b := [(KInt 1, VStr "Onescu"); (KInt 3, VStr "Doe")] : Collection).
  assert (Ua : unique_keys a).
  { unfold unique_keys. simpl.
    repeat constructor; simpl; intuition discriminate. }
  assert (Ub : unique_keys b).
  { unfold unique_keys. simpl.
    repeat constructor; simpl; intuition discriminate. }
  destruct (@join_groups_values_by_key "join firstName with lastName"
              (mkQuery [("action", "join"); ("collection1", "firstName");
                        ("collection2", "lastName")] None)
              "firstName" "lastName" a b db
              eq_refl eq_refl eq_refl eq_refl eq_refl eq_refl Ua Ub)
    as (groups & Q & _ & L).
  exists groups. split; [exact Q|].
  rewrite !L. repeat split.
Defined.

(* ================================================================= *)
(** ** The parser accepts the join sentence *)

Lemma list_ascii_of_string_app s t :
  list_ascii_of_string (s ++ t) =
  list_ascii_of_string s ++ list_ascii_of_string t.
Proof. induction s; simpl; congruence. Qed.

Lemma alphas_not_white c : alphas c = true -> whiteChars c = false.
Proof.
  destruct c as [[] [] [] [] [] [] [] []]; intros H; try reflexivity;
    discriminate H.
Qed.

Lemma last_cons {A} (x d : A) l : last (x :: l) d = last l x.
Proof.
  revert x d. induction l as [|y l IH]; intros x d; [reflexivity|].
  change (last (x :: y :: l) d) with (last (y :: l) d).
  now rewrite !IH.
Qed.

Lemma skip_white_run prev ws r :
  forallb whiteChars ws = true -> stops whiteChars r ->
  skip_white prev (ws ++ r) = (after prev ws, r).
Proof.
  revert prev. induction ws as [|c ws IH]; intros prev W R; simpl in *.
  - destruct r as [|c r]; [reflexivity|]. simpl in *. now rewrite R.
  - apply andb_prop in W. destruct W as [Wc Ww]. rewrite Wc.
    rewrite (IH _ Ww R). unfold after. cbn [map]. now rewrite last_cons.
Qed.

Lemma span_run chars w r :
  forallb chars w = true -> stops chars r -> span chars (w ++ r) = (w, r).
Proof.
  intros F R. induction w as [|a w IH]; simpl in *.
  - destruct r as [|c r]; [reflexivity|]. simpl in *. now rewrite R.
  - apply andb_prop in F. destruct F as [Fa Fw]. rewrite Fa.
    now rewrite (IH Fw).
Qed.

Lemma parse_Word_run chars prev ws a w r :
  forallb whiteChars ws = true ->
  whiteChars a = false ->
  forallb chars (a :: w) = true ->
  stops chars r ->
  parse (Word chars) prev (ws ++ (a :: w) ++ r) =
  Ok (token (string_of_list_ascii (a :: w)),
      (after (after prev ws) (a :: w), r)).
Proof.
  intros W A F R. cbn [parse].
  rewrite skip_white_run by (assumption || exact A).
  now rewrite span_run.
Qed.

Lemma parse_Word_end chars prev ws a w :
  forallb whiteChars ws = true ->
  whiteChars a = false ->
  forallb chars (a :: w) = true ->
  parse (Word chars) prev (ws ++ a :: w) =
  Ok (token (string_of_list_ascii (a :: w)),
      (after (after prev ws) (a :: w), [])).
Proof.
  intros W A F. rewrite <- (app_nil_r (a :: w)) at 1.
  now apply parse_Word_run.
Qed.

Lemma skip_white_idem prev cs :
  skip_white (fst (skip_white prev cs)) (snd (skip_white prev cs)) =
  skip_white prev cs.
Proof.
  revert prev. induction cs as [|c cs IH]; intros prev; [reflexivity|].
  simpl. destruct (whiteChars c) eqn:W; [apply IH|]. simpl. now rewrite W.
Qed.

Lemma parse_skip_white e prev cs :
  parse e (fst (skip_white prev cs)) (snd (skip_white prev cs)) =
  parse e prev cs.
Proof. destruct e; cbn [parse]; now rewrite skip_white_idem. Qed.

Lemma parse_And_eq a b prev cs :
  parse (And a b) prev cs =
  match parse a prev cs with
  | Ok (r1, (prev1, cs1)) =>
      match parse b prev1 cs1 with
      | Ok (r2, loc) => Ok (merge r1 r2, loc)
      | Raise x => Raise x
      end
  | Raise x => Raise x
  end.
Proof.
  rewrite <- (parse_skip_white a prev cs). cbn [parse].
  now destruct (skip_white prev cs).
Qed.

Lemma parse_MatchFirst_eq a b prev cs :
  parse (MatchFirst a b) prev cs =
  match parse a prev cs with
  | Ok r => Ok r
  | Raise _ => parse b prev cs
  end.
Proof.
  rewrite <- (parse_skip_white a prev cs), <- (parse_skip_white b prev cs).
  cbn [parse]. now destruct (skip_white prev cs).
Qed.

Lemma parse_Named_eq e name prev cs :
  parse (Named e name) prev cs =
  match parse e prev cs with
  | Ok (r, loc) => Ok (set_name name r, loc)
  | Raise x => Raise x
  end.
Proof.
  rewrite <- (parse_skip_white e prev cs). cbn [parse].
  now destruct (skip_white prev cs).
Qed.

Lemma parse_join_sentence c1 c2 :
  c1 <> "" -> c2 <> "" ->
  forallb alphas (list_ascii_of_string c1) = true ->
  forallb alphas (list_ascii_of_string c2) = true ->
  _parse_query_string ("join " ++ c1 ++ " with " ++ c2) =
  Ok (mkQuery [("action", "join"); ("collection1", c1); ("collection2", c2)]
        None).
Proof.
  intros N1 N2 A1 A2.
  unfold _parse_query_string, parseString.
  rewrite !list_ascii_of_string_app.
  rewrite <- (string_of_list_ascii_of_string c1) at 2.
  rewrite <- (string_of_list_ascii_of_string c2) at 2.
  destruct (list_ascii_of_string c1) as [|a1 w1] eqn:E1.
  { destruct c1; [congruence | discriminate]. }
  destruct (list_ascii_of_string c2) as [|a2 w2] eqn:E2.
  { destruct c2; [congruence | discriminate]. }
  clear E1 E2 N1 N2.
  assert (Wa1 : whiteChars a1 = false)
    by (apply alphas_not_white; now apply andb_prop in A1).
  assert (Wa2 : whiteChars a2 = false)
    by (apply alphas_not_white; now apply andb_prop in A2).
  unfold SYNTAX, SYNTAX_JOIN.
  rewrite parse_MatchFirst_eq, !parse_And_eq, !parse_Named_eq.
  set (tail2 := list_ascii_of_string " with " ++ a2 :: w2).
  change (parse (Keyword "join") None
            (list_ascii_of_string "join " ++ (a1 :: w1) ++ tail2))
    with (Ok (token "join",
              (Some "n"%char, [" "%char] ++ (a1 :: w1) ++ tail2))).
  cbv beta iota.
  rewrite parse_Named_eq, parse_Word_run by (reflexivity || assumption).
  cbv beta iota. unfold tail2.
  change (parse (Literal "with") (after (after (Some "n"%char) [" "%char])
                                    (a1 :: w1))
            (list_ascii_of_string " with " ++ a2 :: w2))
    with (Ok (token "with", (Some "h"%char, [" "%char] ++ a2 :: w2))).
  cbv beta iota.
  rewrite parse_Named_eq, parse_Word_end by (reflexivity || assumption).
  reflexivity.
Qed.

(** The join sentence itself, for two collections with alphabetic names. *)
Corollary join_sentence_groups c1 c2 (a b : Collection) (db : Database) :
  c1 <> "" -> c2 <> "" ->
  forallb alphas (list_ascii_of_string c1) = true ->
  forallb alphas (list_ascii_of_string c2) = true ->
  getitem String.eqb db c1 = Ok a ->
  getitem String.eqb db c2 = Ok b ->
  unique_keys a -> unique_keys b ->
  exists groups,
    _query ("join " ++ c1 ++ " with " ++ c2) db =
      (Ok (mkResponse true None (Some (Names [c1; c2]))
             (Some (Groups groups))), db)
    /\ forall k, getitem key_eqb groups k = joined a b k.
Proof.
  intros N1 N2 A1 A2 Ga Gb Ua Ub.
  exists (fold_left append_to (items a ++ items b) []). split.
  - apply join_run
      with (query := mkQuery [("action", "join"); ("collection1", c1);
                              ("collection2", c2)] None);
      auto using parse_join_sentence.
  - intros k. now apply join_lookup.
Qed.

(* ================================================================= *)
(** ** Every request keeps the keys of the dictionaries unique *)

Lemma Forall_setitem {K V} eqb (Q : V -> Prop) (d : dict K V) k v :
  Forall (fun e => Q (snd e)) d -> Q v ->
  Forall (fun e => Q (snd e)) (setitem eqb d k v).
Proof.
  intros F Qv. induction d as [|[k' v'] d IH]; simpl.
  - now repeat constructor.
  - inversion F; subst. destruct (eqb k' k); constructor; auto.
Qed.

Lemma Forall_delitem {K V} eqb (P : K * V -> Prop) (d : dict K V) k :
  forall d', delitem eqb d k = Ok d' -> Forall P d -> Forall P d'.
Proof.
  induction d as [|[k' v'] d IH]; simpl; intros d'; [discriminate|].
  destruct (eqb k' k).
  - intros [= <-] F. now inversion F.
  - destruct (delitem eqb d k) as [r|]; simpl; [|discriminate].
    intros [= <-] F. inversion F; subst. constructor; auto.
Qed.

Lemma getitem_Forall {K V} eqb (Q : V -> Prop) (d : dict K V) k v :
  getitem eqb d k = Ok v -> Forall (fun e => Q (snd e)) d -> Q v.
Proof.
  induction d as [|[k' v'] d IH]; simpl; [discriminate|].
  intros G F. inversion F; subst. destruct (eqb k' k); [|auto].
  now injection G as <-.
Qed.

Lemma wf_db_setitem (db : Database) name (c : Collection) :
  wf_db db -> unique_keys c -> wf_db (setitem String.eqb db name c).
Proof.
  intros [U F] Uc. split.
  - now apply (unique_keys_setitem _ string_eqb_spec).
  - now apply Forall_setitem.
Qed.

Lemma wf_db_getitem (db : Database) name (c : Collection) :
  wf_db db -> getitem String.eqb db name = Ok c -> unique_keys c.
Proof.
  intros [_ F] G.
  exact (@getitem_Forall _ _ String.eqb (fun c => unique_keys c)
           db name c G F).
Qed.

Lemma entry_setitem_wf name key value (db : Database) :
  wf_db db -> wf_db (snd (entry_setitem name key value db)).
Proof.
  intros W. unfold entry_setitem. run.
  destruct (getitem String.eqb db name) as [c|] eqn:G; [|assumption].
  destruct key as [k|]; cbn [hash snd]; [|assumption].
  apply wf_db_setitem; [assumption|].
  apply (unique_keys_setitem _ key_eqb_spec).
  now apply wf_db_getitem with db name.
Qed.

Lemma entry_delitem_wf name key (db : Database) :
  wf_db db -> wf_db (snd (entry_delitem name key db)).
Proof.
  intros W. unfold entry_delitem. run.
  destruct (getitem String.eqb db name) as [c|] eqn:G; [|assumption].
  destruct key as [k|]; cbn [hash snd]; [|assumption].
  destruct (delitem key_eqb c k) as [c'|] eqn:D; [|assumption].
  apply wf_db_setitem; [assumption|].
  apply (unique_keys_delitem _ _ D).
  now apply wf_db_getitem with db name.
Qed.

Lemma for_each_invariant {A X} (P : Database -> Prop)
  (step : A -> X -> M A) :
  (forall acc x db, P db -> P (snd (step acc x db))) ->
  forall xs acc db, P db -> P (snd (for_each xs acc step db)).
Proof.
  intros S. induction xs as [|x xs IH]; intros acc db H; cbn [for_each].
  - exact H.
  - unfold bind. pose proof (S acc x db H) as H1.
    destruct (step acc x db) as [[acc'|e] db1]; cbn [snd] in *; auto.
Qed.

Lemma execute_query_by_value_wf query_action query ops name (db : Database) :
  wf_db db ->
  wf_db (snd (_execute_query_by_value query_action query ops name db)).
Proof.
  intros W. unfold _execute_query_by_value, bind at 1, collections_getitem.
  destruct (getitem String.eqb db name) as [c|]; [|assumption].
  apply for_each_invariant; [|assumption].
  intros acc [k v] db1 W1. rewrite by_value_step_run.
  destruct (holds _); [|assumption]. cbn [snd].
  destruct query_action; [assumption|].
  now apply entry_delitem_wf.
Qed.

Lemma query_wf q (db : Database) : wf_db db -> wf_db (snd (_query q db)).
Proof.
  intros W. rewrite query_run.
  destruct (query_try_cases q db) as [K|(r & _ & _ & qa & query & c & K)];
    destruct (_query_try q db) as [[r0|e] db']; cbn [snd] in *; subst db';
    auto using execute_query_by_value_wf.
Qed.

(** The requests keep the invariant under which the claims about entries are
    stated: the empty database has it, and every answered request hands it
    on. *)
Lemma wf_db_empty : wf_db [].
Proof. split; constructor. Qed.

Lemma handle_request_wf request (db : Database) :
  wf_db db -> wf_db (snd (handle_request request db)).
Proof.
  intros W. unfold handle_request, dict_get. cbn [getitem].
  repeat match goal with
  | |- context [Z.eqb ?a ?b] => destruct (Z.eqb a b)
  end; cbn [call].
  - now rewrite read_keeps_db.
  - unfold _add, bind at 1. rewrite collection_exists_run.
    destruct (has_key _ _ _); [|assumption].
    unfold try_except, bind at 1.
    pose proof (entry_setitem_wf (req_collection_name request)
                  (req_key request) (req_value request) W) as W1.
    destruct (entry_setitem _ _ _ db) as [[u|e] db1]; cbn [snd] in *;
      [|assumption].
    run. destruct (getitem String.eqb db1 _); [|assumption].
    destruct (hash _); [|assumption].
    destruct (getitem key_eqb _ _); assumption.
  - unfold _delete, bind at 1. rewrite collection_exists_run.
    destruct (has_key _ _ _); [|assumption].
    unfold try_except, bind at 1.
    pose proof (entry_delitem_wf (req_collection_name request)
                  (req_key request) W) as W1.
    destruct (entry_delitem _ _ db) as [[u|e] db1]; assumption.
  - now apply query_wf.
  - rewrite create_collection_run.
    destruct (isalpha _); [|assumption].
    destruct (getitem String.eqb db _); [assumption|].
    cbn [snd]. apply wf_db_setitem; [assumption | constructor].
  - rewrite delete_collection_run.
    destruct (delitem String.eqb db _) as [db'|] eqn:D; [|assumption].
    destruct W as [U F]. split.
    + exact (unique_keys_delitem _ _ D U).
    + eapply Forall_delitem; eauto.
  - assumption.
  - assumption.
Qed.

(* ================================================================= *)
(** ** Queries by key, in general *)

(** No query by key changes the database, whatever its action. *)
Lemma query_by_key_keeps_db q query (db : Database) :
  _parse_query_string q = Ok query ->
  query_item query "element" = Ok "key" ->
  snd (_query q db) = db.
Proof.
  intros P E. rewrite query_run.
  assert (K : snd (_query_try q db) = db).
  { unfold _query_try. unfold bind at 1, lift at 1. rewrite P.
    unfold bind at 1, lift at 1.
    destruct (query_item query "collection1") as [c1|]; [|reflexivity].
    unfold bind at 1. rewrite collection_exists_run.
    destruct (has_key String.eqb db c1); cbn [negb]; [|reflexivity].
    unfold bind at 1, lift at 1.
    destruct (query_item query "action") as [action|] eqn:A; [|reflexivity].
    pose proof (parse_query_string_parsed _ P) as S.
    destruct (String.eqb_spec action "join") as [->|N].
    { destruct S as [c1' c2|a e o v c Ia _ _|a e o t v c cv Ia _ _ _];
        [discriminate E| |]; injection A as ->;
        destruct Ia as [H|[H|[]]]; discriminate H. }
    unfold bind at 1, lift at 1.
    destruct (getitem String.eqb query_actions action) as [qa|];
      [|reflexivity].
    unfold bind at 1, lift at 1. rewrite E.
    unfold bind at 1, lift at 1. cbn [getitem query_elements String.eqb
      Ascii.eqb Bool.eqb andb].
    unfold bind, ret.
    pose proof (execute_query_by_key_keeps_db qa query operators c1 db) as K.
    destruct (_execute_query_by_key qa query operators c1 db) as [[ms|e] db'];
      exact K. }
  destruct (_query_try q db) as [[r|e] db']; exact K.
Qed.

(** A query by key with the operator [=] on an existing collection answers
    with no entry. *)
Lemma query_key_equality_is_empty q query name (entries : Collection)
  (db : Database) :
  _parse_query_string q = Ok query ->
  query_item query "element" = Ok "key" ->
  query_item query "operator" = Ok "=" ->
  query_item query "collection1" = Ok name ->
  getitem String.eqb db name = Ok entries ->
  _query q db =
  (Ok (mkResponse true None (Some (Name name)) (Some (Entries []))), db).
Proof.
  intros P E O C G. rewrite query_run. unfold _query_try.
  unfold bind at 1, lift at 1. rewrite P.
  unfold bind at 1, lift at 1. rewrite C.
  unfold bind at 1. rewrite collection_exists_run. unfold has_key.
  rewrite G. cbn [negb].
  pose proof (parse_query_string_parsed _ P) as S.
  assert (exists a qa, query_item query "action" = Ok a
                       /\ String.eqb a "join" = false
                       /\ getitem String.eqb query_actions a = Ok qa)
    as (a & qa & A & J & Q).
  { destruct S as [c1 c2|a e o v c Ia Ie Io|a e o t v c cv Ia Ie Io Cv];
      [discriminate E| |];
      exists a; destruct Ia as [<-|[<-|[]]]; eexists; repeat split. }
  unfold bind at 1, lift at 1. rewrite A, J.
  unfold bind at 1, lift at 1. rewrite Q.
  unfold bind at 1, lift at 1. rewrite E.
  unfold bind at 1, lift at 1. cbn [getitem query_elements String.eqb
    Ascii.eqb Bool.eqb andb].
  unfold bind, ret. now rewrite execute_query_by_key_eq.
Qed.

(** The word [from] is matched as a literal: it needs no space after it. *)
Example from_needs_no_space :
  _parse_query_string "read key > 1234 fromcars" =
  Ok (mkQuery [("action", "read"); ("element", "key"); ("operator", ">");
               ("value", "1234"); ("collection1", "cars")] None).
Proof. reflexivity. Qed.

(* ================================================================= *)
(** ** Delete by value removes the matching entries *)

Section MoreDictFacts.
Variables K V : Type.
Variable eqb : K -> K -> bool.
Hypothesis eqb_spec : forall a b, reflect (a = b) (eqb a b).

Lemma delitem_app (kept rest : dict K V) k v :
  ~ In k (keys kept) ->
  delitem eqb (kept ++ (k, v) :: rest) k = Ok (kept ++ rest).
Proof.
  unfold keys. induction kept as [|[k0 v0] kept IH]; simpl; intros NI.
  - now rewrite (eqb_refl_true _ eqb_spec).
  - rewrite (eqb_neq_false _ eqb_spec) by tauto.
    rewrite IH by tauto. reflexivity.
Qed.

Lemma setitem_setitem (d : dict K V) k x y :
  setitem eqb (setitem eqb d k x) k y = setitem eqb d k y.
Proof.
  induction d as [|[k0 v0] d IH]; simpl.
  - now rewrite (eqb_refl_true _ eqb_spec).
  - destruct (eqb k0 k) eqn:E; simpl; rewrite E; [reflexivity|].
    now rewrite IH.
Qed.

Lemma setitem_same (d : dict K V) k v :
  getitem eqb d k = Ok v -> setitem eqb d k v = d.
Proof.
  induction d as [|[k0 v0] d IH]; simpl; [discriminate|].
  destruct (eqb k0 k).
  - now intros [= ->].
  - intros G. now rewrite IH.
Qed.
End MoreDictFacts.

Lemma delete_by_value_scan query ops name : forall todo kept acc
  (db : Database),
  getitem String.eqb db name = Ok (kept ++ todo) ->
  (forall e, In e todo -> ~ In (fst e) (keys kept)) ->
  unique_keys todo ->
  for_each todo acc (by_value_step delete_from_query query ops name) db =
  (Ok (acc ++ map as_match
         (filter (fun e => holds (apply_operator ops query (snd e))) todo)),
   setitem String.eqb db name
     (kept ++ filter (fun e => negb (holds (apply_operator ops query (snd e))))
                todo)).
Proof.
  induction todo as [|[k v] todo IH]; intros kept acc db G F U;
    cbn [for_each].
  - cbn [filter map]. rewrite !app_nil_r in *.
    now rewrite (setitem_same _ _ _ G).
  - unfold bind. rewrite by_value_step_run. cbn [filter map snd].
    inversion U as [|? ? NI U']; subst.
    destruct (holds (apply_operator ops query v)); cbn [negb].
    + assert (D : call2 delete_from_query k name db =
                  (Ok tt, setitem String.eqb db name (kept ++ todo))).
      { unfold call2, _delete_from_query, entry_delitem. run.
        rewrite G. cbn [hash].
        rewrite (delitem_app _ key_eqb_spec); [reflexivity|].
        apply (F (k, v)). now left. }
      rewrite D. cbn [snd].
      rewrite (IH kept).
      * rewrite (setitem_setitem _ string_eqb_spec).
        now rewrite <- app_assoc.
      * apply (getitem_setitem_eq _ string_eqb_spec).
      * intros e I. apply F. now right.
      * assumption.
    + rewrite (IH (kept ++ [(k, v)])).
      * now rewrite <- !app_assoc.
      * now rewrite <- app_assoc.
      * intros e I. unfold keys. rewrite map_app, in_app_iff.
        intros [Hk|[Hk|[]]].
        -- apply (F e); [now right | exact Hk].
        -- apply NI. simpl in Hk. rewrite Hk.
           change (fst e) with (fst e). now apply in_map.
      * assumption.
Qed.

(** A delete by value answers with the entries whose value satisfies the
    operator and leaves exactly the others in the collection. *)
Lemma delete_by_value_removes_matches query ops name (entries : Collection)
  (db : Database) :
  getitem String.eqb db name = Ok entries ->
  unique_keys entries ->
  _execute_query_by_value delete_from_query query ops name db =
  (Ok (map as_match
         (filter (fun e => holds (apply_operator ops query (snd e)))
            entries)),
   setitem String.eqb db name
     (filter (fun e => negb (holds (apply_operator ops query (snd e))))
        entries)).
Proof.
  intros G U. unfold _execute_query_by_value, bind, collections_getitem.
  rewrite G. unfold items, copy.
  apply (@delete_by_value_scan query ops name entries [] [] db);
    [exact G | intros e _ [] | exact U].
Qed.

(* ================================================================= *)
(** ** The session of the client's doctest *)

(** The requests that the doctest of [client.py] sends, in order, and the
    responses it expects. *)
Example client_doctest_session :
  let create name := mkRequest 4 name (Hashable (KInt 0)) (VInt 0) "" in
  let drop name := mkRequest 5 name (Hashable (KInt 0)) (VInt 0) "" in
  let key (k : nat) := Hashable (KInt (Z.of_nat k)) in
  let add name k v := mkRequest 1 name (key k) v "" in
  let read name k := mkRequest 0 name (key k) (VInt 0) "" in
  let delete name k := mkRequest 2 name (key k) (VInt 0) "" in
  let query q := mkRequest 3 "" (Hashable (KInt 0)) (VInt 0) q in
  let ok name data := Ok (mkResponse true None name data) in
  let one name (k : nat) v :=
    ok (Some (Name name)) (Some (Entries [(VInt (Z.of_nat k), v)])) in
  let error text := Ok (error_response text) in
  serve
    [create "firstName"; create "lastName"; create "age"; drop "age";
     add "firstName" 1 (VStr "Radu"); add "lastName" 1 (VStr "Onescu");
     add "firstName" 2 (VStr "John"); read "firstName" 2;
     delete "firstName" 2; delete "firstName" 2; delete "age" 2;
     read "age" 1;
     query "join firstName with lastName"; query "join firstName with age";
     create "age"; add "age" 2 (VInt 25); add "age" 1 (VInt 20);
     query "read value >= int ( 20 ) from age"] []
  =
  ([ok (Some (Name "firstName")) None; ok (Some (Name "lastName")) None;
    ok (Some (Name "age")) None; ok None None;
    one "firstName" 1 (VStr "Radu"); one "lastName" 1 (VStr "Onescu");
    one "firstName" 2 (VStr "John"); one "firstName" 2 (VStr "John");
    ok (Some (Name "firstName")) None;
    error "Entry could not be deleted."; error "Collection does not exist.";
    error "Collection does not exist.";
    ok (Some (Names ["firstName"; "lastName"]))
       (Some (Groups [(KInt 1, [VStr "Radu"; VStr "Onescu"])]));
    error "age does not exist.";
    ok (Some (Name "age")) None; one "age" 2 (VInt 25); one "age" 1 (VInt 20);
    ok (Some (Name "age"))
       (Some (Entries [(VInt 2, VInt 25); (VInt 1, VInt 20)]))],
   [("firstName", [(KInt 1, VStr "Radu")]);
    ("lastName", [(KInt 1, VStr "Onescu")]);
    ("age", [(KInt 2, VInt 25); (KInt 1, VInt 20)])]).
Proof. reflexivity. Qed.

(* ================================================================= *)
(** ** Collections and entries: what a request changes *)

Section OrderFacts.
Variables K V : Type.
Variable eqb : K -> K -> bool.
Hypothesis eqb_spec : forall a b, reflect (a = b) (eqb a b).

Lemma has_key_in (d : dict K V) k :
  has_key eqb d k = true <-> In k (keys d).
Proof.
  unfold has_key. destruct (getitem eqb d k) as [v|e] eqn:G.
  - split; [intros _|reflexivity].
    change k with (fst (k, v)). apply in_map.
    exact (getitem_in _ eqb_spec _ _ G).
  - split; [discriminate|]. intros I.
    now destruct (getitem_raise _ eqb_spec _ _ G).
Qed.

Lemma setitem_new (d : dict K V) k v :
  has_key eqb d k = false -> setitem eqb d k v = d ++ [(k, v)].
Proof.
  unfold has_key. induction d as [|[k' v'] d IH]; simpl; [reflexivity|].
  destruct (eqb k' k); [discriminate|]. intros H. now rewrite IH.
Qed.

Lemma delitem_filter (d : dict K V) k v :
  unique_keys d -> getitem eqb d k = Ok v ->
  delitem eqb d k = Ok (filter (fun e => negb (eqb (fst e) k)) d).
Proof.
  unfold unique_keys, keys.
  induction d as [|[k' v'] d IH]; simpl; [discriminate|].
  intros U. inversion U as [|? ? NI U']; subst.
  destruct (eqb_spec k' k) as [->|N]; simpl.
  - intros _. f_equal. symmetry. apply forallb_filter_id.
    apply forallb_forall. intros [k0 v0] I. simpl.
    destruct (eqb_spec k0 k) as [->|]; [|reflexivity].
    exfalso. apply NI. change k with (fst (k, v0)). now apply in_map.
  - intros G. now rewrite (IH U' G).
Qed.

Lemma keys_setitem (d : dict K V) k v :
  keys (setitem eqb d k v) =
  if has_key eqb d k then keys d else keys d ++ [k].
Proof.
  destruct (has_key eqb d k) eqn:H.
  - apply (keys_setitem_in _ eqb_spec). now apply has_key_in.
  - apply (keys_setitem_not_in _ eqb_spec). intros I.
    apply has_key_in in I. congruence.
Qed.

Lemma delitem_getitem (d d' : dict K V) k :
  delitem eqb d k = Ok d' -> exists v, getitem eqb d k = Ok v.
Proof.
  destruct (getitem eqb d k) as [v|e] eqn:G; [eauto|].
  revert d' G. induction d as [|[k' v'] d IH]; simpl; [discriminate|].
  intros d'. destruct (eqb k' k); [discriminate|].
  intros G. destruct (delitem eqb d k) eqn:D; simpl; [|discriminate].
  intros _. eapply IH; eauto.
Qed.

End OrderFacts.

(** X1.  Creating a collection under an alphabetic name that is not in use
    succeeds; afterwards the collection exists and is empty, every other
    collection is as it was, and creating it again is refused with
    "Collection already exists." and changes nothing. *)
Theorem create_collection_then_exists name (db : Database) :
  isalpha name = true ->
  has_key String.eqb db name = false ->
  let db1 := snd (_create_collection name db) in
  fst (_create_collection name db) =
    Ok (mkResponse true None (Some (Name name)) None)
  /\ _collection_exists name db1 = (Ok true, db1)
  /\ getitem String.eqb db1 name = Ok []
  /\ (forall other, other <> name ->
      getitem String.eqb db1 other = getitem String.eqb db other)
  /\ _create_collection name db1 =
     (Ok (error_response "Collection already exists."), db1).
Proof.
  intros A H. unfold has_key in H.
  rewrite create_collection_run, A.
  destruct (getitem String.eqb db name) eqn:G; [discriminate|].
  cbn [fst snd].
  assert (G1 : getitem String.eqb (setitem String.eqb db name []) name
               = Ok (@nil (Key * PyVal)))
    by apply (getitem_setitem_eq _ string_eqb_spec).
  repeat split.
  - rewrite collection_exists_run. unfold has_key. now rewrite G1.
  - exact G1.
  - intros other N. apply (getitem_setitem_neq _ string_eqb_spec).
    congruence.
  - rewrite create_collection_run, A, G1. reflexivity.
Qed.

Lemma create_collection_then_exists_witness :
  let db : Database := [("age", [(KInt 1, VInt 20)])] in
  _create_collection "cars" (snd (_create_collection "cars" db)) =
  (Ok (error_response "Collection already exists."),
   [("age", [(KInt 1, VInt 20)]); ("cars", [])]).
Proof.
  exact (proj2 (proj2 (proj2 (proj2
    (create_collection_then_exists "cars" [("age", [(KInt 1, VInt 20)])]
       eq_refl eq_refl))))).
Defined.

(** X2.  Deleting a collection that exists succeeds and removes it and
    nothing else: the name is no longer found, every other collection is
    as it was, a second deletion is refused with "Collection does not
    exist.", and a collection created again under the name is empty. *)
Theorem delete_collection_removes_only_it name (c : Collection)
  (db : Database) :
  unique_keys db ->
  getitem String.eqb db name = Ok c ->
  let db1 := snd (_delete_collection name db) in
  fst (_delete_collection name db) = Ok (mkResponse true None None None)
  /\ getitem String.eqb db1 name = Raise KeyError
  /\ (forall other, other <> name ->
      getitem String.eqb db1 other = getitem String.eqb db other)
  /\ _delete_collection name db1 =
     (Ok (error_response "Collection does not exist."), db1)
  /\ (isalpha name = true ->
      getitem String.eqb (snd (_create_collection name db1)) name = Ok []).
Proof.
  intros U G. rewrite delete_collection_run.
  destruct (getitem_delitem _ _ _ G) as [db' D]. rewrite D. cbn [fst snd].
  assert (G1 : getitem String.eqb db' name = Raise KeyError)
    by exact (getitem_delitem_eq _ string_eqb_spec _ D U).
  repeat split.
  - exact G1.
  - intros other N. apply (getitem_delitem_neq _ string_eqb_spec _ D).
    congruence.
  - rewrite delete_collection_run.
    destruct (delitem String.eqb db' name) eqn:D'; [|reflexivity].
    destruct (delitem_getitem _ _ _ D') as [v G2]. congruence.
  - intros A. rewrite create_collection_run, A, G1. cbn [snd].
    apply (getitem_setitem_eq _ string_eqb_spec).
Qed.

Lemma delete_collection_removes_only_it_witness :
  let db : Database :=
    [("age", [(KInt 1, VInt 20)]); ("cars", [(KInt 7, VStr "a")])] in
  snd (_delete_collection "age" db) = [("cars", [(KInt 7, VStr "a")])]
  /\ getitem String.eqb
       (snd (_create_collection "age" (snd (_delete_collection "age" db))))
       "age" = Ok [].
Proof.
  split; [reflexivity|].
  refine (proj2 (proj2 (proj2 (proj2
    (@delete_collection_removes_only_it "age" [(KInt 1, VInt 20)]
       [("age", [(KInt 1, VInt 20)]); ("cars", [(KInt 7, VStr "a")])]
       _ eq_refl)))) eq_refl).
  repeat constructor; simpl; intuition discriminate.
Defined.

(** X3.  An add to an existing collection stores the value under the key
    and touches nothing else: every other key of the collection keeps its
    value, a key already present keeps its place in the order of the
    collection and a new key goes to the end, and every other collection
    is as it was. *)
Theorem add_touches_one_entry name (c : Collection) key value
  (db : Database) :
  getitem String.eqb db name = Ok c ->
  let db1 := snd (_add (Hashable key) value name db) in
  exists c1 : Collection,
    getitem String.eqb db1 name = Ok c1
    /\ getitem key_eqb c1 key = Ok value
    /\ (forall k, k <> key -> getitem key_eqb c1 k = getitem key_eqb c k)
    /\ keys c1 = (if has_key key_eqb c key then keys c else keys c ++ [key])
    /\ (forall other, other <> name ->
        getitem String.eqb db1 other = getitem String.eqb db other).
Proof.
  intros G. rewrite add_run, G. cbn [snd].
  exists (setitem key_eqb c key value). repeat split.
  - apply (getitem_setitem_eq _ string_eqb_spec).
  - apply (getitem_setitem_eq _ key_eqb_spec).
  - intros k N. apply (getitem_setitem_neq _ key_eqb_spec). congruence.
  - apply (@keys_setitem _ _ _ key_eqb_spec).
  - intros other N. apply (getitem_setitem_neq _ string_eqb_spec).
    congruence.
Qed.

Lemma add_touches_one_entry_witness :
  let db : Database :=
    [("age", [(KInt 2, VInt 25); (KInt 1, VInt 20)]); ("cars", [])] in
  exists c1 : Collection,
    getitem String.eqb (snd (_add (Hashable (KInt 2)) (VInt 26) "age" db))
      "age" = Ok c1
    /\ getitem key_eqb c1 (KInt 2) = Ok (VInt 26)
    /\ getitem key_eqb c1 (KInt 1) = Ok (VInt 20)
    /\ keys c1 = [KInt 2; KInt 1].
Proof.
  destruct (@add_touches_one_entry "age" [(KInt 2, VInt 25); (KInt 1, VInt 20)]
              (KInt 2) (VInt 26)
              [("age", [(KInt 2, VInt 25); (KInt 1, VInt 20)]); ("cars", [])]
              eq_refl) as (c1 & G & V & F & O & _).
  exists c1. split; [exact G|]. split; [exact V|]. split; [|exact O].
  rewrite F by discriminate. reflexivity.
Defined.

(** X4.  The last add wins: two adds to the same key of the same
    collection, with nothing in between, leave the database that the second
    add alone would have left (whether or not the adds succeed). *)
Theorem last_add_wins key v1 v2 name (db : Database) :
  snd (_add key v2 name (snd (_add key v1 name db))) =
  snd (_add key v2 name db).
Proof.
  destruct key as [k|].
  - rewrite (add_run k v1 name db), (add_run k v2 name db).
    destruct (getitem String.eqb db name) as [c|e] eqn:G; cbn [snd].
    + rewrite add_run, (getitem_setitem_eq _ string_eqb_spec). cbn [snd].
      rewrite (setitem_setitem _ string_eqb_spec).
      now rewrite (setitem_setitem _ key_eqb_spec).
    + rewrite add_run, G. reflexivity.
  - now rewrite !add_unhashable.
Qed.

(** X5.  A delete of a stored key removes that entry and nothing else: the
    collection keeps its other entries in their order, every other
    collection is as it was, and a second delete of the key is refused with
    "Entry could not be deleted." and changes nothing. *)
Theorem delete_touches_one_entry name (c : Collection) key v
  (db : Database) :
  getitem String.eqb db name = Ok c ->
  unique_keys c ->
  getitem key_eqb c key = Ok v ->
  let db1 := snd (_delete (Hashable key) name db) in
  getitem String.eqb db1 name =
    Ok (filter (fun e => negb (key_eqb (fst e) key)) c)
  /\ (forall other, other <> name ->
      getitem String.eqb db1 other = getitem String.eqb db other)
  /\ _delete (Hashable key) name db1 =
     (Ok (error_response "Entry could not be deleted."), db1).
Proof.
  intros G U Gk. rewrite delete_run, G.
  pose proof (@delitem_filter _ _ _ key_eqb_spec _ _ _ U Gk) as D.
  set (c1 := filter (fun e => negb (key_eqb (fst e) key)) c) in *.
  rewrite D. cbn [snd].
  assert (G1 : getitem String.eqb (setitem String.eqb db name c1) name
               = Ok c1)
    by apply (getitem_setitem_eq _ string_eqb_spec).
  split; [exact G1|]. split.
  - intros other N. apply (getitem_setitem_neq _ string_eqb_spec).
    congruence.
  - rewrite delete_run, G1.
    destruct (delitem key_eqb c1 key) as [c2|e] eqn:D2; [|reflexivity].
    destruct (delitem_getitem _ _ _ D2) as [v2 G2].
    rewrite (getitem_delitem_eq _ key_eqb_spec _ D U) in G2. discriminate.
Qed.

Lemma delete_touches_one_entry_witness :
  let db : Database :=
    [("age", [(KInt 2, VInt 25); (KInt 1, VInt 20); (KInt 3, VInt 30)])] in
  getitem String.eqb (snd (_delete (Hashable (KInt 1)) "age" db)) "age" =
  Ok [(KInt 2, VInt 25); (KInt 3, VInt 30)].
Proof.
  refine (proj1
    (@delete_touches_one_entry "age"
       [(KInt 2, VInt 25); (KInt 1, VInt 20); (KInt 3, VInt 30)]
       (KInt 1) (VInt 20)
       [("age", [(KInt 2, VInt 25); (KInt 1, VInt 20); (KInt 3, VInt 30)])]
       eq_refl _ eq_refl)).
  repeat constructor; simpl; intuition discriminate.
Defined.

(** X6.  A delete undoes the add of a new key: after a key that the
    collection does not hold is added and then deleted, the database is
    the one before the add, order included. *)
Theorem delete_undoes_add_of_new_key name (c : Collection) key value
  (db : Database) :
  getitem String.eqb db name = Ok c ->
  has_key key_eqb c key = false ->
  snd (_delete (Hashable key) name
         (snd (_add (Hashable key) value name db))) = db.
Proof.
  intros G H. rewrite add_run, G. cbn [snd].
  rewrite delete_run, (getitem_setitem_eq _ string_eqb_spec).
  rewrite (@setitem_new _ _ _ _ _ value H).
  rewrite (delitem_app _ key_eqb_spec).
  - cbn [snd]. rewrite app_nil_r.
    rewrite (setitem_setitem _ string_eqb_spec).
    now apply setitem_same.
  - intros I. apply (@has_key_in _ _ _ key_eqb_spec) in I. congruence.
Qed.

Lemma delete_undoes_add_of_new_key_witness :
  let db : Database :=
    [("age", [(KInt 2, VInt 25); (KInt 1, VInt 20)]); ("cars", [])] in
  snd (_delete (Hashable (KStr "x")) "age"
         (snd (_add (Hashable (KStr "x")) (VInt 1) "age" db))) = db.
Proof.
  exact (@delete_undoes_add_of_new_key "age"
           [(KInt 2, VInt 25); (KInt 1, VInt 20)] (KStr "x") (VInt 1)
           [("age", [(KInt 2, VInt 25); (KInt 1, VInt 20)]); ("cars", [])]
           eq_refl eq_refl).
Defined.

Lemma read_unhashable name (db : Database) :
  _read Unhashable name db =
  (Ok (error_response
         (if has_key String.eqb db name then "Entry does not exist."
          else "Collection does not exist.")), db).
Proof.
  unfold _read. unfold bind at 1. rewrite collection_exists_run.
  unfold has_key. destruct (getitem String.eqb db name) eqn:G; run;
    [rewrite G|]; reflexivity.
Qed.

(** X7.  When the three entry requests succeed: an add succeeds exactly
    when the collection exists and the key can be hashed; a read and a
    delete succeed exactly when, moreover, the collection holds the key. *)
Theorem entry_requests_succeed_exactly_when key value name (db : Database) :
  ((exists r, fst (_add key value name db) = Ok r /\ success r = true)
   <-> exists (c : Collection) k,
         getitem String.eqb db name = Ok c /\ key = Hashable k)
  /\ ((exists r, fst (_read key name db) = Ok r /\ success r = true)
      <-> exists (c : Collection) k v,
            getitem String.eqb db name = Ok c /\ key = Hashable k
            /\ getitem key_eqb c k = Ok v)
  /\ ((exists r, fst (_delete key name db) = Ok r /\ success r = true)
      <-> exists (c : Collection) k v,
            getitem String.eqb db name = Ok c /\ key = Hashable k
            /\ getitem key_eqb c k = Ok v).
Proof.
  assert (F : forall text,
            ~ exists r, Ok (error_response text) = Ok r /\ success r = true).
  { intros text (r & E & S). injection E as <-. discriminate S. }
  destruct key as [k|].
  - rewrite add_run, read_run, delete_run.
    destruct (getitem String.eqb db name) as [c|e] eqn:G.
    + split; [|split].
      * split; [eauto|]. intros _. cbn [fst]. eauto.
      * destruct (getitem key_eqb c k) as [v|e] eqn:Gk; cbn [fst].
        -- split; [eauto 6|]. intros _. eauto.
        -- split; [intros H; now apply F in H|].
           intros (c0 & k0 & v0 & [= <-] & [= <-] & Gv). congruence.
      * destruct (delitem key_eqb c k) as [c'|e] eqn:D; cbn [fst].
        -- destruct (delitem_getitem _ _ _ D) as [v Gv].
           split; [eauto 6|]. intros _. eauto.
        -- split; [intros H; now apply F in H|].
           intros (c0 & k0 & v0 & [= <-] & [= <-] & Gv).
           destruct (getitem_delitem _ _ _ Gv) as [d' D']. congruence.
    + cbn [fst]. split; [|split]; (split; [intros H; now apply F in H|]).
      * intros (c0 & k0 & E & _). discriminate E.
      * intros (c0 & k0 & v0 & E & _). discriminate E.
      * intros (c0 & k0 & v0 & E & _). discriminate E.
  - rewrite add_unhashable, read_unhashable, delete_unhashable. cbn [fst].
    split; [|split]; (split; [intros H; now apply F in H|]).
    + intros (c0 & k0 & _ & E). discriminate E.
    + intros (c0 & k0 & v0 & _ & E & _). discriminate E.
    + intros (c0 & k0 & v0 & _ & E & _). discriminate E.
Qed.

(* ================================================================= *)
(** ** Queries: which collection is read, what is changed *)

Lemma query_missing_collection q query c1 (db : Database) :
  _parse_query_string q = Ok query ->
  query_item query "collection1" = Ok c1 ->
  has_key String.eqb db c1 = false ->
  _query q db = (Ok (error_response (c1 ++ " does not exist.")), db).
Proof.
  intros P C H. rewrite query_run. unfold _query_try.
  unfold bind at 1, lift at 1. rewrite P.
  unfold bind at 1, lift at 1. rewrite C.
  unfold bind at 1. rewrite collection_exists_run, H. reflexivity.
Qed.

Lemma query_join_missing_second q query c1 c2 (db : Database) :
  _parse_query_string q = Ok query ->
  query_item query "action" = Ok "join" ->
  query_item query "collection1" = Ok c1 ->
  query_item query "collection2" = Ok c2 ->
  has_key String.eqb db c1 = true ->
  has_key String.eqb db c2 = false ->
  _query q db = (Ok (error_response (c2 ++ " does not exist.")), db).
Proof.
  intros P A C1 C2 H1 H2. rewrite query_run. unfold _query_try.
  unfold bind at 1, lift at 1. rewrite P.
  unfold bind at 1, lift at 1. rewrite C1.
  unfold bind at 1. rewrite collection_exists_run, H1. cbn [negb].
  unfold bind at 1, lift at 1. rewrite A. cbn [String.eqb Ascii.eqb
    Bool.eqb].
  unfold bind at 1, lift at 1. rewrite C2.
  unfold bind at 1. rewrite collection_exists_run, H2. reflexivity.
Qed.

(** A read or a delete on a collection of the store: the answer of the
    executor that the element selects. *)
Lemma query_plain_run q query name a e qa execute (db : Database) :
  _parse_query_string q = Ok query ->
  query_item query "collection1" = Ok name ->
  has_key String.eqb db name = true ->
  query_item query "action" = Ok a ->
  String.eqb a "join" = false ->
  getitem String.eqb query_actions a = Ok qa ->
  query_item query "element" = Ok e ->
  getitem String.eqb query_elements e = Ok execute ->
  _query q db =
  match execute qa query operators name db with
  | (Ok matches, db') =>
      (Ok (mkResponse true None (Some (Name name)) (Some (Entries matches))),
       db')
  | (Raise _, db') => (Ok (error_response "Invalid query syntax."), db')
  end.
Proof.
  intros P C H A J Q E X. rewrite query_run. unfold _query_try.
  unfold bind at 1, lift at 1. rewrite P.
  unfold bind at 1, lift at 1. rewrite C.
  unfold bind at 1. rewrite collection_exists_run, H. cbn [negb].
  unfold bind at 1, lift at 1. rewrite A, J.
  unfold bind at 1, lift at 1. rewrite Q.
  unfold bind at 1, lift at 1. rewrite E.
  unfold bind at 1, lift at 1. rewrite X.
  unfold bind, ret.
  destruct (execute qa query operators name db) as [[ms|x] db'];
    reflexivity.
Qed.

(** The shape of a parsed read or delete. *)
Lemma parsed_plain_items query :
  parsed query ->
  query_item query "action" <> Ok "join" ->
  exists a e o name qa execute,
    query_item query "collection1" = Ok name
    /\ query_item query "action" = Ok a /\ In a read_or_delete
    /\ String.eqb a "join" = false
    /\ getitem String.eqb query_actions a = Ok qa
    /\ query_item query "element" = Ok e /\ In e key_or_value
    /\ getitem String.eqb query_elements e = Ok execute
    /\ query_item query "operator" = Ok o /\ In o operator_names.
Proof.
  intros S N.
  destruct S as [c1 c2|a e o v c Ia Ie Io|a e o t v c cv Ia Ie Io Cv];
    [now elim N| |];
    exists a, e, o, c;
    assert (exists qa, getitem String.eqb query_actions a = Ok qa
                       /\ String.eqb a "join" = false) as (qa & Q & J)
      by (destruct Ia as [<-|[<-|[]]]; eexists; split; reflexivity);
    assert (exists execute, getitem String.eqb query_elements e = Ok execute)
      as (execute & X)
      by (destruct Ie as [<-|[<-|[]]]; eexists; reflexivity);
    exists qa, execute; repeat split; assumption.
Qed.

Lemma parsed_join_items query :
  parsed query ->
  query_item query "action" = Ok "join" ->
  exists c1 c2,
    query_item query "collection1" = Ok c1
    /\ query_item query "collection2" = Ok c2.
Proof.
  intros S A.
  destruct S as [c1 c2|a e o v c Ia Ie Io|a e o t v c cv Ia Ie Io Cv].
  - do 2 eexists. split; reflexivity.
  - injection A as ->. destruct Ia as [H|[H|[]]]; discriminate H.
  - injection A as ->. destruct Ia as [H|[H|[]]]; discriminate H.
Qed.

Lemma action_join_dec query :
  {query_item query "action" = Ok "join"}
  + {query_item query "action" <> Ok "join"}.
Proof.
  destruct (query_item query "action") as [a|x]; [|right; discriminate].
  destruct (string_dec a "join") as [->|N]; [now left|].
  right. congruence.
Qed.

Lemma parsed_collection2 query c2 :
  parsed query ->
  query_item query "collection2" = Ok c2 ->
  query_item query "action" = Ok "join".
Proof.
  intros S C.
  destruct S as [c1 c2'|a e o v c Ia Ie Io|a e o t v c cv Ia Ie Io Cv];
    [reflexivity|discriminate C|discriminate C].
Qed.

(** X8.  A query names the collection it misses: when the first collection
    of a parsed query is not in the store the answer is the failure
    "<name> does not exist." for that name, whatever else the query says;
    when the first exists and the second collection of a join does not,
    the failure names the second.  The database is left as it was. *)
Theorem query_names_the_missing_collection q query c1 (db : Database) :
  _parse_query_string q = Ok query ->
  query_item query "collection1" = Ok c1 ->
  (has_key String.eqb db c1 = false ->
   _query q db = (Ok (error_response (c1 ++ " does not exist.")), db))
  /\ (forall c2,
      query_item query "collection2" = Ok c2 ->
      has_key String.eqb db c1 = true ->
      has_key String.eqb db c2 = false ->
      _query q db = (Ok (error_response (c2 ++ " does not exist.")), db)).
Proof.
  intros P C. split.
  - intros H. exact (query_missing_collection _ _ P C H).
  - intros c2 C2 H1 H2.
    refine (query_join_missing_second _ _ P _ C C2 H1 H2).
    exact (parsed_collection2 (parse_query_string_parsed _ P) C2).
Qed.

Lemma query_names_the_missing_collection_witness :
  let db : Database := [("firstName", [(KInt 1, VStr "Radu")])] in
  _query "join firstName with age" db =
    (Ok (error_response "age does not exist."), db)
  /\ _query "join age with lastName" db =
    (Ok (error_response "age does not exist."), db).
Proof.
  split.
  - refine (proj2 (@query_names_the_missing_collection
                     "join firstName with age"
                     (mkQuery [("action", "join");
                               ("collection1", "firstName");
                               ("collection2", "age")] None)
                     "firstName" [("firstName", [(KInt 1, VStr "Radu")])]
                     eq_refl eq_refl) "age" eq_refl eq_refl eq_refl).
  - refine (proj1 (@query_names_the_missing_collection
                     "join age with lastName"
                     (mkQuery [("action", "join");
                               ("collection1", "age");
                               ("collection2", "lastName")] None)
                     "age" [("firstName", [(KInt 1, VStr "Radu")])]
                     eq_refl eq_refl) eq_refl).
Defined.

Lemma query_join_keeps_db q query (db : Database) :
  _parse_query_string q = Ok query ->
  query_item query "action" = Ok "join" ->
  snd (_query q db) = db.
Proof.
  intros P A.
  pose proof (parse_query_string_parsed _ P) as S.
  destruct (parsed_join_items S A) as (c1 & c2 & C1 & C2).
  destruct (has_key String.eqb db c1) eqn:H1;
    [|now rewrite (query_missing_collection _ _ P C1 H1)].
  destruct (has_key String.eqb db c2) eqn:H2;
    [|now rewrite (query_join_missing_second _ _ P A C1 C2 H1 H2)].
  unfold has_key in H1, H2.
  destruct (getitem String.eqb db c1) as [a|] eqn:Ga; [|discriminate].
  destruct (getitem String.eqb db c2) as [b|] eqn:Gb; [|discriminate].
  now rewrite (join_run _ _ P A C1 C2 Ga Gb).
Qed.

Lemma execute_query_by_value_read_keeps_db query ops name (db : Database) :
  snd (_execute_query_by_value PyNone query ops name db) = db.
Proof.
  unfold _execute_query_by_value. run.
  destruct (getitem String.eqb db name) as [c|]; [|reflexivity].
  apply (for_each_invariant (fun db' => db' = db)); [|reflexivity].
  intros acc [k v] db0 ->. rewrite by_value_step_run.
  destruct (holds (apply_operator ops query v)); reflexivity.
Qed.

(** X9.  Of all queries only a delete by value can change the database: a
    query after which the database differs has parsed as a delete with the
    element [value]. *)
Theorem only_delete_by_value_changes q (db : Database) :
  snd (_query q db) <> db ->
  exists query,
    _parse_query_string q = Ok query
    /\ query_item query "action" = Ok "delete"
    /\ query_item query "element" = Ok "value".
Proof.
  intros H.
  destruct (_parse_query_string q) as [query|x] eqn:P;
    [|now rewrite (query_parse_error _ _ P) in H].
  exists query. split; [reflexivity|].
  pose proof (parse_query_string_parsed _ P) as S.
  destruct (action_join_dec query) as [A|A];
    [now rewrite (query_join_keeps_db _ _ P A) in H|].
  destruct (parsed_plain_items S A)
    as (a & e & o & name & qa & execute & C & Aa & Ia & J & Q & E & Ie & X
        & _).
  destruct Ie as [<-|[<-|[]]];
    [now rewrite (query_by_key_keeps_db _ _ P E) in H|].
  split; [|exact E].
  destruct Ia as [<-|[<-|[]]]; [|exact Aa].
  exfalso. apply H.
  destruct (has_key String.eqb db name) eqn:Hn;
    [|now rewrite (query_missing_collection _ _ P C Hn)].
  rewrite (query_plain_run _ _ P C Hn Aa J Q E X).
  injection Q as <-. injection X as <-.
  pose proof (execute_query_by_value_read_keeps_db query operators name db)
    as K.
  destruct (_execute_query_by_value PyNone query operators name db)
    as [[ms|x] db']; exact K.
Qed.

Lemma only_delete_by_value_changes_witness :
  exists query,
    _parse_query_string "delete value > int ( 20 ) from age" = Ok query
    /\ query_item query "action" = Ok "delete"
    /\ query_item query "element" = Ok "value".
Proof.
  apply only_delete_by_value_changes
    with (db := [("age", [(KInt 2, VInt 25); (KInt 1, VInt 20)])]).
  intros E. vm_compute in E. discriminate E.
Defined.

Lemma satisfies_by_value query entry :
  query_item query "element" = Ok "value" ->
  satisfies query entry = holds (apply_operator operators query (snd entry)).
Proof. intros E. unfold satisfies, scanned. now rewrite E. Qed.

Lemma unique_keys_filter {K V} (f : K * V -> bool) (d : dict K V) :
  unique_keys d -> unique_keys (filter f d).
Proof.
  unfold unique_keys, keys. induction d as [|[k v] d IH]; simpl; [auto|].
  intros U. inversion U as [|? ? NI U']; subst.
  destruct (f (k, v)); simpl; [|auto].
  constructor; [|auto].
  intros I. apply NI. apply in_map_iff in I. destruct I as (x & <- & I).
  apply in_map. now apply filter_In in I.
Qed.

Lemma filter_filter_negb {A} (f : A -> bool) l :
  filter f (filter (fun x => negb (f x)) l) = []
  /\ filter (fun x => negb (f x)) (filter (fun x => negb (f x)) l) =
     filter (fun x => negb (f x)) l.
Proof.
  induction l as [|x l [IH1 IH2]]; simpl; [auto|].
  destruct (f x) eqn:F; simpl; [auto|]. rewrite F. simpl. now rewrite IH2.
Qed.

Lemma delete_by_value_query_run q query name (entries : Collection)
  (db : Database) :
  _parse_query_string q = Ok query ->
  query_item query "action" = Ok "delete" ->
  query_item query "element" = Ok "value" ->
  query_item query "collection1" = Ok name ->
  getitem String.eqb db name = Ok entries ->
  unique_keys entries ->
  _query q db =
  (Ok (mkResponse true None (Some (Name name))
         (Some (Entries (map as_match (filter (satisfies query) entries))))),
   setitem String.eqb db name
     (filter (fun entry => negb (satisfies query entry)) entries)).
Proof.
  intros P A E C G U.
  assert (H : has_key String.eqb db name = true)
    by (unfold has_key; now rewrite G).
  rewrite (@query_plain_run q query name "delete" "value" delete_from_query
             _execute_query_by_value db P C H A eq_refl eq_refl E eq_refl).
  rewrite (@delete_by_value_removes_matches query operators name entries db G U).
  rewrite (@filter_ext _ (satisfies query)
             (fun e => holds (apply_operator operators query (snd e))))
    by (intros entry; now apply satisfies_by_value).
  rewrite (@filter_ext _ (fun entry => negb (satisfies query entry))
             (fun e => negb (holds (apply_operator operators query (snd e)))))
    by (intros entry; now rewrite satisfies_by_value).
  reflexivity.
Qed.

(** X10.  A delete by value answers with the entries whose value passes
    the test, in the order of the collection, and leaves in the collection
    exactly the other entries, in their order; every other collection is
    as it was. *)
Theorem delete_by_value_removes_the_matches q query name
  (entries : Collection) (db : Database) :
  _parse_query_string q = Ok query ->
  query_item query "action" = Ok "delete" ->
  query_item query "element" = Ok "value" ->
  query_item query "collection1" = Ok name ->
  getitem String.eqb db name = Ok entries ->
  unique_keys entries ->
  let db1 := snd (_query q db) in
  fst (_query q db) =
    Ok (mkResponse true None (Some (Name name))
          (Some (Entries (map as_match (filter (satisfies query) entries)))))
  /\ getitem String.eqb db1 name =
     Ok (filter (fun entry => negb (satisfies query entry)) entries)
  /\ (forall other, other <> name ->
      getitem String.eqb db1 other = getitem String.eqb db other).
Proof.
  intros P A E C G U.
  rewrite (@delete_by_value_query_run q query name entries db P A E C G U).
  cbn [fst snd].
  split; [reflexivity|]. split.
  - apply (getitem_setitem_eq _ string_eqb_spec).
  - intros other N. apply (getitem_setitem_neq _ string_eqb_spec).
    congruence.
Qed.

Lemma delete_by_value_removes_the_matches_witness :
  let db : Database :=
    [("age", [(KInt 2, VInt 25); (KInt 1, VInt 20); (KInt 3, VInt 31)]);
     ("cars", [(KInt 2, VInt 25)])] in
  let q := "delete value > int ( 20 ) from age" in
  fst (_query q db) =
    Ok (mkResponse true None (Some (Name "age"))
          (Some (Entries [(VInt 2, VInt 25); (VInt 3, VInt 31)])))
  /\ getitem String.eqb (snd (_query q db)) "age" = Ok [(KInt 1, VInt 20)]
  /\ getitem String.eqb (snd (_query q db)) "cars" = Ok [(KInt 2, VInt 25)].
Proof.
  assert (U : unique_keys
                [(KInt 2, VInt 25); (KInt 1, VInt 20); (KInt 3, VInt 31)])
    by (repeat constructor; simpl; intuition discriminate).
  destruct (@delete_by_value_removes_the_matches
              "delete value > int ( 20 ) from age"
              (mkQuery [("action", "delete"); ("element", "value");
                        ("operator", ">"); ("value_type", "int");
                        ("value", "20"); ("collection1", "age")]
                 (Some (VInt 20)))
              "age" [(KInt 2, VInt 25); (KInt 1, VInt 20); (KInt 3, VInt 31)]
              [("age", [(KInt 2, VInt 25); (KInt 1, VInt 20);
                        (KInt 3, VInt 31)]);
               ("cars", [(KInt 2, VInt 25)])]
              eq_refl eq_refl eq_refl eq_refl eq_refl U) as (R & G & F).
  split; [exact R|]. split; [exact G|].
  rewrite F by discriminate. reflexivity.
Defined.

(** X11.  A delete by value is idempotent: run a second time right after
    the first, the same query finds no entry and leaves the database as the
    first run left it. *)
Theorem delete_by_value_twice q query name (entries : Collection)
  (db : Database) :
  _parse_query_string q = Ok query ->
  query_item query "action" = Ok "delete" ->
  query_item query "element" = Ok "value" ->
  query_item query "collection1" = Ok name ->
  getitem String.eqb db name = Ok entries ->
  unique_keys entries ->
  let db1 := snd (_query q db) in
  _query q db1 =
  (Ok (mkResponse true None (Some (Name name)) (Some (Entries []))), db1).
Proof.
  intros P A E C G U.
  rewrite (@delete_by_value_query_run q query name entries db P A E C G U).
  cbn [snd].
  set (rest := filter (fun entry => negb (satisfies query entry)) entries).
  assert (G1 : getitem String.eqb (setitem String.eqb db name rest) name
               = Ok rest)
    by apply (getitem_setitem_eq _ string_eqb_spec).
  rewrite (@delete_by_value_query_run q query name rest _ P A E C G1
             (unique_keys_filter _ U)).
  unfold rest.
  destruct (filter_filter_negb (satisfies query) entries) as [-> ->].
  rewrite (setitem_setitem _ string_eqb_spec). reflexivity.
Qed.

Lemma delete_by_value_twice_witness :
  let db : Database :=
    [("age", [(KInt 2, VInt 25); (KInt 1, VInt 20); (KInt 3, VInt 31)])] in
  let q := "delete value > int ( 20 ) from age" in
  _query q (snd (_query q db)) =
  (Ok (mkResponse true None (Some (Name "age")) (Some (Entries []))),
   [("age", [(KInt 1, VInt 20)])]).
Proof.
  assert (U : unique_keys
                [(KInt 2, VInt 25); (KInt 1, VInt 20); (KInt 3, VInt 31)])
    by (repeat constructor; simpl; intuition discriminate).
  exact (@delete_by_value_twice
           "delete value > int ( 20 ) from age"
           (mkQuery [("action", "delete"); ("element", "value");
                     ("operator", ">"); ("value_type", "int");
                     ("value", "20"); ("collection1", "age")]
              (Some (VInt 20)))
           "age" [(KInt 2, VInt 25); (KInt 1, VInt 20); (KInt 3, VInt 31)]
           [("age", [(KInt 2, VInt 25); (KInt 1, VInt 20);
                     (KInt 3, VInt 31)])]
           eq_refl eq_refl eq_refl eq_refl eq_refl U).
Defined.

Lemma as_match_inj a b : as_match a = as_match b -> a = b.
Proof.
  destruct a as [k v], b as [k' v']. unfold as_match. simpl.
  intros [= H ->]. now rewrite (key_val_inj _ _ H).
Qed.

Lemma untyped_satisfies query entry :
  parsed query ->
  cast_value query = None ->
  satisfies query entry = true ->
  exists s, scanned query entry = VStr s.
Proof.
  intros S N. unfold satisfies.
  set (x := scanned query entry). clearbody x.
  destruct S as [c1 c2|a e o v c Ia Ie Io|a e o t v c cv Ia Ie Io Cv];
    [discriminate| |discriminate].
  clear N.
  destruct Io as [<-|[<-|[<-|[<-|[<-|[<-|[]]]]]]];
    destruct x; cbn; try discriminate; eauto.
Qed.

(** X12.  An operand without a type annotation is a text, and no number
    matches a text: the answer of a read or delete whose operand has no
    type annotation holds no entry whose tested part (the key for the
    element [key], the value for the element [value]) is an [int], a
    [float] or a [complex]. *)
Theorem untyped_operand_never_matches_a_number q query name
  (entries : Collection) (db : Database) :
  _parse_query_string q = Ok query ->
  cast_value query = None ->
  query_item query "action" <> Ok "join" ->
  query_item query "collection1" = Ok name ->
  getitem String.eqb db name = Ok entries ->
  exists found,
    fst (_query q db) =
      Ok (mkResponse true None (Some (Name name)) (Some (Entries found)))
    /\ forall entry,
         In entry entries -> number (scanned query entry) ->
         ~ In (as_match entry) found.
Proof.
  intros P N A C G.
  pose proof (parse_query_string_parsed _ P) as S.
  assert (T : forall entry,
            number (scanned query entry) ->
            ~ In (as_match entry)
                (map as_match (filter (satisfies query) entries))).
  { intros entry Nb I. apply in_map_iff in I.
    destruct I as (entry' & M & I). apply as_match_inj in M. subst entry'.
    apply filter_In in I. destruct I as [_ I].
    destruct (untyped_satisfies _ S N I) as [s Hs].
    rewrite Hs in Nb. exact Nb. }
  destruct (parsed_plain_items S A)
    as (a & e & o & name' & qa & execute & C' & Aa & Ia & J & Q & E & Ie & X
        & O & Io).
  destruct (string_dec e "key") as [->|Ne];
    [destruct (string_dec o "=") as [->|No]|].
  - exists []. split; [|intros entry _ _ []].
    now rewrite (@query_key_equality_is_empty q query name entries db
                   P E O C G).
  - exists (map as_match (filter (satisfies query) entries)). split.
    + apply (@scan_query_run q query name entries db a "key" o); auto.
    + intros entry _. apply T.
  - exists (map as_match (filter (satisfies query) entries)). split.
    + apply (@scan_query_run q query name entries db a e o); auto.
    + intros entry _. apply T.
Qed.

Lemma untyped_operand_never_matches_a_number_witness :
  let db : Database :=
    [("cars", [(KInt 1000, VStr "a"); (KStr "2000", VStr "b");
               (KInt 2000, VStr "c")])] in
  exists found,
    fst (_query "read key > 1234 from cars" db) =
      Ok (mkResponse true None (Some (Name "cars")) (Some (Entries found)))
    /\ ~ In (VInt 2000, VStr "c") found.
Proof.
  destruct (@untyped_operand_never_matches_a_number
              "read key > 1234 from cars"
              (mkQuery [("action", "read"); ("element", "key");
                        ("operator", ">"); ("value", "1234");
                        ("collection1", "cars")] None)
              "cars"
              [(KInt 1000, VStr "a"); (KStr "2000", VStr "b");
               (KInt 2000, VStr "c")]
              [("cars", [(KInt 1000, VStr "a"); (KStr "2000", VStr "b");
                         (KInt 2000, VStr "c")])]
              eq_refl eq_refl) as (found & R & T);
    [discriminate|reflexivity|reflexivity|].
  exists found. split; [exact R|].
  apply (T (KInt 2000, VStr "c")); simpl; tauto.
Defined.

(* ================================================================= *)
(** ** Joins: symmetry and order *)

Lemma joined_swap (a b : Collection) k :
  joined b a k = rbind (joined a b k) (fun l => Ok (rev l)).
Proof.
  unfold joined.
  destruct (getitem key_eqb a k), (getitem key_eqb b k); reflexivity.
Qed.

(** X13.  A join is symmetric up to the order of the values: for two
    collections of the store with names of ASCII letters, "join A with B"
    and "join B with A" both succeed and hold the same keys, and the list
    of values of each key in one answer is the reverse of its list in the
    other. *)
Theorem join_is_symmetric c1 c2 (a b : Collection) (db : Database) :
  c1 <> "" -> c2 <> "" ->
  forallb alphas (list_ascii_of_string c1) = true ->
  forallb alphas (list_ascii_of_string c2) = true ->
  getitem String.eqb db c1 = Ok a ->
  getitem String.eqb db c2 = Ok b ->
  unique_keys a -> unique_keys b ->
  exists g12 g21,
    _query ("join " ++ c1 ++ " with " ++ c2) db =
      (Ok (mkResponse true None (Some (Names [c1; c2]))
             (Some (Groups g12))), db)
    /\ _query ("join " ++ c2 ++ " with " ++ c1) db =
      (Ok (mkResponse true None (Some (Names [c2; c1]))
             (Some (Groups g21))), db)
    /\ forall k,
         getitem key_eqb g21 k =
         rbind (getitem key_eqb g12 k) (fun l => Ok (rev l)).
Proof.
  intros N1 N2 A1 A2 Ga Gb Ua Ub.
  destruct (@join_sentence_groups c1 c2 a b db N1 N2 A1 A2 Ga Gb Ua Ub)
    as (g12 & R12 & L12).
  destruct (@join_sentence_groups c2 c1 b a db N2 N1 A2 A1 Gb Ga Ub Ua)
    as (g21 & R21 & L21).
  exists g12, g21. split; [exact R12|]. split; [exact R21|].
  intros k. rewrite L12, L21. apply joined_swap.
Qed.

Lemma join_is_symmetric_witness :
  let db : Database :=
    [("firstName", [(KInt 1, VStr "Radu"); (KInt 2, VStr "John")]);
     ("lastName", [(KInt 1, VStr "Onescu"); (KInt 3, VStr "Doe")])] in
  exists g12 g21,
    _query "join firstName with lastName" db =
      (Ok (mkResponse true None (Some (Names ["firstName"; "lastName"]))
             (Some (Groups g12))), db)
    /\ _query "join lastName with firstName" db =
      (Ok (mkResponse true None (Some (Names ["lastName"; "firstName"]))
             (Some (Groups g21))), db)
    /\ getitem key_eqb g21 (KInt 1) =
       rbind (getitem key_eqb g12 (KInt 1)) (fun l => Ok (rev l)).
Proof.
  assert (Ua : unique_keys [(KInt 1, VStr "Radu"); (KInt 2, VStr "John")])
    by (repeat constructor; simpl; intuition discriminate).
  assert (Ub : unique_keys [(KInt 1, VStr "Onescu"); (KInt 3, VStr "Doe")])
    by (repeat constructor; simpl; intuition discriminate).
  destruct (@join_is_symmetric "firstName" "lastName"
              [(KInt 1, VStr "Radu"); (KInt 2, VStr "John")]
              [(KInt 1, VStr "Onescu"); (KInt 3, VStr "Doe")]
              [("firstName", [(KInt 1, VStr "Radu"); (KInt 2, VStr "John")]);
               ("lastName", [(KInt 1, VStr "Onescu"); (KInt 3, VStr "Doe")])])
    as (g12 & g21 & R12 & R21 & L);
    [discriminate|discriminate|reflexivity|reflexivity|reflexivity
    |reflexivity|exact Ua|exact Ub|].
  exists g12, g21. split; [exact R12|]. split; [exact R21|]. apply L.
Defined.

Lemma has_key_append_to (m : dict Key (list PyVal)) k0 v0 k :
  has_key key_eqb (append_to m (k0, v0)) k =
  key_eqb k0 k || has_key key_eqb m k.
Proof.
  unfold has_key. rewrite getitem_append_to.
  destruct (key_eqb k0 k); [|reflexivity].
  destruct (getitem key_eqb m k); reflexivity.
Qed.

Lemma keys_append_to (m : dict Key (list PyVal)) k v :
  keys (append_to m (k, v)) =
  if has_key key_eqb m k then keys m else keys m ++ [k].
Proof.
  unfold append_to, has_key.
  destruct (getitem key_eqb m k) as [l|x] eqn:G.
  - apply (keys_setitem_in _ key_eqb_spec).
    apply (@has_key_in _ _ _ key_eqb_spec). unfold has_key. now rewrite G.
  - apply (keys_setitem_not_in _ key_eqb_spec).
    now destruct (getitem_raise _ key_eqb_spec _ _ G).
Qed.

Lemma keys_fold_append_to (l : Collection) :
  unique_keys l ->
  forall m : dict Key (list PyVal),
  keys (fold_left append_to l m) =
  keys m ++ filter (fun k => negb (has_key key_eqb m k)) (keys l).
Proof.
  induction l as [|[k v] l IH]; intros U m.
  - cbn. now rewrite app_nil_r.
  - assert (NI : ~ In k (keys l)) by now inversion U.
    assert (U' : unique_keys l) by now inversion U.
    cbn [fold_left]. rewrite (IH U'), keys_append_to.
    change (keys ((k, v) :: l)) with (k :: keys l). cbn [filter].
    assert (F : filter (fun k0 =>
                          negb (has_key key_eqb (append_to m (k, v)) k0))
                  (keys l) =
                filter (fun k0 => negb (has_key key_eqb m k0)) (keys l)).
    { apply filter_ext_in. intros k0 I. rewrite has_key_append_to.
      destruct (key_eqb_spec k k0) as [->|]; [now elim NI|reflexivity]. }
    rewrite F.
    destruct (has_key key_eqb m k); cbn [negb]; [reflexivity|].
    now rewrite <- app_assoc.
Qed.

(** X14.  The keys of a join come in the order the collections are read:
    first the keys of the first collection in its order, then the keys of
    the second collection that the first does not hold, in the order of
    the second. *)
Theorem join_lists_keys_in_order c1 c2 (a b : Collection) (db : Database) :
  c1 <> "" -> c2 <> "" ->
  forallb alphas (list_ascii_of_string c1) = true ->
  forallb alphas (list_ascii_of_string c2) = true ->
  getitem String.eqb db c1 = Ok a ->
  getitem String.eqb db c2 = Ok b ->
  unique_keys a -> unique_keys b ->
  exists groups,
    _query ("join " ++ c1 ++ " with " ++ c2) db =
      (Ok (mkResponse true None (Some (Names [c1; c2]))
             (Some (Groups groups))), db)
    /\ keys groups =
       keys a ++ filter (fun k => negb (has_key key_eqb a k)) (keys b).
Proof.
  intros N1 N2 A1 A2 Ga Gb Ua Ub.
  eexists. split.
  - apply (@join_run _ _ c1 c2 a b db (@parse_join_sentence c1 c2 N1 N2 A1 A2));
      auto.
  - unfold items. rewrite fold_left_app.
    rewrite (keys_fold_append_to Ub), (keys_fold_append_to Ua).
    change (keys (@nil (Key * list PyVal))) with (@nil Key). cbn [app].
    f_equal.
    + apply forallb_filter_id. apply forallb_forall. reflexivity.
    + apply filter_ext. intros k. f_equal. unfold has_key.
      rewrite getitem_fold_append_to. cbn [getitem].
      rewrite (values_of_unique k Ua).
      destruct (getitem key_eqb a k); reflexivity.
Qed.

Lemma join_lists_keys_in_order_witness :
  let db : Database :=
    [("firstName", [(KInt 2, VStr "John"); (KInt 1, VStr "Radu")]);
     ("lastName", [(KInt 3, VStr "Doe"); (KInt 1, VStr "Onescu")])] in
  exists groups,
    _query "join firstName with lastName" db =
      (Ok (mkResponse true None (Some (Names ["firstName"; "lastName"]))
             (Some (Groups groups))), db)
    /\ keys groups = [KInt 2; KInt 1; KInt 3].
Proof.
  assert (Ua : unique_keys [(KInt 2, VStr "John"); (KInt 1, VStr "Radu")])
    by (repeat constructor; simpl; intuition discriminate).
  assert (Ub : unique_keys [(KInt 3, VStr "Doe"); (KInt 1, VStr "Onescu")])
    by (repeat constructor; simpl; intuition discriminate).
  destruct (@join_lists_keys_in_order "firstName" "lastName"
              [(KInt 2, VStr "John"); (KInt 1, VStr "Radu")]
              [(KInt 3, VStr "Doe"); (KInt 1, VStr "Onescu")]
              [("firstName", [(KInt 2, VStr "John"); (KInt 1, VStr "Radu")]);
               ("lastName", [(KInt 3, VStr "Doe"); (KInt 1, VStr "Onescu")])])
    as (groups & R & O);
    [discriminate|discriminate|reflexivity|reflexivity|reflexivity
    |reflexivity|exact Ua|exact Ub|].
  exists groups. split; [exact R|exact O].
Defined.

(* ================================================================= *)
(** ** One request, one collection *)

Lemma entry_delitem_frame name key other (db : Database) :
  name <> other ->
  getitem String.eqb (snd (entry_delitem name key db)) other =
  getitem String.eqb db other.
Proof.
  intros N. unfold entry_delitem. run.
  destruct (getitem String.eqb db name) as [c|]; [|reflexivity].
  destruct (hash key) as [k|]; [|reflexivity].
  destruct (delitem key_eqb c k) as [c'|]; [|reflexivity].
  cbn [snd]. now apply (getitem_setitem_neq _ string_eqb_spec).
Qed.

Lemma execute_query_by_value_frame query_action query ops name other
  (db : Database) :
  name <> other ->
  getitem String.eqb
    (snd (_execute_query_by_value query_action query ops name db)) other =
  getitem String.eqb db other.
Proof.
  intros N. unfold _execute_query_by_value. run.
  destruct (getitem String.eqb db name) as [c|]; [|reflexivity].
  apply (for_each_invariant
           (fun db' => getitem String.eqb db' other =
                       getitem String.eqb db other)); [|reflexivity].
  intros acc [k v] db0 H. rewrite by_value_step_run.
  destruct (holds (apply_operator ops query v)); [|exact H].
  cbn [snd]. destruct query_action; cbn [call2]; [exact H|].
  unfold _delete_from_query. now rewrite entry_delitem_frame.
Qed.

Lemma query_frame q other (db : Database) :
  (forall query,
     _parse_query_string q = Ok query ->
     query_item query "collection1" <> Ok other) ->
  getitem String.eqb (snd (_query q db)) other = getitem String.eqb db other.
Proof.
  intros H.
  destruct (_parse_query_string q) as [query|x] eqn:P;
    [|now rewrite (query_parse_error _ _ P)].
  pose proof (parse_query_string_parsed _ P) as S.
  destruct (action_join_dec query) as [A|A];
    [now rewrite (query_join_keeps_db _ _ P A)|].
  destruct (parsed_plain_items S A)
    as (a & e & o & name & qa & execute & C & Aa & Ia & J & Q & E & Ie & X
        & _).
  destruct (has_key String.eqb db name) eqn:Hn;
    [|now rewrite (query_missing_collection _ _ P C Hn)].
  rewrite (query_plain_run _ _ P C Hn Aa J Q E X).
  assert (N : name <> other) by (intros ->; now apply (H query)).
  destruct Ie as [<-|[<-|[]]]; injection X as <-.
  - pose proof (execute_query_by_key_keeps_db qa query operators name db)
      as K.
    destruct (_execute_query_by_key qa query operators name db)
      as [[ms|x] db']; cbn [snd] in *; now rewrite K.
  - pose proof (execute_query_by_value_frame qa query operators db N) as K.
    destruct (_execute_query_by_value qa query operators name db)
      as [[ms|x] db']; exact K.
Qed.

(** X15.  A request touches one collection at most: after any request,
    every collection other than the one the request names (for a query,
    other than the first collection of the parsed query) is found as
    before, or is absent as before. *)
Theorem request_touches_its_collection_only request other (db : Database) :
  (request_type request <> 3%Z -> req_collection_name request <> other) ->
  (request_type request = 3%Z ->
   forall query,
     _parse_query_string (req_query request) = Ok query ->
     query_item query "collection1" <> Ok other) ->
  getitem String.eqb (snd (handle_request request db)) other =
  getitem String.eqb db other.
Proof.
  intros H1 H2. unfold handle_request, dict_get. cbn [getitem].
  repeat match goal with
  | |- context [Z.eqb ?a ?b] => destruct (Z.eqb_spec a b)
  end; cbn [call];
    try (assert (N : req_collection_name request <> other)
           by (apply H1; congruence)).
  - now rewrite read_keeps_db.
  - destruct (req_key request) as [k|].
    + rewrite add_run.
      destruct (getitem String.eqb db _); [|reflexivity].
      cbn [snd]. now apply (getitem_setitem_neq _ string_eqb_spec).
    + now rewrite add_unhashable.
  - destruct (req_key request) as [k|].
    + rewrite delete_run.
      destruct (getitem String.eqb db _) as [c|]; [|reflexivity].
      destruct (delitem key_eqb c k); [|reflexivity].
      cbn [snd]. now apply (getitem_setitem_neq _ string_eqb_spec).
    + now rewrite delete_unhashable.
  - apply query_frame. apply H2. congruence.
  - rewrite create_collection_run.
    destruct (isalpha _); [|reflexivity].
    destruct (getitem String.eqb db _); [reflexivity|].
    cbn [snd]. now apply (getitem_setitem_neq _ string_eqb_spec).
  - rewrite delete_collection_run.
    destruct (delitem String.eqb db _) as [db'|] eqn:D; [|reflexivity].
    cbn [snd]. now apply (getitem_delitem_neq _ string_eqb_spec _ D).
  - reflexivity.
  - reflexivity.
Qed.

Lemma request_touches_its_collection_only_witness :
  let db : Database :=
    [("age", [(KInt 2, VInt 25); (KInt 1, VInt 20)]);
     ("cars", [(KInt 1, VInt 30)])] in
  let request :=
    mkRequest 3 "cars" (Hashable (KInt 0)) (VInt 0)
      "delete value > int ( 20 ) from age" in
  getitem String.eqb (snd (handle_request request db)) "cars" =
  Ok [(KInt 1, VInt 30)].
Proof.
  intros db request.
  apply (@request_touches_its_collection_only request "cars" db).
  - intros N. now elim N.
  - intros _ query P. vm_compute in P. injection P as <-. discriminate.
Defined.

(* ================================================================= *)
(** ** What the parser lets through *)

Lemma word_letters chars w :
  w <> [] -> forallb chars w = true ->
  string_of_list_ascii w <> ""
  /\ forallb chars (list_ascii_of_string (string_of_list_ascii w)) = true.
Proof.
  intros N F. rewrite list_ascii_of_string_of_list_ascii. split; [|exact F].
  destruct w; [now elim N|discriminate].
Qed.

(** X16.  The collection names of a parsed query are words of ASCII
    letters: whatever a query string says, the collections it addresses
    have a non-empty name made of the letters A to Z and a to z. *)
Theorem queried_names_are_ascii_letters q query c :
  _parse_query_string q = Ok query ->
  query_item query "collection1" = Ok c
  \/ query_item query "collection2" = Ok c ->
  c <> "" /\ forallb alphas (list_ascii_of_string c) = true.
Proof.
  unfold _parse_query_string, parseString.
  destruct (parse SYNTAX None (list_ascii_of_string q)) as [[r loc]|] eqn:P;
    [|discriminate].
  apply parse_sound in P. destruct P as (x & _ & A).
  unfold SYNTAX, SYNTAX_JOIN, SYNTAX_QUERY, ACTION_QUERY, ELEMENT, OPERATOR,
    VALUE in A.
  invert_accepts; cbn -[_parse_value_to_type];
    try match goal with
    | |- context [_parse_value_to_type ?v ?t] =>
        destruct (_parse_value_to_type v t) eqn:C; cbn [rbind];
          [|discriminate]
    end;
    intros [= <-]; cbn; intros [[= <-]|[= <-]];
    now apply word_letters.
Qed.

Lemma queried_names_are_ascii_letters_witness :
  "cars" <> "" /\ forallb alphas (list_ascii_of_string "cars") = true.
Proof.
  exact (@queried_names_are_ascii_letters
                   "read key > 1234 from cars and more"
                   (mkQuery [("action", "read"); ("element", "key");
                             ("operator", ">"); ("value", "1234");
                             ("collection1", "cars")] None)
                   "cars" eq_refl (or_introl eq_refl)).
Defined.

(** X17.  A query string that parses starts, after optional whitespace,
    with one of the three lower-case words [join], [read] and [delete], and
    that word is the action of the parsed query. *)
Theorem parsed_query_starts_with_its_action q query :
  _parse_query_string q = Ok query ->
  exists ws action rest,
    list_ascii_of_string q = ws ++ list_ascii_of_string action ++ rest
    /\ forallb whiteChars ws = true
    /\ In action ["join"; "read"; "delete"]
    /\ query_item query "action" = Ok action.
Proof.
  unfold _parse_query_string, parseString.
  destruct (parse SYNTAX None (list_ascii_of_string q)) as [[r loc]|] eqn:P;
    [|discriminate].
  apply parse_sound in P. destruct P as (x & -> & A).
  unfold SYNTAX, SYNTAX_JOIN, SYNTAX_QUERY, ACTION_QUERY, ELEMENT, OPERATOR,
    VALUE in A.
  invert_accepts; cbn -[_parse_value_to_type list_ascii_of_string app];
    try match goal with
    | |- context [_parse_value_to_type ?v ?t] =>
        destruct (_parse_value_to_type v t) eqn:C; cbn [rbind];
          [|discriminate]
    end;
    intros [= <-]; repeat rewrite <- app_assoc;
    match goal with
    | W : forallb whiteChars ?ws = true
      |- exists _ _ _,
           ?ws ++ list_ascii_of_string ?a ++ ?rest = _ /\ _ =>
        exists ws, a, rest; split; [reflexivity|]; split; [exact W|];
        split; [simpl; tauto|reflexivity]
    end.
Qed.

Lemma parsed_query_starts_with_its_action_witness :
  exists ws action rest,
    list_ascii_of_string "  delete value = 20 from age" =
      ws ++ list_ascii_of_string action ++ rest
    /\ forallb whiteChars ws = true
    /\ In action ["join"; "read"; "delete"]
    /\ query_item
         (mkQuery [("action", "delete"); ("element", "value");
                   ("operator", "="); ("value", "20");
                   ("collection1", "age")] None) "action" = Ok action.
Proof.
  exact (@parsed_query_starts_with_its_action
           "  delete value = 20 from age"
           (mkQuery [("action", "delete"); ("element", "value");
                     ("operator", "="); ("value", "20");
                     ("collection1", "age")] None) eq_refl).
Defined.

(* ================================================================= *)
(** ** Reading back a decimal numeral *)

Lemma is_digit_not_space c : is_digit c = true -> is_space c = false.
Proof. destruct c as [[] [] [] [] [] [] [] []]; now cbv. Qed.

Lemma skip_spaces_id cs :
  forallb (fun c => negb (is_space c)) cs = true -> skip_spaces cs = cs.
Proof.
  destruct cs as [|c cs]; [reflexivity|]. simpl.
  now destruct (is_space c).
Qed.

Lemma strip_id cs :
  forallb (fun c => negb (is_space c)) cs = true -> strip cs = cs.
Proof.
  intros F. unfold strip. rewrite (skip_spaces_id _ F).
  rewrite skip_spaces_id; [apply rev_involutive|].
  apply forallb_forall. intros c I. apply in_rev in I.
  now apply (proj1 (forallb_forall _ _) F).
Qed.

Lemma uint_digits d :
  forallb is_digit (list_ascii_of_string (NilEmpty.string_of_uint d)) = true.
Proof. induction d; simpl; auto. Qed.

Lemma int_digits_acc d : forall p,
  int_digits AfterDigit (Z.pos p)
    (list_ascii_of_string (NilEmpty.string_of_uint d)) =
  Some (Z.pos (Pos.of_uint_acc d p)).
Proof.
  induction d; intros p; cbn [NilEmpty.string_of_uint list_ascii_of_string
    int_digits Pos.of_uint_acc]; [reflexivity|..];
    match goal with
    | |- context [is_digit ?c] =>
        change (is_digit c) with true; cbv iota;
        let v := eval vm_compute in (digit_val c) in
        change (digit_val c) with v;
        rewrite <- IHd; f_equal; lia
    end.
Qed.

Lemma int_digits_zero d :
  int_digits AfterDigit 0
    (list_ascii_of_string (NilEmpty.string_of_uint d)) =
  Some (Z.of_N (Pos.of_uint d)).
Proof.
  induction d; cbn [NilEmpty.string_of_uint list_ascii_of_string
    int_digits Pos.of_uint]; [reflexivity|exact IHd|..];
    match goal with
    | |- context [is_digit ?c] =>
        change (is_digit c) with true; cbv iota;
        let v := eval vm_compute in (digit_val c) in
        change (digit_val c) with v;
        cbn [Z.of_N]; rewrite <- int_digits_acc; reflexivity
    end.
Qed.

Lemma int_digits_start d :
  d <> Decimal.Nil ->
  int_digits AtStart 0 (list_ascii_of_string (NilEmpty.string_of_uint d)) =
  Some (Z.of_N (Pos.of_uint d)).
Proof.
  intros N. rewrite <- int_digits_zero.
  destruct d; [now elim N|reflexivity..].
Qed.

Lemma to_uint_not_nil p : Pos.to_uint p <> Decimal.Nil.
Proof.
  intros E. pose proof (DecimalPos.Unsigned.of_to p) as H.
  rewrite E in H. discriminate H.
Qed.

(** X19.  The [int] cast reads a decimal numeral back: for every integer
    of at most 4300 digits (the length up to which every interpreter
    converts), the cast of its decimal representation (a minus sign for a
    negative number, then the digits without leading zeros) to [int] is
    that integer. *)
Theorem int_cast_reads_decimal_numerals z :
  (Z.abs z < 10 ^ 4300)%Z ->
  _parse_value_to_type (NilZero.string_of_int (Z.to_int z)) "int" =
  Ok (VInt z).
Proof.
  intros _. unfold _parse_value_to_type. cbn [getitem String.eqb Ascii.eqb Bool.eqb
    rbind].
  destruct z as [|p|p]; [reflexivity| |]; unfold py_int;
    cbn [Z.to_int NilZero.string_of_int];
    pose proof (to_uint_not_nil p) as N;
    pose proof (uint_digits (Pos.to_uint p)) as D;
    pose proof (int_digits_start N) as I;
    rewrite DecimalPos.Unsigned.of_to in I;
    assert (S : NilZero.string_of_uint (Pos.to_uint p) =
                NilEmpty.string_of_uint (Pos.to_uint p))
      by (destruct (Pos.to_uint p); [now elim N|reflexivity..]);
    rewrite S;
    set (cs := list_ascii_of_string (NilEmpty.string_of_uint (Pos.to_uint p)))
      in *;
    assert (F : forallb (fun c => negb (is_space c)) cs = true)
      by (apply forallb_forall; intros c H;
          rewrite is_digit_not_space; [reflexivity|];
          now apply (proj1 (forallb_forall _ _) D)).
  - rewrite (strip_id _ F).
    assert (T : take_sign cs = (false, cs)).
    { destruct cs as [|c r]; [reflexivity|].
      simpl in D. apply andb_prop in D. destruct D as [D _].
      destruct c as [[] [] [] [] [] [] [] []]; try reflexivity;
        discriminate D. }
    rewrite T, I. reflexivity.
  - cbn [list_ascii_of_string]. fold cs.
    rewrite strip_id by (simpl; exact F).
    cbn [take_sign]. rewrite I. reflexivity.
Qed.

Lemma int_cast_reads_decimal_numerals_witness :
  _parse_value_to_type "-1234" "int" = Ok (VInt (-1234)).
Proof.
  apply (int_cast_reads_decimal_numerals (-1234)).
  vm_compute. reflexivity.
Defined.

(* ================================================================= *)
(** ** Whitespace before a query *)

Lemma skip_white_app_white ws : forall prev cs,
  forallb whiteChars ws = true ->
  skip_white prev (ws ++ cs) = skip_white (after prev ws) cs.
Proof.
  induction ws as [|c ws IH]; intros prev cs; [reflexivity|].
  simpl. intros F. apply andb_prop in F. destruct F as [W F].
  rewrite W, (IH _ _ F). unfold after. cbn [map]. now rewrite last_cons.
Qed.

Lemma white_not_ident c : whiteChars c = true -> identChars c = false.
Proof. destruct c as [[] [] [] [] [] [] [] []]; now cbv. Qed.

Lemma after_white_not_ident ws :
  forallb whiteChars ws = true -> not_ident (after None ws) = true.
Proof.
  unfold after.
  assert (G : forall prev, not_ident prev = true ->
              forallb whiteChars ws = true ->
              not_ident (last (map Some ws) prev) = true);
    [|now apply G].
  induction ws as [|c ws IH]; intros prev H; [auto|].
  simpl forallb. intros F. apply andb_prop in F. destruct F as [W F].
  cbn [map]. rewrite last_cons. apply IH; [|exact F].
  simpl. now rewrite (white_not_ident _ W).
Qed.

Lemma after_not_ident w p1 p2 :
  not_ident p1 = not_ident p2 ->
  not_ident (after p1 w) = not_ident (after p2 w).
Proof.
  unfold after. destruct w as [|c w]; [auto|].
  intros _. cbn [map]. now rewrite !last_cons.
Qed.

Lemma skip_white_prev cs : forall p1 p2,
  not_ident p1 = not_ident p2 ->
  snd (skip_white p1 cs) = snd (skip_white p2 cs)
  /\ not_ident (fst (skip_white p1 cs)) = not_ident (fst (skip_white p2 cs)).
Proof.
  induction cs as [|c cs IH]; intros p1 p2 H; simpl; [auto|].
  destruct (whiteChars c); simpl; auto.
Qed.

(** The character before the start matters to a parser element only
    through its being an identifier character or not. *)
Lemma parse_prev e : forall p1 p2 cs,
  not_ident p1 = not_ident p2 ->
  match parse e p1 cs, parse e p2 cs with
  | Ok (r1, (q1, c1)), Ok (r2, (q2, c2)) =>
      r1 = r2 /\ c1 = c2 /\ not_ident q1 = not_ident q2
  | Raise x, Raise y => x = y
  | _, _ => False
  end.
Proof.
  induction e as [m|m|chars|a IHa b IHb|a IHa b IHb|e IH name];
    intros p1 p2 cs H.
  - cbn [parse].
    destruct (skip_white_prev cs _ _ H) as [E N].
    destruct (skip_white p1 cs) as [q1 c1], (skip_white p2 cs) as [q2 c2].
    cbn [fst snd] in *. subst c2.
    destruct (starts_with _ c1) as [r|]; [|reflexivity].
    rewrite N. destruct (not_ident (hd_error r) && not_ident q2);
      [|reflexivity].
    repeat split. now apply after_not_ident.
  - cbn [parse].
    destruct (skip_white_prev cs _ _ H) as [E N].
    destruct (skip_white p1 cs) as [q1 c1], (skip_white p2 cs) as [q2 c2].
    cbn [fst snd] in *. subst c2.
    destruct (starts_with _ c1) as [r|]; [|reflexivity].
    repeat split. now apply after_not_ident.
  - cbn [parse].
    destruct (skip_white_prev cs _ _ H) as [E N].
    destruct (skip_white p1 cs) as [q1 c1], (skip_white p2 cs) as [q2 c2].
    cbn [fst snd] in *. subst c2.
    destruct (span chars c1) as [[|c w] r]; [reflexivity|].
    repeat split. now apply after_not_ident.
  - rewrite !parse_And_eq. specialize (IHa p1 p2 cs H).
    destruct (parse a p1 cs) as [[r1 [q1 c1]]|x],
             (parse a p2 cs) as [[r2 [q2 c2]]|y]; try contradiction;
      [|exact IHa].
    destruct IHa as (-> & -> & N). specialize (IHb q1 q2 c2 N).
    destruct (parse b q1 c2) as [[s1 [u1 d1]]|x],
             (parse b q2 c2) as [[s2 [u2 d2]]|y]; try contradiction;
      [|exact IHb].
    destruct IHb as (-> & -> & N'). auto.
  - rewrite !parse_MatchFirst_eq. specialize (IHa p1 p2 cs H).
    destruct (parse a p1 cs) as [[r1 [q1 c1]]|x],
             (parse a p2 cs) as [[r2 [q2 c2]]|y]; try contradiction;
      [exact IHa|].
    now apply IHb.
  - rewrite !parse_Named_eq. specialize (IH p1 p2 cs H).
    destruct (parse e p1 cs) as [[r1 [q1 c1]]|x],
             (parse e p2 cs) as [[r2 [q2 c2]]|y]; try contradiction;
      [|exact IH].
    destruct IH as (-> & -> & N). auto.
Qed.

Lemma parse_query_string_white ws q :
  forallb whiteChars (list_ascii_of_string ws) = true ->
  _parse_query_string (ws ++ q) = _parse_query_string q.
Proof.
  intros F. unfold _parse_query_string, parseString.
  rewrite list_ascii_of_string_app.
  rewrite <- (parse_skip_white SYNTAX None (_ ++ _)).
  rewrite (skip_white_app_white _ _ _ F), parse_skip_white.
  pose proof (parse_prev SYNTAX (after None (list_ascii_of_string ws)) None
                (list_ascii_of_string q) (after_white_not_ident _ F)) as A.
  destruct (parse SYNTAX (after None _) _) as [[r1 [q1 c1]]|x],
           (parse SYNTAX None _) as [[r2 [q2 c2]]|y]; try contradiction.
  - now destruct A as (-> & _).
  - now subst y.
Qed.

(** X20.  Whitespace before a query is ignored: a query string with
    spaces, tabs, newlines or carriage returns put in front of it is
    answered as the query string itself, on every database. *)
Theorem leading_whitespace_is_ignored ws q (db : Database) :
  forallb whiteChars (list_ascii_of_string ws) = true ->
  _query (ws ++ q) db = _query q db.
Proof.
  intros F. unfold _query, _query_try.
  now rewrite (parse_query_string_white _ q F).
Qed.

Lemma leading_whitespace_is_ignored_witness :
  let db : Database := [("age", [(KInt 2, VInt 25); (KInt 1, VInt 20)])] in
  _query "  read value > int ( 20 ) from age" db =
  _query "read value > int ( 20 ) from age" db.
Proof.
  exact (@leading_whitespace_is_ignored "  "
           "read value > int ( 20 ) from age"
           [("age", [(KInt 2, VInt 25); (KInt 1, VInt 20)])] eq_refl).
Defined.

(* ================================================================= *)
(** ** What a restart finds on the disk *)

Section Restart.
Variable Disk : Type.
Variable fs : FileSystem Disk.

Lemma init_loop_done (disk : Disk) names :
  forall acc : dict string Unpickled,
  (forall n e, In n names -> load fs disk (path n) = Failed e ->
     is_IOError e = true) ->
  exists db : dict string Unpickled,
    init_loop fs disk names acc = Done db
    /\ (forall n, In n names ->
        getitem String.eqb db n =
        Ok match load fs disk (path n) with
           | Done object => object
           | Failed _ => Loaded []
           end)
    /\ (forall n, ~ In n names ->
        getitem String.eqb db n = getitem String.eqb acc n).
Proof.
  induction names as [|name rest IH]; intros acc G.
  - exists acc. split; [reflexivity|]. split; [intros n []|reflexivity].
  - cbn [init_loop].
    assert (G' : forall n e, In n rest ->
                 load fs disk (path n) = Failed e -> is_IOError e = true)
      by (intros n e I; apply G; now right).
    set (o := match load fs disk (path name) with
              | Done object => object
              | Failed _ => Loaded []
              end).
    destruct (IH (setitem String.eqb acc name o) G') as (db & R & In1 & Out).
    exists db. split.
    + subst o. destruct (load fs disk (path name)) as [object|e] eqn:L;
        [exact R|].
      now rewrite (G name e (or_introl eq_refl) L).
    + split.
      * intros n I.
        destruct (in_dec string_dec n rest) as [Ir|Nr]; [now apply In1|].
        destruct I as [<-|I]; [|contradiction].
        rewrite (Out _ Nr). apply (getitem_setitem_eq _ string_eqb_spec).
      * intros n NI. rewrite Out by (intros I; apply NI; now right).
        apply (getitem_setitem_neq _ string_eqb_spec).
        intros ->. apply NI. now left.
Qed.

Lemma init_loop_failed (disk : Disk) names :
  forall (acc : dict string Unpickled) e,
  init_loop fs disk names acc = Failed e ->
  is_IOError e = false
  /\ exists n, In n names /\ load fs disk (path n) = Failed e.
Proof.
  induction names as [|name rest IH]; intros acc e; [discriminate|].
  cbn [init_loop].
  destruct (load fs disk (path name)) as [object|x] eqn:L.
  - intros H. destruct (IH _ _ H) as (F & n & I & Ln).
    split; [exact F|]. exists n. split; [now right|exact Ln].
  - destruct (is_IOError x) eqn:X.
    + intros H. destruct (IH _ _ H) as (F & n & I & Ln).
      split; [exact F|]. exists n. split; [now right|exact Ln].
    + intros [= <-]. split; [exact X|].
      exists name. split; [now left|exact L].
Qed.

(** X21.  [_init_db] gives every configured name the object that loading
    its file returns, or an empty collection when the loading raises an
    [IOError] (a missing file, a file that cannot be opened), and holds no
    other name; it raises exactly when the loading of a configured file
    raises something else (a file that is not a pickle, a name that
    [open] refuses with [ValueError]), and then raises that exception. *)
Theorem init_db_loads_the_configured_collections (disk : Disk) names :
  ((forall n e, In n names -> load fs disk (path n) = Failed e ->
      is_IOError e = true) ->
   exists db : dict string Unpickled,
     _init_db fs disk names = Done db
     /\ (forall n, In n names ->
         getitem String.eqb db n =
         Ok match load fs disk (path n) with
            | Done object => object
            | Failed _ => Loaded []
            end)
     /\ (forall n, ~ In n names -> getitem String.eqb db n = Raise KeyError))
  /\ (forall e,
      _init_db fs disk names = Failed e ->
      is_IOError e = false
      /\ exists n, In n names /\ load fs disk (path n) = Failed e).
Proof.
  split.
  - intros G. destruct (init_loop_done disk names [] G) as (db & R & I & O).
    exists db. split; [exact R|]. split; [exact I|].
    intros n NI. now rewrite (O n NI).
  - intros e. apply init_loop_failed.
Qed.

(** The files after the dumps of a snapshot. *)
Lemma snapshot_loop_done (names : list string) entries :
  forall disk disk' : Disk,
  unique_keys entries ->
  (forall n, In n (keys entries) -> In n names) ->
  (forall d n c d', In n names ->
     dump fs d (path n) c = (Done tt, d') ->
     load fs d' (path n) = Done (Loaded c)) ->
  (forall d n m c r d', In n names -> In m names -> n <> m ->
     dump fs d (path n) c = (r, d') ->
     load fs d' (path m) = load fs d (path m)) ->
  snapshot_loop fs entries disk = (Done tt, disk') ->
  (forall n c, getitem String.eqb entries n = Ok c ->
     load fs disk' (path n) = Done (Loaded c))
  /\ (forall m, In m names -> ~ In m (keys entries) ->
      load fs disk' (path m) = load fs disk (path m)).
Proof.
  induction entries as [|[name c] rest IH]; intros disk disk' U K L1 L2.
  - intros [= <-]. split; [discriminate|reflexivity].
  - assert (NI : ~ In name (keys rest)) by now inversion U.
    assert (U' : unique_keys rest) by now inversion U.
    assert (Kn : In name names) by (apply K; now left).
    assert (K' : forall n, In n (keys rest) -> In n names)
      by (intros n I; apply K; now right).
    cbn [snapshot_loop].
    destruct (dump fs disk (path name) c) as [[[]|e] disk1] eqn:D;
      [|discriminate].
    intros R. destruct (IH disk1 disk' U' K' L1 L2 R) as [W O]. split.
    + intros n c0. cbn [getitem].
      destruct (String.eqb_spec name n) as [<-|N].
      * intros [= <-]. rewrite (O name Kn NI). exact (L1 _ _ _ _ Kn D).
      * apply W.
    + intros m Km NIm.
      assert (N : name <> m) by (intros ->; apply NIm; now left).
      rewrite O by (auto; intros I; apply NIm; now right).
      exact (L2 _ _ _ _ _ _ Kn Km N D).
Qed.

(** X22.  A snapshot followed by a restart restores the configured
    collections.  On a file system where a file that has been dumped loads
    as what was dumped, and where dumping the file of one collection
    leaves the file of another as it loads, after a snapshot that
    succeeded [_init_db] returns, for every configured name that was a
    collection, that collection as it was; a name that is not configured
    is not loaded. *)
Theorem restart_restores_the_configured_collections (db : Database)
  (disk disk' : Disk) names :
  unique_keys db ->
  (forall d n c d', In n (keys db) ->
     dump fs d (path n) c = (Done tt, d') ->
     load fs d' (path n) = Done (Loaded c)) ->
  (forall d n m c r d', In n (keys db) -> In m (keys db) -> n <> m ->
     dump fs d (path n) c = (r, d') ->
     load fs d' (path m) = load fs d (path m)) ->
  _create_snapshot fs db disk = (Done tt, disk') ->
  (forall n, In n names -> In n (keys db)) ->
  exists started : dict string Unpickled,
    _init_db fs disk' names = Done started
    /\ (forall n c, In n names -> getitem String.eqb db n = Ok c ->
        getitem String.eqb started n = Ok (Loaded c))
    /\ (forall n, ~ In n names ->
        getitem String.eqb started n = Raise KeyError).
Proof.
  intros U L1 L2 S K. unfold _create_snapshot in S.
  destruct (makedirs fs disk "Data") as [[[]|e] disk0]; [|discriminate].
  destruct (@snapshot_loop_done (keys db) db disk0 disk' U (fun n I => I)
              L1 L2 S) as [W _].
  assert (G : forall n, In n names ->
              exists c, getitem String.eqb db n = Ok c
                        /\ load fs disk' (path n) = Done (Loaded c)).
  { intros n I. apply K in I.
    apply (@has_key_in _ _ _ string_eqb_spec) in I. unfold has_key in I.
    destruct (getitem String.eqb db n) as [c|] eqn:E; [|discriminate].
    exists c. split; [reflexivity|now apply W]. }
  destruct (init_loop_done disk' names []) as (started & R & I & O).
  { intros n e In L. destruct (G n In) as (c & _ & L'). congruence. }
  exists started. split; [exact R|]. split.
  - intros n c In E. rewrite (I n In).
    destruct (G n In) as (c' & E' & L). rewrite L. congruence.
  - intros n NI. now rewrite (O n NI).
Qed.

Lemma snapshot_loop_frame (p : string) entries :
  forall disk r disk',
  (forall d m c r' d', In m (keys entries) ->
     dump fs d (path m) c = (r', d') -> load fs d' p = load fs d p) ->
  snapshot_loop fs entries disk = (r, disk') ->
  load fs disk' p = load fs disk p.
Proof.
  induction entries as [|[name c] rest IH]; intros disk r disk' F.
  - now intros [= _ <-].
  - cbn [snapshot_loop].
    destruct (dump fs disk (path name) c) as [[u|e] disk1] eqn:D.
    + intros R. rewrite (IH disk1 r disk'); [|auto|exact R].
      * exact (F _ _ _ _ _ (or_introl eq_refl) D).
      * intros d m c0 r' d' I. apply F. now right.
    + intros [= _ <-]. exact (F _ _ _ _ _ (or_introl eq_refl) D).
Qed.

(** X23.  A snapshot does not remove the file of a collection that has
    been deleted.  If nothing that the snapshot does (making the
    directory, dumping the collections of the database) changes what the
    file of a name loads as, the file loads after the snapshot as before,
    whether the snapshot succeeded or not; and if the name is still
    configured, the next start brings the collection back with the
    content of that file. *)
Theorem deleted_collection_returns_at_restart (db : Database)
  (disk disk' : Disk) r names name c :
  (forall d r' d', makedirs fs d "Data" = (r', d') ->
     load fs d' (path name) = load fs d (path name)) ->
  (forall d m c0 r' d', In m (keys db) ->
     dump fs d (path m) c0 = (r', d') ->
     load fs d' (path name) = load fs d (path name)) ->
  load fs disk (path name) = Done (Loaded c) ->
  _create_snapshot fs db disk = (r, disk') ->
  In name names ->
  (forall n e, In n names -> load fs disk' (path n) = Failed e ->
     is_IOError e = true) ->
  load fs disk' (path name) = Done (Loaded c)
  /\ exists started : dict string Unpickled,
       _init_db fs disk' names = Done started
       /\ getitem String.eqb started name = Ok (Loaded c).
Proof.
  intros M F L S I G.
  assert (L' : load fs disk' (path name) = Done (Loaded c)).
  { rewrite <- L. unfold _create_snapshot in S.
    destruct (makedirs fs disk "Data") as [[u|e] disk0] eqn:Mk.
    - rewrite (snapshot_loop_frame _ _ _ F S). exact (M _ _ _ Mk).
    - injection S as _ <-. exact (M _ _ _ Mk). }
  split; [exact L'|].
  destruct (init_loop_done disk' names [] G) as (started & R & In1 & _).
  exists started. split; [exact R|]. now rewrite (In1 _ I), L'.
Qed.

Lemma snapshot_loop_app before rest : forall disk : Disk,
  snapshot_loop fs (before ++ rest) disk =
  match snapshot_loop fs before disk with
  | (Done _, disk1) => snapshot_loop fs rest disk1
  | failed => failed
  end.
Proof.
  induction before as [|[n c] before IH]; intros disk; [reflexivity|].
  cbn [app snapshot_loop].
  destruct (dump fs disk (path n) c) as [[u|e] disk1];
    [apply IH|reflexivity].
Qed.

(** X24.  A snapshot stops at the first dump that raises: if the snapshot
    of the collections that come first in the database succeeds, and the
    dump of the next one raises, whatever the exception, then the snapshot
    of the whole database raises [PermissionError] and leaves the disk as
    that dump left it; the collections after it are not dumped. *)
Theorem snapshot_stops_at_the_first_failure (db : Database)
  (disk disk1 disk2 : Disk) before name c after e :
  db = before ++ (name, c) :: after ->
  _create_snapshot fs before disk = (Done tt, disk1) ->
  dump fs disk1 (path name) c = (Failed e, disk2) ->
  _create_snapshot fs db disk = (Failed PermissionError, disk2).
Proof.
  intros -> S D. unfold _create_snapshot, items, copy in *.
  destruct (makedirs fs disk "Data") as [[u|x] disk0]; [|discriminate].
  rewrite snapshot_loop_app, S. cbn [snapshot_loop]. now rewrite D.
Qed.

End Restart.

Lemma path_inj a b : path a = path b -> a = b.
Proof.
  unfold path. intros H. cbn in H. injection H as H.
  apply (f_equal list_ascii_of_string) in H.
  rewrite !list_ascii_of_string_app in H. apply app_inv_tail in H.
  rewrite <- (string_of_list_ascii_of_string a),
          <- (string_of_list_ascii_of_string b).
  now rewrite H.
Qed.

(** The file system in memory keeps what is dumped, and keeps the files
    of different names apart. *)
Lemma memory_dump_load d n c d' :
  dump memory d (path n) c = (Done tt, d') ->
  load memory d' (path n) = Done (Loaded c).
Proof.
  cbn [dump load memory].
  destruct (getitem String.eqb d (path n)) as [[o|[cl []]]|];
    intros [= <-]; now rewrite (getitem_setitem_eq _ string_eqb_spec).
Qed.

Lemma memory_dump_frame d n m c r d' :
  n <> m ->
  dump memory d (path n) c = (r, d') ->
  load memory d' (path m) = load memory d (path m).
Proof.
  intros N. cbn [dump load memory].
  assert (P : path n <> path m) by (intros E; now apply path_inj in E).
  destruct (getitem String.eqb d (path n)) as [[o|[cl []]]|];
    intros [= _ <-]; try reflexivity;
    now rewrite (getitem_setitem_neq _ string_eqb_spec).
Qed.

Lemma init_db_loads_the_configured_collections_witness :
  let disk : dict string (outcome Unpickled) :=
    [(path "age", Done (Loaded [(KInt 1, VInt 20)]));
     (path "cars", Failed PermissionError);
     (path "other", Failed (mkExc "UnpicklingError" false))] in
  exists db : dict string Unpickled,
    _init_db memory disk ["age"; "cars"; "names"] = Done db
    /\ getitem String.eqb db "age" = Ok (Loaded [(KInt 1, VInt 20)])
    /\ getitem String.eqb db "cars" = Ok (Loaded [])
    /\ getitem String.eqb db "names" = Ok (Loaded [])
    /\ getitem String.eqb db "other" = Raise KeyError.
Proof.
  intros disk.
  destruct (proj1 (init_db_loads_the_configured_collections memory disk
                     ["age"; "cars"; "names"])) as (db & R & I & O).
  - intros n e [<-|[<-|[<-|[]]]]; cbn; intros [= <-]; reflexivity.
  - exists db. split; [exact R|].
    split; [apply (I "age"); simpl; tauto|].
    split; [apply (I "cars"); simpl; tauto|].
    split; [apply (I "names"); simpl; tauto|].
    apply O. simpl. intuition discriminate.
Defined.

Lemma restart_restores_the_configured_collections_witness :
  let db : Database :=
    [("age", [(KInt 1, VInt 20)]); ("cars", [(KInt 7, VStr "a")])] in
  let disk : dict string (outcome Unpickled) :=
    [(path "age", Failed (mkExc "UnpicklingError" false))] in
  exists started : dict string Unpickled,
    _init_db memory (snd (_create_snapshot memory db disk)) ["age"]
    = Done started
    /\ getitem String.eqb started "age" = Ok (Loaded [(KInt 1, VInt 20)])
    /\ getitem String.eqb started "cars" = Raise KeyError.
Proof.
  intros db disk.
  destruct (@restart_restores_the_configured_collections _ memory db disk
              (snd (_create_snapshot memory db disk)) ["age"])
    as (started & R & I & N).
  - repeat constructor; simpl; intuition discriminate.
  - intros d n c d' _. apply memory_dump_load.
  - intros d n m c r d' _ _. apply memory_dump_frame.
  - reflexivity.
  - intros n [<-|[]]. simpl. tauto.
  - exists started. split; [exact R|]. split.
    + apply I; [simpl; tauto|reflexivity].
    + apply N. simpl. intuition discriminate.
Defined.

Lemma deleted_collection_returns_at_restart_witness :
  let db : Database := [("age", [(KInt 1, VInt 20)])] in
  let disk : dict string (outcome Unpickled) :=
    [(path "cars", Done (Loaded [(KInt 7, VStr "a")]))] in
  exists started : dict string Unpickled,
    _init_db memory (snd (_create_snapshot memory db disk)) ["age"; "cars"]
    = Done started
    /\ getitem String.eqb started "cars" = Ok (Loaded [(KInt 7, VStr "a")]).
Proof.
  intros db disk.
  destruct (@deleted_collection_returns_at_restart _ memory db disk
              (snd (_create_snapshot memory db disk))
              (fst (_create_snapshot memory db disk))
              ["age"; "cars"] "cars" [(KInt 7, VStr "a")])
    as (_ & started & R & G).
  - intros d r' d' [= _ <-]. reflexivity.
  - intros d m c0 r' d' [<-|[]]. apply memory_dump_frame. discriminate.
  - reflexivity.
  - reflexivity.
  - simpl. tauto.
  - intros n e [<-|[<-|[]]]; cbn; intros [= <-].
  - exists started. split; [exact R|exact G].
Defined.

Lemma snapshot_stops_at_the_first_failure_witness :
  let db : Database :=
    [("age", [(KInt 1, VInt 20)]); ("cars", [(KInt 7, VStr "a")]);
     ("names", [(KInt 1, VStr "Radu")])] in
  let disk : dict string (outcome Unpickled) :=
    [(path "cars", Failed (mkExc "IsADirectoryError" true));
     (path "names", Done (Loaded []))] in
  _create_snapshot memory db disk =
  (Failed PermissionError,
   [(path "cars", Failed (mkExc "IsADirectoryError" true));
    (path "names", Done (Loaded []));
    (path "age", Done (Loaded [(KInt 1, VInt 20)]))]).
Proof.
  intros db disk.
  apply (@snapshot_stops_at_the_first_failure _ memory db disk
           (snd (_create_snapshot memory [("age", [(KInt 1, VInt 20)])] disk))
           _ [("age", [(KInt 1, VInt 20)])] "cars" [(KInt 7, VStr "a")]
           [("names", [(KInt 1, VStr "Radu")])]
           (mkExc "IsADirectoryError" true));
    reflexivity.
Defined.

(* ================================================================= *)
(** ** Reading the configuration *)

Lemma split_chars_not_nil sep cs : split_chars sep cs <> [].
Proof.
  destruct cs as [|c cs]; simpl; [discriminate|].
  destruct (Ascii.eqb c sep); [discriminate|].
  destruct (split_chars sep cs); discriminate.
Qed.

Lemma int_of_py_int text z : int_of text = Some z -> py_int text = Ok (VInt z).
Proof.
  unfold int_of. destruct (py_int text) as [[]|]; try discriminate.
  now intros [= ->].
Qed.

Lemma read_config_cases config :
  let settings := _read_config config in
  settings = mkSettings "127.0.0.1" 65535 [] 60
  \/ (config "database" "host" = Some (host settings)
      /\ (exists text, config "database" "port" = Some text
                       /\ py_int text = Ok (VInt (port settings)))
      /\ (exists text, config "database" "collections" = Some text
                       /\ collection_names settings = split text ",")
      /\ (exists text, config "snapshot" "interval" = Some text
                       /\ py_int text =
                          Ok (VInt (snapshot_interval settings)))).
Proof.
  unfold _read_config, attempt.
  destruct (config "database" "host") as [h|]; [|now left].
  destruct (config "database" "port") as [pt|]; [|now left].
  destruct (int_of pt) as [p|] eqn:P; [|now left].
  destruct (config "database" "collections") as [ct|]; [|now left].
  destruct (config "snapshot" "interval") as [it|]; [|now left].
  destruct (int_of it) as [i|] eqn:I; [|now left].
  cbn [host port collection_names snapshot_interval].
  right. split; [reflexivity|].
  split; [exists pt; split; [reflexivity|now apply int_of_py_int]|].
  split; [exists ct; split; reflexivity|].
  exists it. split; [reflexivity|now apply int_of_py_int].
Qed.

(** X25.  The configuration is read all or nothing.  When the host, the
    port, the collections and the interval can all be read (the port and
    the interval being numerals that [int] reads, of at most 4300
    characters), the settings are the host, the two integers and the
    collections option cut at its commas; when the host or the
    collections option is missing, or the port or the interval is missing
    or not such a numeral, all four settings are the defaults 127.0.0.1,
    65535, no collection and 60. *)
Theorem read_config_is_all_or_nothing config :
  (forall host port_text port collections interval_text interval,
     config "database" "host" = Some host ->
     config "database" "port" = Some port_text ->
     String.length port_text <= 4300 ->
     py_int port_text = Ok (VInt port) ->
     config "database" "collections" = Some collections ->
     config "snapshot" "interval" = Some interval_text ->
     String.length interval_text <= 4300 ->
     py_int interval_text = Ok (VInt interval) ->
     _read_config config =
     mkSettings host port (split collections ",") interval)
  /\ (config "database" "host" = None
      \/ (forall text port, config "database" "port" = Some text ->
            py_int text <> Ok (VInt port))
      \/ config "database" "collections" = None
      \/ (forall text interval, config "snapshot" "interval" = Some text ->
            py_int text <> Ok (VInt interval)) ->
      _read_config config = mkSettings "127.0.0.1" 65535 [] 60).
Proof.
  split.
  - intros h pt p ct it i H Pt _ P C It _ I.
    unfold _read_config, attempt, int_of. now rewrite H, Pt, P, C, It, I.
  - intros U.
    destruct (read_config_cases config)
      as [D|(H & (pt & Pt & P) & (ct & C & _) & (it & It & I))]; [exact D|].
    exfalso. destruct U as [U|[U|[U|U]]].
    + congruence.
    + exact (U _ _ Pt P).
    + congruence.
    + exact (U _ _ It I).
Qed.

Lemma read_config_is_all_or_nothing_witness :
  let config : ConfigParser :=
    fun section option =>
      if String.eqb option "host" then Some "localhost"
      else if String.eqb option "port" then Some " 8080"
      else if String.eqb option "collections" then Some "cars,age"
      else if String.eqb option "interval" then Some "5"
      else None in
  _read_config config = mkSettings "localhost" 8080 ["cars"; "age"] 5.
Proof.
  intros config.
  apply (proj1 (read_config_is_all_or_nothing config)
           "localhost" " 8080" 8080%Z "cars,age" "5" 5%Z);
    try reflexivity; simpl; lia.
Defined.

Lemma split_chars_concat sep cs :
  List.concat (map (fun w => sep :: w) (split_chars sep cs)) = sep :: cs.
Proof.
  induction cs as [|c cs IH]; [reflexivity|]. cbn [split_chars].
  destruct (Ascii.eqb_spec c sep) as [->|N].
  - cbn [map List.concat]. now rewrite IH.
  - destruct (split_chars sep cs) as [|w ws] eqn:S;
      [now apply split_chars_not_nil in S|].
    cbn [map List.concat app] in *. injection IH as IH. now rewrite IH.
Qed.

Lemma split_chars_no_sep sep cs w :
  In w (split_chars sep cs) -> ~ In sep w.
Proof.
  revert w. induction cs as [|c cs IH]; intros w.
  - intros [<-|[]] [].
  - cbn [split_chars]. destruct (Ascii.eqb_spec c sep) as [->|N].
    + intros [<-|I]; [intros []|now apply IH].
    + destruct (split_chars sep cs) as [|w0 ws] eqn:S.
      * intros [<-|[]] [E|[]]. congruence.
      * intros [<-|I].
        -- intros [E|I]; [congruence|]. apply (IH w0); [now left|exact I].
        -- apply IH. now right.
Qed.

Lemma string_of_list_ascii_app a b :
  string_of_list_ascii (a ++ b) =
  (string_of_list_ascii a ++ string_of_list_ascii b)%string.
Proof. induction a as [|c a IH]; [reflexivity|]. cbn. now rewrite IH. Qed.

Lemma concat_words sep ws : forall w,
  String.concat (String sep "") (map string_of_list_ascii (w :: ws)) =
  string_of_list_ascii (w ++ List.concat (map (fun x => sep :: x) ws)).
Proof.
  induction ws as [|w' ws IH]; intros w.
  - cbn. now rewrite app_nil_r.
  - change (String.concat (String sep "")
              (map string_of_list_ascii (w :: w' :: ws)))
      with (string_of_list_ascii w ++ String sep "" ++
            String.concat (String sep "")
              (map string_of_list_ascii (w' :: ws)))%string.
    rewrite IH. cbn [map List.concat app].
    rewrite (string_of_list_ascii_app w). reflexivity.
Qed.

(** X26.  The collection names are the pieces of the option between its
    commas, nothing trimmed and nothing dropped: the names joined by commas
    are the text of the option, and no name holds a comma. *)
Theorem collection_names_are_cut_at_commas config text :
  _read_config config <> mkSettings "127.0.0.1" 65535 [] 60 ->
  config "database" "collections" = Some text ->
  let names := collection_names (_read_config config) in
  String.concat "," names = text
  /\ forall name, In name names ->
       ~ In ","%char (list_ascii_of_string name).
Proof.
  intros N C.
  destruct (read_config_cases config)
    as [D|(_ & _ & (t & C' & S) & _)]; [now elim N|].
  rewrite C in C'. injection C' as <-. cbv zeta. rewrite S. clear.
  unfold split. split.
  - pose proof (split_chars_concat "," (list_ascii_of_string text)) as H.
    rewrite <- (string_of_list_ascii_of_string text) at 2.
    destruct (split_chars "," (list_ascii_of_string text)) as [|w ws] eqn:E;
      [now apply split_chars_not_nil in E|].
    cbn [map List.concat app] in H. injection H as H. rewrite <- H.
    apply concat_words.
  - intros name I. apply in_map_iff in I. destruct I as (w & <- & I).
    rewrite list_ascii_of_string_of_list_ascii.
    now apply split_chars_no_sep with (cs := list_ascii_of_string text).
Qed.

Lemma collection_names_are_cut_at_commas_witness :
  let config : ConfigParser :=
    fun section option =>
      if String.eqb option "host" then Some "localhost"
      else if String.eqb option "port" then Some "8080"
      else if String.eqb option "collections" then Some "cars, age,,"
      else if String.eqb option "interval" then Some "5"
      else None in
  collection_names (_read_config config) = ["cars"; " age"; ""; ""]
  /\ String.concat "," (collection_names (_read_config config)) =
     "cars, age,,".
Proof.
  intros config. split; [reflexivity|].
  refine (proj1 (@collection_names_are_cut_at_commas config "cars, age,,"
                   _ eq_refl)).
  intros E. vm_compute in E. discriminate E.
Defined.

(* ================================================================= *)
(** ** The request loop *)

(** X27.  A decoded request of one of the seven types 0 to 6 whose
    collection name and query are texts is always answered: whatever the
    texts, the key (hashable or not), the value and the database, the
    handler that [_listen] calls returns a response and raises nothing. *)
Theorem known_request_is_answered request (db : Database) :
  (0 <= request_type request <= 6)%Z ->
  exists response db', handle_request request db = (Ok response, db').
Proof.
  intros H. unfold handle_request, dict_get. cbn [getitem].
  repeat match goal with
  | |- context [Z.eqb ?a ?b] => destruct (Z.eqb_spec a b)
  end; cbn [call]; [..|lia].
  - destruct (req_key request) as [k|].
    + rewrite read_run.
      destruct (getitem String.eqb db _) as [c|]; [|eauto].
      destruct (getitem key_eqb c k); eauto.
    + rewrite read_unhashable. eauto.
  - destruct (req_key request) as [k|].
    + rewrite add_run. destruct (getitem String.eqb db _); eauto.
    + rewrite add_unhashable. eauto.
  - destruct (req_key request) as [k|].
    + rewrite delete_run.
      destruct (getitem String.eqb db _) as [c|]; [|eauto].
      destruct (delitem key_eqb c k); eauto.
    + rewrite delete_unhashable. eauto.
  - apply query_returns.
  - rewrite create_collection_run.
    destruct (isalpha _); [|eauto].
    destruct (getitem String.eqb db _); eauto.
  - rewrite delete_collection_run.
    destruct (delitem String.eqb db _); eauto.
  - unfold _send_error, ret. eauto.
Qed.

Lemma known_request_is_answered_witness :
  exists response db',
    handle_request
      (mkRequest 1 "cars" Unhashable (VStr "a") "") [("cars", [])]
    = (Ok response, db').
Proof.
  apply known_request_is_answered. simpl. lia.
Defined.

(* ================================================================= *)
(** ** The grammar, exactly *)
















Lemma stops_space chars tl :
  chars " "%char = false -> stops chars (" "%char :: tl).
Proof. intros H. exact H. Qed.















